(** * Sierra Leone locations: search, index, cache and rate limiter

    A shallow embedding of the TypeScript sources
      - [src/utils/normalize.ts]      (normalize, calculateSimilarity)
      - [src/utils/security.ts]       (SecurityValidator)
      - [src/core/SearchService.ts]   (index construction, autocomplete, search)
      - [src/core/LocationService.ts] (cache layer, search, findPlace)
      - [src/data/processor.ts] and [scripts/process-data.js] (generateCode)
    followed by the properties of the written specification, each stated
    against these definitions.

    Conventions of the embedding.
      - A JavaScript string is a [list ascii].  The character classes of the
        regular expressions ([\w], [\s], [\d], [A-Z], [.]) and the case
        mappings are read on ASCII, which is the alphabet of the shipped data
        set; a character above 127 is carried along as a symbol that is
        neither a letter, a digit nor white space.
      - A JavaScript [Map] is an association list in insertion order
        ([JsMap]): [set] on a present key keeps the position of the key.
      - [Date.now()] reads an oracle [clock : nat -> Z] at a counter that
        every reading advances.
      - A thrown [Error] is the [Throw] outcome of a state-and-exception
        monad; mutations made before the throw stay in the state.
      - A score is an exact rational ([Q]); the rounding of IEEE doubles is
        not part of the model, but for the test [score > 0.3] of
        [autocomplete], which rounding decides at the score 3/10
        ([above03]). *)

From Stdlib Require Import String.
From Stdlib Require Import List Ascii ZArith QArith Lia Bool Arith.
From Stdlib Require Import Permutation.
From Stdlib Require DecimalString.
Import ListNotations.

(* ================================================================== *)
(** * Part I.  Definitions                                              *)
(* ================================================================== *)

(** ** Strings *)

Definition str := list ascii.

(** [lit "abc"] is the string literal ['abc']. *)
Definition lit (s : String.string) : str := String.list_ascii_of_string s.
Arguments lit s%_string.

Definition code (c : ascii) : nat := nat_of_ascii c.

Definition inRange (lo hi : nat) (c : ascii) : bool :=
  (lo <=? code c)%nat && (code c <=? hi)%nat.

Definition isUpper (c : ascii) : bool := inRange 65 90 c.
Definition isLower (c : ascii) : bool := inRange 97 122 c.
Definition isDigit (c : ascii) : bool := inRange 48 57 c.

(** [\w] is [[A-Za-z0-9_]]. *)
Definition isWord (c : ascii) : bool :=
  isUpper c || isLower c || isDigit c || (code c =? 95)%nat.

(** [\s], and the characters removed by [trim]: TAB, LF, VT, FF, CR, SPACE. *)
Definition isSpace (c : ascii) : bool :=
  inRange 9 13 c || (code c =? 32)%nat.

Definition isHyphen (c : ascii) : bool := (code c =? 45)%nat.

Definition lowerChar (c : ascii) : ascii :=
  if isUpper c then ascii_of_nat (code c + 32) else c.

Definition upperChar (c : ascii) : ascii :=
  if isLower c then ascii_of_nat (code c - 32) else c.

Definition toLowerCase (s : str) : str := map lowerChar s.
Definition toUpperCase (s : str) : str := map upperChar s.

Definition eqc (a b : ascii) : bool := Ascii.eqb a b.

Fixpoint eqs (a b : str) : bool :=
  match a, b with
  | [], [] => true
  | x :: a', y :: b' => eqc x y && eqs a' b'
  | _, _ => false
  end.

Fixpoint dropWhile {A} (p : A -> bool) (l : list A) : list A :=
  match l with
  | [] => []
  | x :: l' => if p x then dropWhile p l' else l
  end.

Definition trimStart (s : str) : str := dropWhile isSpace s.
Definition trimEnd (s : str) : str := rev (dropWhile isSpace (rev s)).

(** [String.prototype.trim]. *)
Definition trim (s : str) : str := trimEnd (trimStart s).

(** [s.replace(/\s+/g, ' ')]: every maximal run of white space becomes one
    space.  [inRun] tells that the previous character was white space. *)
Fixpoint collapseFrom (inRun : bool) (s : str) : str :=
  match s with
  | [] => []
  | c :: s' =>
      if isSpace c
      then if inRun then collapseFrom true s' else " "%char :: collapseFrom true s'
      else c :: collapseFrom false s'
  end.

Definition collapseSpaces (s : str) : str := collapseFrom false s.

(** [s.replace(/[^\w\s-]/g, '')]. *)
Definition keepNormal (c : ascii) : bool := isWord c || isSpace c || isHyphen c.

Definition stripPunct (s : str) : str := filter keepNormal s.

(** [normalize] of [src/utils/normalize.ts]:
<<
  if (!str || typeof str !== 'string') return '';
  return str.toLowerCase().trim().replace(/\s+/g, ' ').replace(/[^\w\s-]/g, '');
>> *)
Definition normalize (s : str) : str :=
  match s with
  | [] => []
  | _ => stripPunct (collapseSpaces (trim (toLowerCase s)))
  end.

(** [a.startsWith(b)] and [a.includes(b)]. *)
Fixpoint startsWith (a b : str) : bool :=
  match b, a with
  | [], _ => true
  | y :: b', x :: a' => eqc x y && startsWith a' b'
  | _ :: _, [] => false
  end.

Fixpoint includes (a b : str) : bool :=
  startsWith a b ||
  match a with
  | [] => false
  | _ :: a' => includes a' b
  end.

(** [s.split(' ')]: never empty; consecutive spaces give empty pieces. *)
Fixpoint splitSpace (s : str) : list str :=
  match s with
  | [] => [[]]
  | c :: s' =>
      if (code c =? 32)%nat then [] :: splitSpace s'
      else match splitSpace s' with
           | [] => [[c]]
           | w :: ws => (c :: w) :: ws
           end
  end.

(** [s.substring(0, n)] for a non-negative literal [n]. *)
Definition substring0 (n : nat) (s : str) : str := firstn n s.

(** [s.split(sep)] for a separator of one character. *)
Fixpoint splitOn (sep : ascii) (s : str) : list str :=
  match s with
  | [] => [[]]
  | c :: s' =>
      if eqc c sep then [] :: splitOn sep s'
      else match splitOn sep s' with
           | [] => [[c]]
           | w :: ws => (c :: w) :: ws
           end
  end.

(** [parts.join(sep)]. *)
Fixpoint joinWith (sep : str) (parts : list str) : str :=
  match parts with
  | [] => []
  | [p] => p
  | p :: ps => p ++ sep ++ joinWith sep ps
  end.

Definition LF : ascii := ascii_of_nat 10.
Definition comma : ascii := ascii_of_nat 44.
Definition quote : ascii := ascii_of_nat 34.

(** [a < b] on strings: by code units, a proper prefix first. *)
Fixpoint strLtb (a b : str) : bool :=
  match a, b with
  | _, [] => false
  | [], _ :: _ => true
  | x :: a', y :: b' =>
      (code x <? code y)%nat || ((code x =? code y)%nat && strLtb a' b')
  end.

(** [arr.sort()] on an array of strings: ascending by code units.  The sort
    of the language is stable; the result is the one of an insertion sort. *)
Fixpoint insertAsc (x : str) (l : list str) : list str :=
  match l with
  | [] => [x]
  | y :: l' => if strLtb y x then y :: insertAsc x l' else x :: l
  end.

Definition sortStrings (l : list str) : list str := fold_right insertAsc [] l.

(** ** [calculateSimilarity] of [src/utils/normalize.ts] *)

(** One row of the Levenshtein matrix.  [c2] is [s2.charAt(i-1)], [above] is
    row [i-1] from column [j-1] on, [left] is [matrix[i][j-1]]; the result is
    row [i] from column [j] on. *)
Fixpoint nextRow (c2 : ascii) (s1 : str) (above : list nat) (left : nat) : list nat :=
  match s1, above with
  | c1 :: s1', diag :: ((up :: _) as above') =>
      let v := if eqc c2 c1 then diag
               else Nat.min (diag + 1) (Nat.min (left + 1) (up + 1)) in
      v :: nextRow c2 s1' above' v
  | _, _ => []
  end.

(** Rows [1 .. s2.length], starting from row [0] and its index. *)
Fixpoint lastRow (s2 s1 : str) (row : list nat) (i : nat) : list nat :=
  match s2 with
  | [] => row
  | c2 :: s2' => lastRow s2' s1 (S i :: nextRow c2 s1 row (S i)) (S i)
  end.

(** [matrix[s2.length][s1.length]]. *)
Definition levenshtein (s1 s2 : str) : nat :=
  last (lastRow s2 s1 (seq 0 (S (length s1))) 0) 0%nat.

Definition natQ (n : nat) : Q := inject_Z (Z.of_nat n).

(** The numeric literal [0.8]. *)
Definition q08 : Q := 8 # 10.
(** The numeric literal [0.3]. *)
Definition q03 : Q := 3 # 10.

(** [score > 0.3] on a score of [calculateSimilarity], as the code evaluates
    it.  The code holds its scores as doubles: the literal [0.3] is the
    double next below 3/10, and a score of 3/10 comes from
    [1 - distance / maxLength] with a quotient of 7/10, which the double
    arithmetic gives as 0.30000000000000004.  So the test holds of the score
    3/10 (a distance of 7 at a length of 10, as for ['bkm'] and
    ['baeiouakam']), and it fails of every score below 3/10, the strings
    being of a length that an engine can hold. *)
Definition above03 (score : Q) : bool := Qle_bool q03 score.

(** <<
  const s1 = normalize(str1); const s2 = normalize(str2);
  if (s1 === s2) return 1;
  if (s1.includes(s2) || s2.includes(s1)) return 0.8;
  ... Levenshtein matrix ...
  return maxLength === 0 ? 1 : 1 - distance / maxLength;
>>
    The score is kept as the exact fraction, where the code computes it in
    doubles. *)
Definition calculateSimilarity (str1 str2 : str) : Q :=
  let s1 := normalize str1 in
  let s2 := normalize str2 in
  if eqs s1 s2 then 1
  else if includes s1 s2 || includes s2 s1 then q08
  else
    let distance := levenshtein s1 s2 in
    let maxLength := Nat.max (length s1) (length s2) in
    if (maxLength =? 0)%nat then 1
    else 1 - natQ distance / natQ maxLength.

(** ** JavaScript [Map] with string keys *)

Module JsMap.

Definition t (V : Type) := list (str * V).

Definition empty {V} : t V := [].

Fixpoint get {V} (m : t V) (k : str) : option V :=
  match m with
  | [] => None
  | (k', v) :: m' => if eqs k' k then Some v else get m' k
  end.

Definition has {V} (m : t V) (k : str) : bool :=
  match get m k with Some _ => true | None => false end.

(** A present key keeps its position; a new key goes last. *)
Fixpoint set {V} (m : t V) (k : str) (v : V) : t V :=
  match m with
  | [] => [(k, v)]
  | (k', v') :: m' => if eqs k' k then (k', v) :: m' else (k', v') :: set m' k v
  end.

Fixpoint delete {V} (m : t V) (k : str) : t V :=
  match m with
  | [] => []
  | (k', v') :: m' => if eqs k' k then m' else (k', v') :: delete m' k
  end.

Definition size {V} (m : t V) : nat := length m.

Definition entries {V} (m : t V) : list (str * V) := m.

Definition keys {V} (m : t V) : list str := map fst m.

Definition values {V} (m : t V) : list V := map snd m.

End JsMap.

(** ** [src/types/index.ts] *)

Record LocationRecord := mkRecord {
  idregion : str;
  iddistrict : str;
  idcouncil : str;
  idchiefdom : str;
  idsection : str;
  idtown : str
}.

Inductive LocationType :=
| region | district | council | chiefdom | section | town | province | village.

Definition typeName (t : LocationType) : str :=
  match t with
  | region => lit "region" | district => lit "district"
  | council => lit "council" | chiefdom => lit "chiefdom"
  | section => lit "section" | town => lit "town"
  | province => lit "province" | village => lit "village"
  end.

Definition eqType (a b : LocationType) : bool := eqs (typeName a) (typeName b).

(** [searchType] is written by one index builder and never read: left out. *)
Record SearchIndexEntry := mkEntry {
  e_name : str;
  e_type : LocationType;
  e_normalized : str;
  e_record : LocationRecord;
  e_partialMatch : bool
}.

Record SearchResult := mkResult {
  r_name : str;
  r_type : LocationType;
  r_fullPath : str;
  r_code : str;
  r_score : Q
}.

(** The fields of [PlaceDetails] that the services fill in. *)
Record PlaceDetails := mkPlace {
  p_name : str;
  p_type : LocationType;
  p_code : str;
  p_province : str;
  p_district : str;
  p_chiefdom : str
}.

(** [SearchOptions]: an absent property is [None]. *)
Record SearchOptions := mkOptions {
  o_limit : option Z;
  o_minScore : option Q;
  o_types : option (list LocationType);
  o_fuzzy : option bool
}.

Definition noOptions : SearchOptions := mkOptions None None None None.

(** What the cache of [LocationService] ([Map<string, unknown>]) holds. *)
Inductive CacheValue :=
| VNull
| VStrings (l : list str)
| VPlace (p : PlaceDetails)
| VPlaces (l : list PlaceDetails)
| VRecord (r : LocationRecord)
| VRecords (l : list LocationRecord).

(** A value read back from the cache: [None] is [undefined]. *)
Definition JsValue := option CacheValue.

(** JavaScript truthiness: [undefined] and [null] are falsy, every object and
    every array (the empty one too) is truthy. *)
Definition truthy (v : JsValue) : bool :=
  match v with
  | None => false
  | Some VNull => false
  | Some _ => true
  end.

(** ** Regular expressions

    The fragment of JavaScript regular expressions that the patterns of
    [SecurityValidator] are written in, with the backtracking order of the
    language: alternatives left to right, quantifiers greedy.  All patterns
    carry the flags [gi]: a literal character is compared after
    canonicalisation to upper case, and [test] starts at [lastIndex] and
    leaves the end of the match there. *)

Inductive regex :=
| REps
| RChar (c : ascii)
| RClass (p : ascii -> bool)
| RSeq (a b : regex)
| RAlt (a b : regex)
| RStar (p : ascii -> bool)
| RBoundary.

(** [.] matches everything but a line terminator. *)
Definition isAny (c : ascii) : bool :=
  negb ((code c =? 10)%nat || (code c =? 13)%nat).

Definition isWordAt (o : option ascii) : bool :=
  match o with Some c => isWord c | None => false end.

(** Greedy [C*] followed by the continuation [k].  [prev] is the character
    before the current position, [s] the input from the current position. *)
Fixpoint starMatch (p : ascii -> bool) (k : option ascii -> str -> option str)
         (prev : option ascii) (s : str) : option str :=
  match s with
  | x :: s' =>
      if p x
      then match starMatch p k (Some x) s' with
           | Some rest => Some rest
           | None => k prev s
           end
      else k prev s
  | [] => k prev s
  end.

(** [rmatch r prev s k]: match [r] at the head of [s], then [k]; the result
    is the input left after the first successful match in backtracking
    order. *)
Fixpoint rmatch (r : regex) (prev : option ascii) (s : str)
         (k : option ascii -> str -> option str) : option str :=
  match r with
  | REps => k prev s
  | RChar c =>
      match s with
      | x :: s' => if eqc (upperChar x) (upperChar c) then k (Some x) s' else None
      | [] => None
      end
  | RClass p =>
      match s with
      | x :: s' => if p x then k (Some x) s' else None
      | [] => None
      end
  | RSeq a b => rmatch a prev s (fun prev' s' => rmatch b prev' s' k)
  | RAlt a b =>
      match rmatch a prev s k with
      | Some rest => Some rest
      | None => rmatch b prev s k
      end
  | RStar p => starMatch p k prev s
  | RBoundary => if xorb (isWordAt prev) (isWordAt (hd_error s)) then k prev s else None
  end.

(** Try the start positions [i], [i+1], ... of which [s] is the input from
    position [i]; positions before [from] are skipped.  The result is the end
    index of the match. *)
Fixpoint execAt (r : regex) (prev : option ascii) (s : str) (i from : nat) : option nat :=
  match (if (from <=? i)%nat then rmatch r prev s (fun _ rest => Some rest) else None) with
  | Some rest => Some (i + (length s - length rest))%nat
  | None =>
      match s with
      | [] => None
      | c :: s' => execAt r (Some c) s' (S i) from
      end
  end.

(** [RegExp.prototype.test] of a global pattern: the answer and the new
    [lastIndex]. *)
Definition test (r : regex) (lastIndex : nat) (s : str) : bool * nat :=
  match execAt r None s 0 lastIndex with
  | Some e => (true, e)
  | None => (false, 0%nat)
  end.

(** <<for (const pattern of PATTERNS) { if (pattern.test(input)) throw ... }>>
    over the patterns [ps] with their [lastIndex] values [st]: whether some
    pattern hit, and the [lastIndex] values afterwards (patterns after the
    hit are not run). *)
Fixpoint testAny (ps : list regex) (st : list nat) (s : str) : bool * list nat :=
  match ps with
  | [] => (false, [])
  | r :: ps' =>
      let (hit, li) := test r (hd 0%nat st) s in
      if hit then (true, li :: tl st)
      else let (h, st') := testAny ps' (tl st) s in (h, li :: st')
  end.

Fixpoint rseq (l : list regex) : regex :=
  match l with
  | [] => REps
  | [r] => r
  | r :: l' => RSeq r (rseq l')
  end.

Definition rlit (s : String.string) : regex := rseq (map RChar (lit s)).
Arguments rlit s%_string.

Definition rplus (p : ascii -> bool) : regex := RSeq (RClass p) (RStar p).

(** [s.replace(r, '')] for a global pattern [r]: the matches, found from left
    to right and not overlapping, are taken out.  [prev] is the character
    before the current position and [skip] the number of characters of the
    current match that are still to drop; after an empty match the search
    goes on one character further. *)
Fixpoint removeMatches (r : regex) (prev : option ascii) (skip : nat) (s : str) : str :=
  match s with
  | [] => []
  | x :: s' =>
      match skip with
      | S k => removeMatches r (Some x) k s'
      | O =>
          match rmatch r prev s (fun _ rest => Some rest) with
          | Some rest =>
              match (length s - length rest)%nat with
              | S k => removeMatches r (Some x) k s'
              | O => x :: removeMatches r (Some x) 0 s'
              end
          | None => x :: removeMatches r (Some x) 0 s'
          end
      end
  end.

(** ** [sanitizeInput] of [src/utils/normalize.ts] *)

(** The class of [;], the single quote, the double quote and the backslash. *)
Definition isInjectionChar (c : ascii) : bool :=
  existsb (fun n => (code c =? n)%nat) [59; 39; 34; 92]%nat.

(** <<
  if (!input || typeof input !== 'string') return '';
  return input.replace(INJECTION_CHARS, '').replace(/--/g, '')
              .replace(/\/\*/g, '').replace(/\*\//g, '').trim().substring(0, 100);
>>  The patterns hold no letter, so the case-insensitive comparison of
    [RChar] is the exact one. *)
Definition sanitizeInput (input : str) : str :=
  match input with
  | [] => []
  | _ =>
      let s1 := filter (fun c => negb (isInjectionChar c)) input in
      let s2 := removeMatches (rlit "--") None 0 s1 in
      let s3 := removeMatches (rlit "/*") None 0 s2 in
      let s4 := removeMatches (rlit "*/") None 0 s3 in
      substring0 100 (trim s4)
  end.

(** ** The program state *)

Inductive Error :=
| RateLimitExceeded       (* 'Rate limit exceeded' *)
| SearchQueryTooLong      (* 'Search query exceeds maximum length of 100 characters' *)
| SearchQueryTooShort     (* 'Search query must be at least 2 characters long' *)
| InputTooLong            (* 'Input exceeds maximum length of 200 characters' *)
| SqlInjectionPatterns    (* 'Input contains SQL injection patterns' *)
| MaliciousContent.       (* 'Input contains potentially malicious content' *)

(** The [lastIndex] of the static pattern objects of [SecurityValidator]. *)
Record RegexState := mkRegexState {
  sqlLastIndex : list nat;
  blockedLastIndex : list nat
}.

(** The fields of the [LocationService] singleton that the cache layer,
    [search] and [findPlace] use, after initialisation. *)
Record LocationServiceState := mkLocationService {
  ls_rawData : list LocationRecord;
  ls_cache : JsMap.t CacheValue;
  ls_searchIndex : JsMap.t (list SearchIndexEntry);
  ls_maxCacheSize : nat;
  ls_cacheAccessTimes : JsMap.t Z
}.

(** The fields of a [SearchService]. *)
Record SearchServiceState := mkSearchService {
  ss_searchIndex : JsMap.t (list SearchIndexEntry);
  ss_rateLimit : JsMap.t (list Z)
}.

Record World := mkWorld {
  clock : nat -> Z;
  ticks : nat;
  regexState : RegexState;
  locationService : LocationServiceState;
  searchService : SearchServiceState
}.

Inductive Outcome (A : Type) :=
| Ok (a : A)
| Throw (e : Error).
Arguments Ok {A} a.
Arguments Throw {A} e.

Definition M (A : Type) := World -> Outcome A * World.

Definition ret {A} (a : A) : M A := fun w => (Ok a, w).

Definition throw {A} (e : Error) : M A := fun w => (Throw e, w).

Definition bind {A B} (c : M A) (f : A -> M B) : M B :=
  fun w => match c w with
           | (Ok a, w') => f a w'
           | (Throw e, w') => (Throw e, w')
           end.

Notation "x <- c1 ;; c2" := (bind c1 (fun x => c2))
  (at level 61, c1 at next level, right associativity).
Notation "c1 ;; c2" := (bind c1 (fun _ => c2))
  (at level 61, right associativity).

Definition gets {A} (f : World -> A) : M A := fun w => (Ok (f w), w).

Definition modify (f : World -> World) : M unit := fun w => (Ok tt, f w).

(** [Date.now()]. *)
Definition dateNow : M Z :=
  fun w => (Ok (clock w (ticks w)),
            mkWorld (clock w) (S (ticks w)) (regexState w) (locationService w) (searchService w)).

Definition setRegexState (r : RegexState) (w : World) : World :=
  mkWorld (clock w) (ticks w) r (locationService w) (searchService w).

Definition setLocationService (l : LocationServiceState) (w : World) : World :=
  mkWorld (clock w) (ticks w) (regexState w) l (searchService w).

Definition setSearchService (s : SearchServiceState) (w : World) : World :=
  mkWorld (clock w) (ticks w) (regexState w) (locationService w) s.

(** ** [SecurityValidator] of [src/utils/security.ts] *)

Module SecurityValidator.

Definition MAX_INPUT_LENGTH : nat := 200.
Definition MAX_SEARCH_LENGTH : nat := 100.

Definition bounded (w : String.string) : regex := rseq [RBoundary; rlit w; RBoundary].
Arguments bounded w%_string.

Definition orAnd : regex := RAlt (rlit "or") (rlit "and").

Definition BLOCKED_PATTERNS : list regex :=
  [ rlit "<script";                                              (* /<script/gi *)
    rlit "javascript:";                                          (* /javascript:/gi *)
    rseq [rlit "on"; rplus isWord; RStar isSpace; rlit "="];     (* /on\w+\s*=/gi *)
    rlit "eval(";                                                (* /eval\(/gi *)
    rlit "expression(";                                          (* /expression\(/gi *)
    rlit "vbscript:";                                            (* /vbscript:/gi *)
    rseq [rlit "import"; rplus isSpace];                         (* /import\s+/gi *)
    rseq [rlit "require"; RStar isSpace; rlit "("];              (* /require\s*\(/gi *)
    rlit "..";                                                   (* /\.\./gi *)
    rlit "file:";                                                (* /file:/gi *)
    rlit "data:";                                                (* /data:/gi *)
    bounded "exec";                                              (* /\bexec\b/gi *)
    bounded "system";                                            (* /\bsystem\b/gi *)
    bounded "drop";                                              (* /\bdrop\b/gi *)
    bounded "delete";                                            (* /\bdelete\b/gi *)
    bounded "union";                                             (* /\bunion\b/gi *)
    rseq [bounded "select"; RStar isAny; bounded "from"]         (* /\bselect\b.*\bfrom\b/gi *)
  ].

Definition SQL_INJECTION_PATTERNS : list regex :=
  [ (* /(\b(or|and)\b\s*\d+\s*=\s*\d+)/gi *)
    rseq [RBoundary; orAnd; RBoundary; RStar isSpace; rplus isDigit;
          RStar isSpace; rlit "="; RStar isSpace; rplus isDigit];
    (* /'.*\b(or|and)\b.*'/gi *)
    rseq [rlit "'"; RStar isAny; RBoundary; orAnd; RBoundary; RStar isAny; rlit "'"];
    (* /(--|#|\/\*|\*\/)/gi *)
    RAlt (rlit "--") (RAlt (rlit "#") (RAlt (rlit "/*") (rlit "*/")));
    (* /(benchmark|sleep|waitfor|delay)\s*\(/gi *)
    rseq [RAlt (rlit "benchmark") (RAlt (rlit "sleep") (RAlt (rlit "waitfor") (rlit "delay")));
          RStar isSpace; rlit "("];
    (* /(\bunion\b\s+\bselect\b)/gi *)
    rseq [bounded "union"; rplus isSpace; bounded "select"];
    (* /('\s*;\s*\w+)/gi *)
    rseq [rlit "'"; RStar isSpace; rlit ";"; RStar isSpace; rplus isWord]
  ].

Definition testSqlInjection (input : str) : M bool :=
  fun w =>
    let rs := regexState w in
    let (hit, st) := testAny SQL_INJECTION_PATTERNS (sqlLastIndex rs) input in
    (Ok hit, setRegexState (mkRegexState st (blockedLastIndex rs)) w).

Definition testBlocked (input : str) : M bool :=
  fun w =>
    let rs := regexState w in
    let (hit, st) := testAny BLOCKED_PATTERNS (blockedLastIndex rs) input in
    (Ok hit, setRegexState (mkRegexState (sqlLastIndex rs) st) w).

Definition isLt (c : ascii) : bool := (code c =? 60)%nat.
Definition isGt (c : ascii) : bool := (code c =? 62)%nat.

(** [s.replace(/<[^>]*>/g, '')].  Outside a tag, a [<] opens one when a [>]
    follows somewhere; when none follows, no later position can match
    either and the rest is kept. *)
Fixpoint stripTags (inTag : bool) (s : str) : str :=
  match s with
  | [] => []
  | c :: s' =>
      if inTag then (if isGt c then stripTags false s' else stripTags true s')
      else if isLt c then (if existsb isGt s' then stripTags true s' else s)
      else c :: stripTags false s'
  end.

(** The class of [<], [>], the single quote, the double quote, the back
    quote, [;] and the backslash. *)
Definition isDangerous (c : ascii) : bool :=
  existsb (fun n => (code c =? n)%nat) [60; 62; 39; 34; 96; 59; 92]%nat.

Definition removeDangerous (s : str) : str := filter (fun c => negb (isDangerous c)) s.

(** The replacement chain at the end of [sanitize]:
<<
  input.replace(/<[^>]*>/g, '').replace(DANGEROUS, '').replace(/\s+/g, ' ').trim()
>> *)
Definition cleaned (input : str) : str :=
  trim (collapseSpaces (removeDangerous (stripTags false input))).

(** <<
  if (!input) return '';
  if (input.length > MAX_INPUT_LENGTH) throw ...
  for (pattern of SQL_INJECTION_PATTERNS) if (pattern.test(input)) throw ...
  for (pattern of BLOCKED_PATTERNS) if (pattern.test(input)) throw ...
  return (the replacement chain on input);
>> *)
Definition sanitize (input : str) : M str :=
  match input with
  | [] => ret []
  | _ =>
      if (MAX_INPUT_LENGTH <? length input)%nat then throw InputTooLong
      else
        sql <- testSqlInjection input ;;
        if sql then throw SqlInjectionPatterns
        else
          blocked <- testBlocked input ;;
          if blocked then throw MaliciousContent
          else ret (cleaned input)
  end.

(** <<
  if (!query) return '';
  if (query.length > MAX_SEARCH_LENGTH) throw ...
  if (query.length < 2) throw ...
  return this.sanitize(query);
>> *)
Definition sanitizeSearchQuery (query : str) : M str :=
  match query with
  | [] => ret []
  | _ =>
      if (MAX_SEARCH_LENGTH <? length query)%nat then throw SearchQueryTooLong
      else if (length query <? 2)%nat then throw SearchQueryTooShort
      else sanitize query
  end.

(** [checkRateLimit(identifier, requests, maxRequests, windowMs)].  [now] is
    the value that [Date.now()] returns in its first statement; the map
    [requests], which the source updates in place, is returned.
<<
  if (!requests.has(identifier)) { requests.set(identifier, [now]); return true; }
  const recentRequests = requests.get(identifier).filter(t => now - t < windowMs);
  if (recentRequests.length >= maxRequests) return false;
  recentRequests.push(now); requests.set(identifier, recentRequests); return true;
>> *)
Definition checkRateLimit (now : Z) (identifier : str) (requests : JsMap.t (list Z))
           (maxRequests windowMs : Z) : bool * JsMap.t (list Z) :=
  match JsMap.get requests identifier with
  | None => (true, JsMap.set requests identifier [now])
  | Some timestamps =>
      let recentRequests := filter (fun t => (now - t <? windowMs)%Z) timestamps in
      if (maxRequests <=? Z.of_nat (length recentRequests))%Z
      then (false, requests)
      else (true, JsMap.set requests identifier (recentRequests ++ [now]))
  end.

(** [s.replace(/c/g, rep)] for a single character [c]. *)
Definition replaceChar (c : ascii) (rep : str) (s : str) : str :=
  flat_map (fun x => if eqc x c then rep else [x]) s.

(** <<
  unsafe.replace(/&/g, '&amp;').replace(/</g, '&lt;').replace(/>/g, '&gt;')
        .replace(/QUOT/g, '&quot;').replace(/'/g, '&#039;')
>>  where QUOT is the double quote. *)
Definition escapeHtml (unsafe : str) : str :=
  replaceChar "'"%char (lit "&#039;")
    (replaceChar quote (lit "&quot;")
       (replaceChar ">"%char (lit "&gt;")
          (replaceChar "<"%char (lit "&lt;")
             (replaceChar "&"%char (lit "&amp;") unsafe)))).

End SecurityValidator.

(** ** Arrays of scored items *)

Definition Qltb (a b : Q) : bool := negb (Qle_bool b a).

(** [arr.slice(0, limit)] for an integer [limit]: a negative [limit] counts
    from the end. *)
Definition slice0 {A} (limit : Z) (l : list A) : list A :=
  if (0 <=? limit)%Z then firstn (Z.to_nat limit) l
  else firstn (length l - Z.to_nat (- limit)) l.

(** [arr.sort((a, b) => b.score - a.score)]: the sort of the language is
    stable, so the result is the one of a stable insertion sort by
    descending score. *)
Fixpoint insertDesc {A} (score : A -> Q) (x : A) (l : list A) : list A :=
  match l with
  | [] => [x]
  | y :: l' => if Qltb (score x) (score y) then y :: insertDesc score x l' else x :: l
  end.

Definition sortDesc {A} (score : A -> Q) (l : list A) : list A :=
  fold_right (insertDesc score) [] l.

(** [set.has(k)] and [arr.includes(k)] on strings. *)
Definition hasStr (l : list str) (k : str) : bool := existsb (eqs k) l.

(** [set.add(x)] on a [Set] of strings kept in insertion order. *)
Definition setAdd (set : list str) (x : str) : list str :=
  if hasStr set x then set else set ++ [x].

(** [Array.from(new Set(arr))]: the first occurrence of every string. *)
Definition distinct (arr : list str) : list str := fold_left setAdd arr [].

(** [if (x)] for an optional string: neither [undefined] nor ['']. *)
Definition given (x : option str) : bool :=
  match x with Some (_ :: _) => true | _ => false end.

(** [x || ''] for an optional string. *)
Definition orEmpty (x : option str) : str :=
  match x with Some s => s | None => [] end.

(** ** [SearchService] of [src/core/SearchService.ts] *)

Module SearchService.

(** [typeMap[type.toLowerCase()] || 'town']; the callers pass the six
    literals ['region'] ... ['town']. *)
Definition normalizeLocationType (type : str) : LocationType :=
  let t := toLowerCase type in
  match find (fun ty => eqs (typeName ty) t)
             [region; province; district; council; chiefdom; section; town; village] with
  | Some ty => ty
  | None => town
  end.

(** <<entries.some(e => e.name === entry.name && e.type === entry.type &&
                     e.normalized === entry.normalized)>> *)
Definition sameEntry (entry e : SearchIndexEntry) : bool :=
  eqs (e_name e) (e_name entry) && eqType (e_type e) (e_type entry)
  && eqs (e_normalized e) (e_normalized entry).

Definition addEntryToKey (index : JsMap.t (list SearchIndexEntry)) (key : str)
           (entry : SearchIndexEntry) : JsMap.t (list SearchIndexEntry) :=
  let index1 := if JsMap.has index key then index else JsMap.set index key [] in
  let entries := match JsMap.get index1 key with Some l => l | None => [] end in
  if existsb (sameEntry entry) entries then index1
  else JsMap.set index1 key (entries ++ [entry]).

Definition isVowel (c : ascii) : bool :=
  existsb (eqc c) (lit "aeiou").

(** [s.replace(/(.)\1+/g, '$1')]: a run of one repeated character (not a
    line terminator) shrinks to one occurrence. *)
Fixpoint squeeze (s : str) : str :=
  match s with
  | c :: ((d :: _) as s') =>
      if eqc c d && isAny c then squeeze s' else c :: squeeze s'
  | _ => s
  end.

(** <<text.replace(/[aeiou]/g, '').replace(/(.)\1+/g, '$1').substring(0, 6)>> *)
Definition getPhoneticKey (text : str) : str :=
  substring0 6 (squeeze (filter (fun c => negb (isVowel c)) text)).

Definition asPartial (entry : SearchIndexEntry) : SearchIndexEntry :=
  mkEntry (e_name entry) (e_type entry) (e_normalized entry) (e_record entry) true.

(** [addToIndex(name, type, record)] on the index of the service. *)
Definition addToIndex (index : JsMap.t (list SearchIndexEntry)) (name type : str)
           (record : LocationRecord) : JsMap.t (list SearchIndexEntry) :=
  match name with
  | [] => index
  | _ =>
      if (length (trim name) =? 0)%nat then index
      else
        let normalized := normalize name in
        let entry := mkEntry (trim name) (normalizeLocationType type) normalized record false in
        let index1 := addEntryToKey index normalized entry in
        let words := splitSpace normalized in
        let index2 :=
          if (1 <? length words)%nat
          then fold_left (fun ix word =>
                            if (2 <? length word)%nat
                            then addEntryToKey ix word (asPartial entry) else ix)
                         words index1
          else index1 in
        let phoneticKey := getPhoneticKey normalized in
        if negb (eqs phoneticKey normalized)
        then addEntryToKey index2 phoneticKey (asPartial entry)
        else index2
  end.

(** The body of [allRecords.forEach] in [buildSearchIndex]. *)
Definition indexRecord (index : JsMap.t (list SearchIndexEntry)) (record : LocationRecord)
  : JsMap.t (list SearchIndexEntry) :=
  let i1 := addToIndex index (idregion record) (lit "region") record in
  let i2 := addToIndex i1 (iddistrict record) (lit "district") record in
  let i3 := addToIndex i2 (idcouncil record) (lit "council") record in
  let i4 := addToIndex i3 (idchiefdom record) (lit "chiefdom") record in
  let i5 := addToIndex i4 (idsection record) (lit "section") record in
  addToIndex i5 (idtown record) (lit "town") record.

(** [buildSearchIndex] over the records that [getLocationsByQuery({})]
    hands over (all raw records, in order). *)
Definition buildSearchIndex (index : JsMap.t (list SearchIndexEntry))
           (allRecords : list LocationRecord) : JsMap.t (list SearchIndexEntry) :=
  fold_left indexRecord allRecords index.

(** [parts.join(' > ')]. *)
Fixpoint joinPath (parts : list str) : str :=
  match parts with
  | [] => []
  | [p] => p
  | p :: ps => p ++ lit " > " ++ joinPath ps
  end.

Definition nonEmpty (s : str) : bool := negb (eqs s []).

Definition buildFullPath (entry : SearchIndexEntry) : str :=
  let r := e_record entry in
  let p1 := if nonEmpty (idregion r) then [idregion r] else [] in
  let p2 := if nonEmpty (iddistrict r) && negb (eqs (iddistrict r) (idregion r))
            then [iddistrict r] else [] in
  let p3 := if nonEmpty (idchiefdom r) && negb (eqs (idchiefdom r) (iddistrict r))
            then [idchiefdom r] else [] in
  let p4 := if negb (eqs (e_name entry) (idchiefdom r)) then [e_name entry] else [] in
  joinPath (p1 ++ p2 ++ p3 ++ p4).

(** <<code: `SL-${entry.type.toUpperCase()}-${normalize(entry.name)}`>> *)
Definition createSearchResult (entry : SearchIndexEntry) (score : Q) : SearchResult :=
  mkResult (e_name entry) (e_type entry) (buildFullPath entry)
           (lit "SL-" ++ toUpperCase (typeName (e_type entry)) ++ lit "-" ++ normalize (e_name entry))
           score.

(** The admission check at the head of [autocomplete] and [search]:
    [SecurityValidator.checkRateLimit(clientId, this.rateLimit, max, window)]. *)
Definition rateLimitCheck (clientId : str) (maxRequests windowMs : Z) : M bool :=
  now <- dateNow ;;
  requests <- gets (fun w => ss_rateLimit (searchService w)) ;;
  let (allowed, requests') :=
    SecurityValidator.checkRateLimit now clientId requests maxRequests windowMs in
  modify (fun w => setSearchService
                     (mkSearchService (ss_searchIndex (searchService w)) requests') w) ;;
  ret allowed.

(** *** autocomplete *)

(** The body of [entries.forEach] in [autocomplete]; the state is
    [(results, seen)]. *)
Definition autocompleteEntry (normalized : str) (st : list (str * Q) * list str)
           (entry : SearchIndexEntry) : list (str * Q) * list str :=
  let (results, seen) := st in
  if negb (hasStr seen (e_name entry))
  then
    let score := calculateSimilarity normalized (e_normalized entry) in
    if above03 score
    then (results ++ [(e_name entry, score)], seen ++ [e_name entry])
    else st
  else st.

(** The body of the loop over [this.searchIndex.entries()]. *)
Definition autocompleteKey (normalized : str) (st : list (str * Q) * list str)
           (kv : str * list SearchIndexEntry) : list (str * Q) * list str :=
  let (key, entries) := kv in
  if includes key normalized || includes normalized key
  then fold_left (autocompleteEntry normalized) entries st
  else st.

Definition autocompleteScan (index : JsMap.t (list SearchIndexEntry)) (normalized : str)
  : list (str * Q) * list str :=
  fold_left (autocompleteKey normalized) (JsMap.entries index) ([], []).

(** What [autocomplete] returns for a sanitized query of two characters or
    more: <<results.sort((a, b) => b.score - a.score).slice(0, limit).map(r => r.name)>> *)
Definition autocompleteAnswer (index : JsMap.t (list SearchIndexEntry)) (sanitized : str)
           (limit : Z) : list str :=
  map fst (slice0 limit (sortDesc snd (fst (autocompleteScan index (normalize sanitized))))).

Definition autocomplete (query clientId : str) (limit : Z) : M (list str) :=
  allowed <- rateLimitCheck clientId 50 60000 ;;
  if negb allowed then throw RateLimitExceeded
  else
    sanitized <- SecurityValidator.sanitizeSearchQuery query ;;
    if negb (nonEmpty sanitized) || (length sanitized <? 2)%nat then ret []
    else
      index <- gets (fun w => ss_searchIndex (searchService w)) ;;
      ret (autocompleteAnswer index sanitized limit).

(** *** search *)

(** <<`${entry.name}-${entry.type}`>> *)
Definition seenKey (entry : SearchIndexEntry) : str :=
  e_name entry ++ lit "-" ++ typeName (e_type entry).

(** The guard shared by the three [forEach] bodies of [search]:
    <<types.includes(entry.type) && !seen.has(`${entry.name}-${entry.type}`)>> *)
Definition wanted (types : list LocationType) (seen : list str)
           (entry : SearchIndexEntry) : bool :=
  existsb (eqType (e_type entry)) types && negb (hasStr seen (seenKey entry)).

Definition push (st : list SearchResult * list str) (entry : SearchIndexEntry) (score : Q)
  : list SearchResult * list str :=
  (fst st ++ [createSearchResult entry score], snd st ++ [seenKey entry]).

(** Exact matches: every wanted entry under the key [normalized], score 1.0. *)
Definition exactEntry (types : list LocationType) (st : list SearchResult * list str)
           (entry : SearchIndexEntry) : list SearchResult * list str :=
  if wanted types (snd st) entry then push st entry 1 else st.

(** Partial matches: scored against the whole query, kept from [minScore]. *)
Definition partialEntry (types : list LocationType) (minScore : Q) (normalized : str)
           (st : list SearchResult * list str) (entry : SearchIndexEntry)
  : list SearchResult * list str :=
  if wanted types (snd st) entry
  then
    let score := calculateSimilarity normalized (e_normalized entry) in
    if Qle_bool minScore score then push st entry score else st
  else st.

(** Fuzzy matches: the similarity times 0.8, kept from [minScore]. *)
Definition fuzzyEntry (types : list LocationType) (minScore : Q) (normalized : str)
           (st : list SearchResult * list str) (entry : SearchIndexEntry)
  : list SearchResult * list str :=
  if wanted types (snd st) entry
  then
    let score := calculateSimilarity normalized (e_normalized entry) * q08 in
    if Qle_bool minScore score then push st entry score else st
  else st.

(** [this.searchIndex.get(key) || []] *)
Definition lookup (index : JsMap.t (list SearchIndexEntry)) (key : str) : list SearchIndexEntry :=
  match JsMap.get index key with Some l => l | None => [] end.

Definition exactTier (index : JsMap.t (list SearchIndexEntry)) (types : list LocationType)
           (normalized : str) : list SearchResult * list str :=
  fold_left (exactEntry types) (lookup index normalized) ([], []).

(** <<for (const word of queryWords) if (word.length > 2) ...>> *)
Definition partialTier (index : JsMap.t (list SearchIndexEntry)) (types : list LocationType)
           (minScore : Q) (normalized : str) (st : list SearchResult * list str)
  : list SearchResult * list str :=
  fold_left (fun st word =>
               if (2 <? length word)%nat
               then fold_left (partialEntry types minScore normalized) (lookup index word) st
               else st)
            (splitSpace normalized) st.

Definition fuzzyTier (index : JsMap.t (list SearchIndexEntry)) (types : list LocationType)
           (minScore : Q) (normalized : str) (st : list SearchResult * list str)
  : list SearchResult * list str :=
  fold_left (fuzzyEntry types minScore normalized)
            (lookup index (getPhoneticKey normalized)) st.

Definition defaultTypes : list LocationType :=
  [region; district; council; chiefdom; section; town].

Definition limitOf (options : SearchOptions) : Z :=
  match o_limit options with Some l => l | None => 20%Z end.
Definition minScoreOf (options : SearchOptions) : Q :=
  match o_minScore options with Some m => m | None => q03 end.
Definition typesOf (options : SearchOptions) : list LocationType :=
  match o_types options with Some t => t | None => defaultTypes end.
Definition fuzzyOf (options : SearchOptions) : bool :=
  match o_fuzzy options with Some f => f | None => true end.

(** <<if (results.length < limit)>> *)
Definition needsPartial (limit : Z) (results : list SearchResult) : bool :=
  (Z.of_nat (length results) <? limit)%Z.

(** <<if (fuzzy && results.length < limit / 2)>> *)
Definition needsFuzzy (fuzzy : bool) (limit : Z) (results : list SearchResult) : bool :=
  fuzzy && Qltb (natQ (length results)) (inject_Z limit / 2).

(** The state [(results, seen)] after the exact tier and, when it runs, the
    partial tier. *)
Definition afterPartial (index : JsMap.t (list SearchIndexEntry)) (options : SearchOptions)
           (normalized : str) : list SearchResult * list str :=
  let st0 := exactTier index (typesOf options) normalized in
  if needsPartial (limitOf options) (fst st0)
  then partialTier index (typesOf options) (minScoreOf options) normalized st0
  else st0.

(** The results collected by the three tiers, before sorting. *)
Definition collected (index : JsMap.t (list SearchIndexEntry)) (options : SearchOptions)
           (normalized : str) : list SearchResult :=
  let st1 := afterPartial index options normalized in
  let st2 := if needsFuzzy (fuzzyOf options) (limitOf options) (fst st1)
             then fuzzyTier index (typesOf options) (minScoreOf options) normalized st1
             else st1 in
  fst st2.

(** What [search] returns for a non-empty sanitized query:
    <<results.sort((a, b) => b.score - a.score).slice(0, limit)>> *)
Definition searchAnswer (index : JsMap.t (list SearchIndexEntry)) (options : SearchOptions)
           (sanitized : str) : list SearchResult :=
  slice0 (limitOf options) (sortDesc r_score (collected index options (normalize sanitized))).

Definition search (query : str) (options : SearchOptions) (clientId : str)
  : M (list SearchResult) :=
  allowed <- rateLimitCheck clientId 30 60000 ;;
  if negb allowed then throw RateLimitExceeded
  else
    sanitized <- SecurityValidator.sanitizeSearchQuery query ;;
    if negb (nonEmpty sanitized) then ret []
    else
      index <- gets (fun w => ss_searchIndex (searchService w)) ;;
      ret (searchAnswer index options sanitized).

(** *** getSuggestions *)

(** <<!type || entry.type === type>> *)
Definition typeMatches (type : option str) (entry : SearchIndexEntry) : bool :=
  negb (given type) || eqs (typeName (e_type entry)) (orEmpty type).

(** The loop over [this.searchIndex.entries()]:
<<
  if (key.startsWith(normalized))
    entries.forEach(entry => { if (!type || entry.type === type) suggestions.add(entry.name); });
  if (suggestions.size >= limit) break;
>> *)
Fixpoint suggestionsLoop (normalized : str) (type : option str) (limit : Z)
         (pairs : list (str * list SearchIndexEntry)) (suggestions : list str) : list str :=
  match pairs with
  | [] => suggestions
  | (key, entries) :: rest =>
      let suggestions' :=
        if startsWith key normalized
        then fold_left (fun set entry =>
                          if typeMatches type entry then setAdd set (e_name entry) else set)
                       entries suggestions
        else suggestions in
      if (limit <=? Z.of_nat (length suggestions'))%Z then suggestions'
      else suggestionsLoop normalized type limit rest suggestions'
  end.

(** [getSuggestions(partial, type, limit)]:
<<
  const sanitized = SecurityValidator.sanitizeSearchQuery(partial);
  if (!sanitized || sanitized.length < 1) return [];
  ...
  return Array.from(suggestions).slice(0, limit).sort();
>> *)
Definition getSuggestions (partial : str) (type : option str) (limit : Z) : M (list str) :=
  sanitized <- SecurityValidator.sanitizeSearchQuery partial ;;
  if negb (nonEmpty sanitized) || (length sanitized <? 1)%nat then ret []
  else
    index <- gets (fun w => ss_searchIndex (searchService w)) ;;
    ret (sortStrings
           (slice0 limit
              (suggestionsLoop (normalize sanitized) type limit (JsMap.entries index) []))).

(** [clearRateLimit()]: <<this.rateLimit.clear()>> *)
Definition clearRateLimit : M unit :=
  modify (fun w => setSearchService
                     (mkSearchService (ss_searchIndex (searchService w)) JsMap.empty) w).

End SearchService.

(** ** [generateCode] *)

(** [s.replace(/[^A-Z0-9]/g, '')] *)
Definition keepUpperAlnum (s : str) : str := filter (fun c => isUpper c || isDigit c) s.

(** The hierarchy of [src/types/index.ts]. *)
Record Town := mkTown {
  t_name : str; t_code : str;
  t_chiefdom : str; t_chiefdomCode : str;
  t_district : str; t_districtCode : str;
  t_province : str; t_provinceCode : str;
  t_section : str; t_council : str
}.

Record Chiefdom := mkChiefdom {
  c_name : str; c_code : str;
  c_district : str; c_districtCode : str;
  c_province : str; c_provinceCode : str;
  c_towns : list Town
}.

Record District := mkDistrict {
  d_name : str; d_code : str;
  d_province : str; d_provinceCode : str;
  d_chiefdoms : list Chiefdom
}.

Record Province := mkProvince {
  pv_name : str; pv_code : str;
  pv_districts : list District
}.

(** [`${n}`] for an integer [n]. *)
Definition numStr (n : Z) : str := lit (DecimalString.NilZero.string_of_int (Z.to_int n)).

(** The outcome of a function that may throw an [Error] with a message. *)
Inductive Thrown (A : Type) :=
| Returned (a : A)
| Raised (message : str).
Arguments Returned {A} a.
Arguments Raised {A} message.

(** <<{ isValid: boolean; errors: string[] }>> *)
Record ValidationReport := mkReport { isValid : bool; errors : list str }.

Definition isQuote (c : ascii) : bool := eqc c quote.
Definition isComma (c : ascii) : bool := eqc c comma.

Module Processor.

(** [src/data/processor.ts]:
<<
  const normalized = normalize(name).toUpperCase().replace(/[^A-Z0-9]/g, '');
  return `SL-${type}-${normalized}`.substring(0, 50);
>> *)
Definition generateCode (type name : str) : str :=
  let normalized := keepUpperAlnum (toUpperCase (normalize name)) in
  substring0 50 (lit "SL-" ++ type ++ lit "-" ++ normalized).

(** [buildHierarchy] keeps every province, district and chiefdom object in a
    map and, the same object, in the array of its parent; a later [push]
    into the object shows at both places.  The embedding keeps the objects
    in the three maps and lets a parent hold the map keys of its children,
    in the order of the pushes. *)
Record ProvinceObject := mkProvinceObject {
  po_name : str; po_code : str;
  po_districts : list str
}.

Record DistrictObject := mkDistrictObject {
  do_name : str; do_code : str;
  do_province : str; do_provinceCode : str;
  do_chiefdoms : list str
}.

Record Builder := mkBuilder {
  provinceMap : JsMap.t ProvinceObject;
  districtMap : JsMap.t DistrictObject;
  chiefdomMap : JsMap.t Chiefdom
}.

(** The body of <<for (const record of records)>>. *)
Definition addRecord (b : Builder) (record : LocationRecord) : Builder :=
  (* Create/get province *)
  let freshProvince :=
    mkProvinceObject (idregion record) (generateCode (lit "PROVINCE") (idregion record)) [] in
  let pm1 := if JsMap.has (provinceMap b) (idregion record) then provinceMap b
             else JsMap.set (provinceMap b) (idregion record) freshProvince in
  let province := match JsMap.get pm1 (idregion record) with
                  | Some p => p | None => freshProvince end in
  (* Create/get district *)
  let districtKey := idregion record ++ lit "-" ++ iddistrict record in
  let freshDistrict :=
    mkDistrictObject (iddistrict record) (generateCode (lit "DISTRICT") (iddistrict record))
                     (idregion record) (po_code province) [] in
  let newDistrict := negb (JsMap.has (districtMap b) districtKey) in
  let dm1 := if newDistrict then JsMap.set (districtMap b) districtKey freshDistrict
             else districtMap b in
  let pm2 := if newDistrict
             then JsMap.set pm1 (idregion record)
                    (mkProvinceObject (po_name province) (po_code province)
                                      (po_districts province ++ [districtKey]))
             else pm1 in
  let district := match JsMap.get dm1 districtKey with
                  | Some d => d | None => freshDistrict end in
  (* Create/get chiefdom *)
  let chiefdomKey := districtKey ++ lit "-" ++ idchiefdom record in
  let freshChiefdom :=
    mkChiefdom (idchiefdom record) (generateCode (lit "CHIEFDOM") (idchiefdom record))
               (iddistrict record) (do_code district)
               (idregion record) (po_code province) [] in
  let newChiefdom := negb (JsMap.has (chiefdomMap b) chiefdomKey) in
  let cm1 := if newChiefdom then JsMap.set (chiefdomMap b) chiefdomKey freshChiefdom
             else chiefdomMap b in
  let dm2 := if newChiefdom
             then JsMap.set dm1 districtKey
                    (mkDistrictObject (do_name district) (do_code district)
                                      (do_province district) (do_provinceCode district)
                                      (do_chiefdoms district ++ [chiefdomKey]))
             else dm1 in
  let chiefdom := match JsMap.get cm1 chiefdomKey with
                  | Some c => c | None => freshChiefdom end in
  (* Create town *)
  let town :=
    mkTown (idtown record) (generateCode (lit "TOWN") (idtown record))
           (idchiefdom record) (c_code chiefdom)
           (iddistrict record) (do_code district)
           (idregion record) (po_code province)
           (idsection record) (idcouncil record) in
  let cm2 := JsMap.set cm1 chiefdomKey
               (mkChiefdom (c_name chiefdom) (c_code chiefdom)
                           (c_district chiefdom) (c_districtCode chiefdom)
                           (c_province chiefdom) (c_provinceCode chiefdom)
                           (c_towns chiefdom ++ [town])) in
  mkBuilder pm2 dm2 cm2.

(** Follow the references held by the parents. *)
Definition derefs {V} (m : JsMap.t V) (keys : list str) : list V :=
  flat_map (fun k => match JsMap.get m k with Some v => [v] | None => [] end) keys.

Definition districtOf (b : Builder) (d : DistrictObject) : District :=
  mkDistrict (do_name d) (do_code d) (do_province d) (do_provinceCode d)
             (derefs (chiefdomMap b) (do_chiefdoms d)).

Definition provinceOf (b : Builder) (p : ProvinceObject) : Province :=
  mkProvince (po_name p) (po_code p)
             (map (districtOf b) (derefs (districtMap b) (po_districts p))).

(** [buildHierarchy(records)]: [Array.from(provinceMap.values())]. *)
Definition buildHierarchy (records : list LocationRecord) : list Province :=
  let b := fold_left addRecord records (mkBuilder JsMap.empty JsMap.empty JsMap.empty) in
  map (provinceOf b) (JsMap.values (provinceMap b)).

(** The local function [addToIndex(item, type, record)] of
    [createSearchIndex]; [name] is [item.name]. *)
Definition addToIndex (index : JsMap.t (list SearchIndexEntry)) (name : str)
           (type : LocationType) (record : LocationRecord)
  : JsMap.t (list SearchIndexEntry) :=
  let normalized := normalize name in
  let existing := SearchService.lookup index normalized in
  let index1 := JsMap.set index normalized
                  (existing ++ [mkEntry name type normalized record false]) in
  let words := splitSpace normalized in
  if (1 <? length words)%nat
  then fold_left (fun ix word =>
                    if (2 <? length word)%nat
                    then JsMap.set ix word
                           (SearchService.lookup ix word
                              ++ [mkEntry name type normalized record true])
                    else ix)
                 words index1
  else index1.

Definition indexTown (provinceName districtName chiefdomName : str)
           (index : JsMap.t (list SearchIndexEntry)) (t : Town)
  : JsMap.t (list SearchIndexEntry) :=
  addToIndex index (t_name t) town
             (mkRecord provinceName districtName (t_council t) chiefdomName
                       (t_section t) (t_name t)).

Definition indexChiefdom (provinceName districtName : str)
           (index : JsMap.t (list SearchIndexEntry)) (c : Chiefdom)
  : JsMap.t (list SearchIndexEntry) :=
  let index1 := addToIndex index (c_name c) chiefdom
                           (mkRecord provinceName districtName [] (c_name c) [] []) in
  fold_left (indexTown provinceName districtName (c_name c)) (c_towns c) index1.

Definition indexDistrict (provinceName : str)
           (index : JsMap.t (list SearchIndexEntry)) (d : District)
  : JsMap.t (list SearchIndexEntry) :=
  let index1 := addToIndex index (d_name d) district
                           (mkRecord provinceName (d_name d) [] [] [] []) in
  fold_left (indexChiefdom provinceName (d_name d)) (d_chiefdoms d) index1.

Definition indexProvince (index : JsMap.t (list SearchIndexEntry)) (p : Province)
  : JsMap.t (list SearchIndexEntry) :=
  let index1 := addToIndex index (pv_name p) province
                           (mkRecord (pv_name p) [] [] [] [] []) in
  fold_left (indexDistrict (pv_name p)) (pv_districts p) index1.

(** [createSearchIndex(data)]. *)
Definition createSearchIndex (data : list Province) : JsMap.t (list SearchIndexEntry) :=
  fold_left indexProvince data JsMap.empty.

(** <<
  if (!input || typeof input !== 'string') return '';
  return input.replace(/[<>]/g, '').replace(/javascript:/gi, '')
              .replace(/on\w+=/gi, '').trim();
>> *)
Definition sanitizeLocationName (input : str) : str :=
  match input with
  | [] => []
  | _ =>
      trim (removeMatches (rseq [rlit "on"; rplus isWord; rlit "="]) None 0
              (removeMatches (rlit "javascript:") None 0
                 (filter (fun c => negb (SecurityValidator.isLt c || SecurityValidator.isGt c))
                         input)))
  end.

(** The loop of [parseCsvLine] from the character [line[i]] on, with the
    variables [result], [current] and [inQuotes]; after the loop the last
    field is added. *)
Fixpoint parseCsvFrom (line : str) (result : list str) (current : str) (inQuotes : bool)
  : list str :=
  match line with
  | [] => result ++ [trim current]
  | char :: rest =>
      if isQuote char then parseCsvFrom rest result current (negb inQuotes)
      else if isComma char && negb inQuotes
           then parseCsvFrom rest (result ++ [trim current]) [] inQuotes
           else parseCsvFrom rest result (current ++ [char]) inQuotes
  end.

Definition parseCsvLine (line : str) : list str := parseCsvFrom line [] [] false.

(** <<
  if (fields.length !== 6) {
    while (fields.length < 6) fields.push('');
    if (fields.length > 6) fields.splice(6);
  }
>> *)
Definition sixFields (fields : list str) : list str :=
  if (length fields =? 6)%nat then fields
  else
    let padded := fields ++ repeat [] (6 - length fields) in
    if (6 <? length padded)%nat then firstn 6 padded else padded.

(** The body of [dataLines.map(line => ...)]. *)
Definition recordOfLine (line : str) : LocationRecord :=
  let fields := sixFields (parseCsvLine line) in
  mkRecord (sanitizeLocationName (nth 0 fields []))
           (sanitizeLocationName (nth 1 fields []))
           (sanitizeLocationName (nth 2 fields []))
           (sanitizeLocationName (nth 3 fields []))
           (sanitizeLocationName (nth 4 fields []))
           (sanitizeLocationName (nth 5 fields [])).

(** <<dataLines.map(...).filter(record => record.idregion && record.idtown)>> *)
Definition parseRecords (dataLines : list str) : list LocationRecord :=
  filter (fun record => SearchService.nonEmpty (idregion record)
                        && SearchService.nonEmpty (idtown record))
         (map recordOfLine dataLines).

(** [processCsvToHierarchy(csvData)]:
<<
  const lines = csvData.trim().split(LF);
  const [header, ...dataLines] = lines;
  if (!header || !header.includes('idregion'))
    throw new Error('Invalid CSV format: missing required headers');
  ...
  return buildHierarchy(records);
>> *)
Definition processCsvToHierarchy (csvData : str) : Thrown (list Province) :=
  let lines := splitOn LF (trim csvData) in
  let header := hd [] lines in
  if negb (SearchService.nonEmpty header) || negb (includes header (lit "idregion"))
  then Raised (lit "Invalid CSV format: missing required headers")
  else Returned (buildHierarchy (parseRecords (tl lines))).

Definition expectedHeaders : list str :=
  [lit "idregion"; lit "iddistrict"; lit "idcouncil"; lit "idchiefdom"; lit "idsection";
   lit "idtown"].

(** The checks of [validateCsvData] on the row [lines[i]]:
<<
  if (fields.length < 4 || fields.length > 8)
    errors.push(`Row ${i + 1}: Expected 4-8 columns, got ${fields.length}`);
  if (!fields[0]?.trim() || !fields[5]?.trim())
    errors.push(`Row ${i + 1}: Missing region or town name`);
>> *)
Definition rowErrors (i : nat) (line : str) : list str :=
  let fields := parseCsvLine line in
  (if (length fields <? 4)%nat || (8 <? length fields)%nat
   then [lit "Row " ++ numStr (Z.of_nat (i + 1)) ++ lit ": Expected 4-8 columns, got "
           ++ numStr (Z.of_nat (length fields))]
   else [])
  ++
  (if negb (SearchService.nonEmpty (trim (nth 0 fields [])))
      || negb (SearchService.nonEmpty (trim (nth 5 fields [])))
   then [lit "Row " ++ numStr (Z.of_nat (i + 1)) ++ lit ": Missing region or town name"]
   else []).

(** [validateCsvData(csvData)]: the rows [1 .. min(lines.length, 100) - 1]
    are checked. *)
Definition validateCsvData (csvData : str) : ValidationReport :=
  if negb (SearchService.nonEmpty csvData) || (length (trim csvData) =? 0)%nat
  then mkReport false [lit "CSV data is empty"]
  else
    let lines := splitOn LF (trim csvData) in
    if (length lines <? 2)%nat
    then mkReport false [lit "CSV must have at least header and one data row"]
    else
      let header := nth 0 lines [] in
      let headerErrors :=
        flat_map (fun expectedHeader =>
                    if includes header expectedHeader then []
                    else [lit "Missing required header: " ++ expectedHeader])
                 expectedHeaders in
      let rows := seq 1 (Nat.min (length lines) 100 - 1) in
      let errors := headerErrors ++ flat_map (fun i => rowErrors i (nth i lines [])) rows in
      mkReport (length errors =? 0)%nat errors.

End Processor.

Module DataProcessor.

(** [scripts/process-data.js]:
<<
  const normalized = name.toUpperCase().replace(/[^A-Z0-9]/g, '').substring(0, 20);
  return `SL-${type}-${normalized}`;
>> *)
Definition generateCode (type name : str) : str :=
  let normalized := substring0 20 (keepUpperAlnum (toUpperCase name)) in
  lit "SL-" ++ type ++ lit "-" ++ normalized.

End DataProcessor.

(** ** [LocationService] of [src/core/LocationService.ts] *)

Module LocationService.

Definition this : M LocationServiceState := gets locationService.

Definition setCache (c : JsMap.t CacheValue) (t : JsMap.t Z) : M unit :=
  modify (fun w =>
            let ls := locationService w in
            setLocationService
              (mkLocationService (ls_rawData ls) c (ls_searchIndex ls) (ls_maxCacheSize ls) t) w).

(** The scan of [manageCacheSize]: starting from [('', Date.now())], an
    entry takes over when its time is strictly smaller. *)
Definition oldest (now : Z) (accessTimes : JsMap.t Z) : str * Z :=
  fold_left (fun acc kt =>
               let (key, time) := (kt : str * Z) in
               if (time <? snd acc)%Z then (key, time) else acc)
            (JsMap.entries accessTimes) ([], now).

(** <<
  if (this.cache.size >= this.maxCacheSize) {
    let oldestKey = ''; let oldestTime = Date.now();
    for (const [key, time] of this.cacheAccessTimes.entries())
      if (time < oldestTime) { oldestTime = time; oldestKey = key; }
    if (oldestKey) { this.cache.delete(oldestKey); this.cacheAccessTimes.delete(oldestKey); }
  }
>> *)
Definition manageCacheSize : M unit :=
  ls <- this ;;
  if (ls_maxCacheSize ls <=? JsMap.size (ls_cache ls))%nat
  then
    now <- dateNow ;;
    let oldestKey := fst (oldest now (ls_cacheAccessTimes ls)) in
    if SearchService.nonEmpty oldestKey
    then setCache (JsMap.delete (ls_cache ls) oldestKey)
                  (JsMap.delete (ls_cacheAccessTimes ls) oldestKey)
    else ret tt
  else ret tt.

(** <<
  if (this.cache.has(key)) {
    this.cacheAccessTimes.set(key, Date.now());
    return this.cache.get(key);
  }
  return undefined;
>> *)
Definition getFromCache (key : str) : M JsValue :=
  ls <- this ;;
  if JsMap.has (ls_cache ls) key
  then
    now <- dateNow ;;
    setCache (ls_cache ls) (JsMap.set (ls_cacheAccessTimes ls) key now) ;;
    ret (JsMap.get (ls_cache ls) key)
  else ret None.

(** <<
  this.manageCacheSize();
  this.cache.set(key, value);
  this.cacheAccessTimes.set(key, Date.now());
>> *)
Definition setToCache (key : str) (value : CacheValue) : M unit :=
  manageCacheSize ;;
  ls <- this ;;
  now <- dateNow ;;
  setCache (JsMap.set (ls_cache ls) key value) (JsMap.set (ls_cacheAccessTimes ls) key now).

Definition toPlace (entry : SearchIndexEntry) : PlaceDetails :=
  mkPlace (e_name entry) (e_type entry)
          (lit "SL-" ++ toUpperCase (typeName (e_type entry)) ++ lit "-" ++ normalize (e_name entry))
          (idregion (e_record entry)) (iddistrict (e_record entry)) (idchiefdom (e_record entry)).

(** <<
  for (const word of queryWords) {
    searchResults.push(...(index.get(word) || []).filter(r => r.partialMatch));
    if (searchResults.length >= limit) break;
  }
>> *)
Fixpoint partialLoop (index : JsMap.t (list SearchIndexEntry)) (limit : Z)
         (queryWords : list str) (searchResults : list SearchIndexEntry)
  : list SearchIndexEntry :=
  match queryWords with
  | [] => searchResults
  | word :: rest =>
      let searchResults' :=
        searchResults ++ filter e_partialMatch (SearchService.lookup index word) in
      if (limit <=? Z.of_nat (length searchResults'))%Z then searchResults'
      else partialLoop index limit rest searchResults'
  end.

(** [Array.from(new Map(results.map(r => [r.code, r])).values())] *)
Definition uniqueByCode (results : list PlaceDetails) : list PlaceDetails :=
  JsMap.values (fold_left (fun m r => JsMap.set m (p_code r) r) results JsMap.empty).

(** The part of [search] after the cache lookup has missed. *)
Definition searchMiss (normalized : str) (limit : Z) : M (list PlaceDetails) :=
  ls <- this ;;
  let index := ls_searchIndex ls in
  let queryWords := filter (fun word => (1 <? length word)%nat) (splitSpace normalized) in
  let indexResults := SearchService.lookup index normalized in
  let searchResults0 := slice0 limit indexResults in
  let searchResults :=
    if (Z.of_nat (length searchResults0) <? limit)%Z
    then partialLoop index limit queryWords searchResults0
    else searchResults0 in
  ret (slice0 limit (uniqueByCode (map toPlace searchResults))).

(** [search(query, limit)].  A truthy cached value is returned as it is. *)
Definition search (query : str) (limit : Z) : M CacheValue :=
  if negb (SearchService.nonEmpty query) || (length (trim query) <? 2)%nat
  then ret (VPlaces [])
  else
    sanitized <- SecurityValidator.sanitize query ;;
    let normalized := normalize sanitized in
    let cacheKey := lit "search-" ++ normalized ++ lit "-" ++ numStr limit in
    cached <- getFromCache cacheKey ;;
    match cached with
    | Some v => if truthy cached then ret v
                else (uniqueResults <- searchMiss normalized limit ;;
                      setToCache cacheKey (VPlaces uniqueResults) ;;
                      ret (VPlaces uniqueResults))
    | None => uniqueResults <- searchMiss normalized limit ;;
              setToCache cacheKey (VPlaces uniqueResults) ;;
              ret (VPlaces uniqueResults)
    end.





(** *** The CSV reader of the class: the private copies of
    [sanitizeLocationName] and [parseCsvLine], and [extractRawRecords] *)

Definition sanitizeLocationName (input : str) : str :=
  match input with
  | [] => []
  | _ =>
      trim (removeMatches (rseq [rlit "on"; rplus isWord; rlit "="]) None 0
              (removeMatches (rlit "javascript:") None 0
                 (filter (fun c => negb (SecurityValidator.isLt c || SecurityValidator.isGt c))
                         input)))
  end.

Fixpoint parseCsvFrom (line : str) (result : list str) (current : str) (inQuotes : bool)
  : list str :=
  match line with
  | [] => result ++ [trim current]
  | char :: rest =>
      if isQuote char then parseCsvFrom rest result current (negb inQuotes)
      else if isComma char && negb inQuotes
           then parseCsvFrom rest (result ++ [trim current]) [] inQuotes
           else parseCsvFrom rest result (current ++ [char]) inQuotes
  end.

Definition parseCsvLine (line : str) : list str := parseCsvFrom line [] [] false.

Definition recordOfLine (line : str) : LocationRecord :=
  let fields := Processor.sixFields (parseCsvLine line) in
  mkRecord (sanitizeLocationName (nth 0 fields []))
           (sanitizeLocationName (nth 1 fields []))
           (sanitizeLocationName (nth 2 fields []))
           (sanitizeLocationName (nth 3 fields []))
           (sanitizeLocationName (nth 4 fields []))
           (sanitizeLocationName (nth 5 fields [])).

(** [extractRawRecords(csvData)]: the value it gives to [this.rawData].
<<
  const lines = csvData.trim().split(LF);
  const [, ...dataLines] = lines;
  this.rawData = dataLines.map(...).filter(record => record.idregion && record.idtown);
>> *)
Definition extractRawRecords (csvData : str) : list LocationRecord :=
  filter (fun record => SearchService.nonEmpty (idregion record)
                        && SearchService.nonEmpty (idtown record))
         (map recordOfLine (tl (splitOn LF (trim csvData)))).

(** *** The cached listings *)

(** The shape shared by the listings:
<<
  const cached = this.getFromCache(cacheKey);
  if (cached) return cached;
  const value = ...;          // computed from this.rawData
  this.setToCache(cacheKey, value);
  return value;
>> *)
Definition throughCache (cacheKey : str) (value : CacheValue) : M CacheValue :=
  cached <- getFromCache cacheKey ;;
  match cached with
  | Some v => if truthy cached then ret v
              else (setToCache cacheKey value ;; ret value)
  | None => setToCache cacheKey value ;; ret value
  end.

(** [Array.from(new Set(names)).filter(name => name.trim().length > 0).sort()] *)
Definition distinctNames (names : list str) : list str :=
  sortStrings (filter (fun name => (0 <? length (trim name))%nat) (distinct names)).

(** [this.rawData.filter(record => normalize(record.FIELD) === normalized)] *)
Definition recordsWhere (field : LocationRecord -> str) (normalized : str)
           (records : list LocationRecord) : list LocationRecord :=
  filter (fun record => eqs (normalize (field record)) normalized) records.

Definition getProvinces : M CacheValue :=
  ls <- this ;;
  throughCache (lit "provinces") (VStrings (distinctNames (map idregion (ls_rawData ls)))).

(** [getDistricts(provinceName?)]. *)
Definition getDistricts (provinceName : option str) : M CacheValue :=
  ls <- this ;;
  if negb (given provinceName)
  then throughCache (lit "all-districts")
                    (VStrings (distinctNames (map iddistrict (ls_rawData ls))))
  else
    sanitized <- SecurityValidator.sanitize (orEmpty provinceName) ;;
    let normalized := normalize sanitized in
    throughCache (lit "districts-" ++ normalized)
      (VStrings (distinctNames
                   (map iddistrict (recordsWhere idregion normalized (ls_rawData ls))))).

Definition getCouncils (districtName : str) : M CacheValue :=
  ls <- this ;;
  sanitized <- SecurityValidator.sanitize districtName ;;
  let normalized := normalize sanitized in
  throughCache (lit "councils-" ++ normalized)
    (VStrings (distinctNames
                 (map idcouncil (recordsWhere iddistrict normalized (ls_rawData ls))))).

Definition getChiefdoms (districtName : str) : M CacheValue :=
  ls <- this ;;
  sanitized <- SecurityValidator.sanitize districtName ;;
  let normalized := normalize sanitized in
  throughCache (lit "chiefdoms-" ++ normalized)
    (VStrings (distinctNames
                 (map idchiefdom (recordsWhere iddistrict normalized (ls_rawData ls))))).

Definition getSections (chiefdomName : str) : M CacheValue :=
  ls <- this ;;
  sanitized <- SecurityValidator.sanitize chiefdomName ;;
  let normalized := normalize sanitized in
  throughCache (lit "sections-" ++ normalized)
    (VStrings (distinctNames
                 (map idsection (recordsWhere idchiefdom normalized (ls_rawData ls))))).

(** [getTowns(chiefdomName?, sectionName?)]:
<<
  let cacheKey = 'all-towns';
  let filtered = this.rawData;
  if (chiefdomName) {
    ... cacheKey = `towns-chiefdom-${normalizedChiefdom}`; filtered = filtered.filter(...);
    if (sectionName) {
      ... cacheKey += `-section-${normalizedSection}`; filtered = filtered.filter(...);
    }
  }
>> *)
Definition getTowns (chiefdomName sectionName : option str) : M CacheValue :=
  ls <- this ;;
  if negb (given chiefdomName)
  then throughCache (lit "all-towns") (VStrings (distinctNames (map idtown (ls_rawData ls))))
  else
    sanitizedChiefdom <- SecurityValidator.sanitize (orEmpty chiefdomName) ;;
    let normalizedChiefdom := normalize sanitizedChiefdom in
    let cacheKey := lit "towns-chiefdom-" ++ normalizedChiefdom in
    let filtered := recordsWhere idchiefdom normalizedChiefdom (ls_rawData ls) in
    if negb (given sectionName)
    then throughCache cacheKey (VStrings (distinctNames (map idtown filtered)))
    else
      sanitizedSection <- SecurityValidator.sanitize (orEmpty sectionName) ;;
      let normalizedSection := normalize sanitizedSection in
      throughCache (cacheKey ++ lit "-section-" ++ normalizedSection)
        (VStrings (distinctNames
                     (map idtown (recordsWhere idsection normalizedSection filtered)))).

(** [getLocationHierarchy(townName)]: the first record of the town, or
    [null]; <<this.setToCache(cacheKey, record || null)>>. *)
Definition getLocationHierarchy (townName : str) : M CacheValue :=
  ls <- this ;;
  sanitized <- SecurityValidator.sanitize townName ;;
  let normalized := normalize sanitized in
  throughCache (lit "hierarchy-" ++ normalized)
    (match find (fun r => eqs (normalize (idtown r)) normalized) (ls_rawData ls) with
     | Some record => VRecord record
     | None => VNull
     end).

(** [clearCache()]. *)
Definition clearCache : M unit := setCache JsMap.empty JsMap.empty.

(** *** getLocationsByQuery *)

(** A [LocationQuery] as the object it is: its own properties with their
    string values, in insertion order. *)
Definition LocationQuery := JsMap.t str.

Definition hexDigit (n : nat) : ascii := nth n (lit "0123456789abcdef") "0"%char.

(** [JSON.stringify] of a string: the quoted string with the double quote,
    the backslash and the control characters escaped. *)
Definition jsonChar (c : ascii) : str :=
  if (code c =? 34)%nat then ["\"%char; quote]
  else if (code c =? 92)%nat then lit "\\"
  else if (code c =? 8)%nat then lit "\b"
  else if (code c =? 9)%nat then lit "\t"
  else if (code c =? 10)%nat then lit "\n"
  else if (code c =? 12)%nat then lit "\f"
  else if (code c =? 13)%nat then lit "\r"
  else if (code c <? 32)%nat
       then lit "\u00" ++ [hexDigit (code c / 16); hexDigit (code c mod 16)]
       else [c].

Definition jsonString (s : str) : str := quote :: flat_map jsonChar s ++ [quote].

(** [JSON.stringify(query)]. *)
Definition jsonObject (query : LocationQuery) : str :=
  lit "{" ++ joinWith (lit ",")
                      (map (fun kv => jsonString (fst kv) ++ lit ":" ++ jsonString (snd kv))
                           (JsMap.entries query))
          ++ lit "}".

(** One of the three filters:
<<
  if (query.FIELD) {
    const normalized = normalize(SecurityValidator.sanitize(query.FIELD));
    results = results.filter(r => normalize(r.COLUMN) === normalized);
  }
>> *)
Definition filterBy (query : LocationQuery) (property : str)
           (column : LocationRecord -> str) (results : list LocationRecord)
  : M (list LocationRecord) :=
  if given (JsMap.get query property)
  then
    sanitized <- SecurityValidator.sanitize (orEmpty (JsMap.get query property)) ;;
    ret (recordsWhere column (normalize sanitized) results)
  else ret results.

(** The part of [getLocationsByQuery] after the cache lookup has missed. *)
Definition queryMiss (query : LocationQuery) (cacheKey : str) : M CacheValue :=
  ls <- this ;;
  results1 <- filterBy query (lit "province") idregion (ls_rawData ls) ;;
  results2 <- filterBy query (lit "district") iddistrict results1 ;;
  results3 <- filterBy query (lit "chiefdom") idchiefdom results2 ;;
  setToCache cacheKey (VRecords results3) ;;
  ret (VRecords results3).

(** [getLocationsByQuery(query)]; the cache key is
    <<`query-${JSON.stringify(query)}`>>. *)
Definition getLocationsByQuery (query : LocationQuery) : M CacheValue :=
  let cacheKey := lit "query-" ++ jsonObject query in
  cached <- getFromCache cacheKey ;;
  match cached with
  | Some v => if truthy cached then ret v else queryMiss query cacheKey
  | None => queryMiss query cacheKey
  end.

End LocationService.

(** ** [ExportService] of [src/core/ExportService.ts] *)

Module ExportService.

(** The data that [exportCSV] is given: raw records (the elements have the
    property [idregion]) or the hierarchy. *)
Inductive ExportData :=
| RecordData (records : list LocationRecord)
| ProvinceData (provinces : list Province).

(** <<
  const escaped = cell.replace(/QUOT/g, QUOT QUOT);
  return /[QUOT,LF]/.test(escaped) ? QUOT + escaped + QUOT : escaped;
>>  where QUOT is the double quote and LF the line feed. *)
Definition escapeCell (cell : str) : str :=
  let escaped := SecurityValidator.replaceChar quote [quote; quote] cell in
  if existsb (fun c => isQuote c || isComma c || eqc c LF) escaped
  then quote :: escaped ++ [quote]
  else escaped.

(** <<rows.map(row => row.map(cell => ...).join(',')).join(LF)>> *)
Definition csvOfRows (rows : list (list str)) : str :=
  joinWith [LF] (map (fun row => joinWith [comma] (map escapeCell row)) rows).

Definition recordHeader : list str :=
  [lit "Region ID"; lit "District ID"; lit "Council ID"; lit "Chiefdom ID";
   lit "Section ID"; lit "Town ID"].

Definition recordRow (item : LocationRecord) : list str :=
  [idregion item; iddistrict item; idcouncil item; idchiefdom item; idsection item;
   idtown item].

Definition hierarchyHeader : list str :=
  [lit "Name"; lit "Type"; lit "Code"; lit "Province"; lit "District"; lit "Chiefdom";
   lit "Population"].

(** [a || b] on strings. *)
Definition orElse (a b : str) : str := if SearchService.nonEmpty a then a else b.

(** [processItem(item, parentInfo)] for the four kinds of item; a property
    that [parentInfo] lacks is the empty string. *)
Definition townRows (province district chiefdom : str) (item : Town) : list (list str) :=
  [[t_name item; lit "town"; t_code item;
    orElse province (t_province item); orElse district (t_district item);
    orElse chiefdom (t_chiefdom item); []]].

Definition chiefdomRows (province district : str) (item : Chiefdom) : list (list str) :=
  [c_name item; lit "chiefdom"; c_code item;
   orElse province (c_province item); orElse district (c_district item); []; []]
  :: flat_map (townRows (orElse province (c_province item))
                        (orElse district (c_district item)) (c_name item))
              (c_towns item).

Definition districtRows (province : str) (item : District) : list (list str) :=
  [d_name item; lit "district"; d_code item; orElse province (d_province item); []; []; []]
  :: flat_map (chiefdomRows (orElse province (d_province item)) (d_name item))
              (d_chiefdoms item).

Definition provinceRows (item : Province) : list (list str) :=
  [pv_name item; lit "province"; pv_code item; []; []; []; []]
  :: flat_map (districtRows (pv_name item)) (pv_districts item).

(** [exportCSV(data)]. *)
Definition exportCSV (data : ExportData) : str :=
  match data with
  | RecordData [] | ProvinceData [] => []
  | RecordData records => csvOfRows (recordHeader :: map recordRow records)
  | ProvinceData provinces => csvOfRows (hierarchyHeader :: flat_map provinceRows provinces)
  end.

End ExportService.

(** ** Notions used in the statements *)

(** The name part of a code as the specification words it: the name in upper
    case with every character outside [A-Z0-9] removed. *)
Definition upperAlnum (s : str) : str := keepUpperAlnum (toUpperCase s).

(** [SL-<TYPE>-<NORMALIZED-UPPERCASE-ALNUM>] truncated to 50 characters, as
    the specification words it. *)
Definition writtenCode (type name : str) : str :=
  substring0 50 (lit "SL-" ++ type ++ lit "-" ++ upperAlnum name).

(** Consecutive rate-limiter checks of one client, made at the times [ts]
    on one map: the answers in order, and the map afterwards. *)
Fixpoint checks (ts : list Z) (identifier : str) (requests : JsMap.t (list Z))
         (maxRequests windowMs : Z) : list bool * JsMap.t (list Z) :=
  match ts with
  | [] => ([], requests)
  | now :: ts' =>
      let (allowed, requests') :=
        SecurityValidator.checkRateLimit now identifier requests maxRequests windowMs in
      let (rest, requests'') := checks ts' identifier requests' maxRequests windowMs in
      (allowed :: rest, requests'')
  end.

(** The times [ts] lie within one window: no check comes [windowMs] or more
    after an earlier one. *)
Fixpoint withinWindow (windowMs : Z) (ts : list Z) : Prop :=
  match ts with
  | [] => True
  | t :: ts' => Forall (fun t' => (t' - t < windowMs)%Z) ts' /\ withinWindow windowMs ts'
  end.

(** The client has no window open at the times [ts]: it is unknown to the
    map, or every time recorded for it lies [windowMs] or more before each
    of [ts]. *)
Definition noOpenWindow (windowMs : Z) (ts : list Z) (identifier : str)
           (requests : JsMap.t (list Z)) : Prop :=
  match JsMap.get requests identifier with
  | None => True
  | Some recorded =>
      Forall (fun t => Forall (fun old => (windowMs <= t - old)%Z) recorded) ts
  end.

(** ** Sample data *)

(** The record of the scenario in the specification. *)
Definition sampleRecord : LocationRecord :=
  mkRecord (lit "NORTHERN") (lit "TONKOLILI") (lit "TONKOLILI DISTRICT")
           (lit "KHOLIFA MAMUNTHA/MAYOSSO") (lit "MAMUNTHA")
           (lit "MAGBASS (KHOLIFA MAMUNTHA/MAYOSSO)").

Definition sampleIndex : JsMap.t (list SearchIndexEntry) :=
  Eval vm_compute in SearchService.buildSearchIndex JsMap.empty [sampleRecord].

(** A freshly started program over the raw records [records]: hierarchy and
    both search indexes built, nothing cached, no client seen, every pattern
    at [lastIndex = 0]; [maxCacheSize] is the constant 1000 of the class. *)
Definition startWorld (clock : nat -> Z) (records : list LocationRecord) : World :=
  mkWorld clock 0
          (mkRegexState (map (fun _ => 0%nat) SecurityValidator.SQL_INJECTION_PATTERNS)
                        (map (fun _ => 0%nat) SecurityValidator.BLOCKED_PATTERNS))
          (mkLocationService records JsMap.empty
             (Processor.createSearchIndex (Processor.buildHierarchy records))
             1000 JsMap.empty)
          (mkSearchService (SearchService.buildSearchIndex JsMap.empty records) JsMap.empty).

(** A clock that advances by one millisecond at every reading. *)
Definition tickingClock (n : nat) : Z := Z.of_nat n.

(** [n] calls in a row. *)
Fixpoint times {A} (n : nat) (c : M A) : M unit :=
  match n with
  | O => ret tt
  | S n' => c ;; times n' c
  end.

(** The rate limiter admits the client at the next reading of the clock,
    for the maximum [maxRequests] and the window of 60 s that both entry
    points of [SearchService] use. *)
Definition admitted (clientId : str) (maxRequests : Z) (w : World) : Prop :=
  fst (SecurityValidator.checkRateLimit (clock w (ticks w)) clientId
         (ss_rateLimit (searchService w)) maxRequests 60000) = true.

(** The state in which the rest of [autocomplete] or [search] runs: the one
    the admission check leaves. *)
Definition afterRateLimit (clientId : str) (maxRequests : Z) (w : World) : World :=
  snd (SearchService.rateLimitCheck clientId maxRequests 60000 w).



(** A wall clock that runs for 1000 readings, one millisecond each, and has
    then been set back by ten seconds. *)
Definition setBackClock (n : nat) : Z :=
  if (n <? 1000)%nat then 1700000000000 + Z.of_nat n else 1700000000000 - 10000.

(** A wall clock whose readings all fall in one millisecond. *)
Definition sameMillisecond (n : nat) : Z := 1700000000000.

(** The cache key of [getDistricts] for the province name [x<i>]. *)
Definition districtsKey (i : nat) : str := lit "districts-x" ++ numStr (Z.of_nat i).

(** [setToCache] for the keys number [from], ..., [from + n - 1], each with
    the empty list of names. *)
Fixpoint fillCache (n from : nat) : M unit :=
  match n with
  | O => ret tt
  | S n' => LocationService.setToCache (districtsKey from) (VStrings []) ;;
            fillCache n' (S from)
  end.







(** Records of one chiefdom, with the section ['A']. *)
Definition townRecord (name : str) : LocationRecord :=
  mkRecord (lit "SOUTHERN") (lit "BO") (lit "BO DISTRICT") (lit "KAKUA") (lit "A") name.


(** *** The cache layer under a sequence of operations *)

(** The operations of the cache layer, and a run of them in order. *)
Inductive CacheOp :=
| OpGet (key : str)
| OpSet (key : str) (value : CacheValue).

Definition opKey (op : CacheOp) : str :=
  match op with OpGet k => k | OpSet k _ => k end.

Definition runOp (op : CacheOp) : M unit :=
  match op with
  | OpGet key => LocationService.getFromCache key ;; ret tt
  | OpSet key value => LocationService.setToCache key value
  end.

Fixpoint runOps (ops : list CacheOp) : M unit :=
  match ops with
  | [] => ret tt
  | op :: ops' => runOp op ;; runOps ops'
  end.

(** Every reading of the clock is later than the readings before it. *)
Definition advancing (clock : nat -> Z) : Prop :=
  forall i j, (i < j)%nat -> (clock i < clock j)%Z.

Definition cacheOf (w : World) := ls_cache (locationService w).
Definition timesOf (w : World) := ls_cacheAccessTimes (locationService w).

(** The state of the cache layer between two operations: no key twice, the
    cache and the access times have the same keys, no key is empty, every
    access time was read before the next reading of the clock, and the size
    is within the bound. *)
Definition cacheInv (w : World) : Prop :=
  NoDup (JsMap.keys (cacheOf w))
  /\ NoDup (JsMap.keys (timesOf w))
  /\ (forall k, In k (JsMap.keys (cacheOf w)) <-> In k (JsMap.keys (timesOf w)))
  /\ (forall k t, In (k, t) (timesOf w) -> k <> [] /\ (t < clock w (ticks w))%Z)
  /\ (JsMap.size (cacheOf w) <= ls_maxCacheSize (locationService w))%nat.

(** The world after an eviction scan at a full cache. *)
Definition evicted (w : World) : World :=
  let ls := locationService w in
  let victim := fst (LocationService.oldest (clock w (ticks w)) (ls_cacheAccessTimes ls)) in
  mkWorld (clock w) (S (ticks w)) (regexState w)
          (if SearchService.nonEmpty victim
           then mkLocationService (ls_rawData ls) (JsMap.delete (ls_cache ls) victim)
                                  (ls_searchIndex ls) (ls_maxCacheSize ls)
                                  (JsMap.delete (ls_cacheAccessTimes ls) victim)
           else ls)
          (searchService w).

(** The world after [manageCacheSize]. *)
Definition managed (w : World) : World :=
  if (ls_maxCacheSize (locationService w) <=? JsMap.size (cacheOf w))%nat
  then evicted w else w.

(** The world after the insert of [setToCache]. *)
Definition stored (key : str) (value : CacheValue) (w : World) : World :=
  let ls := locationService w in
  mkWorld (clock w) (S (ticks w)) (regexState w)
          (mkLocationService (ls_rawData ls) (JsMap.set (ls_cache ls) key value)
                             (ls_searchIndex ls) (ls_maxCacheSize ls)
                             (JsMap.set (ls_cacheAccessTimes ls) key (clock w (ticks w))))
          (searchService w).

(** The world after the lookup of a present key. *)
Definition touched (key : str) (w : World) : World :=
  let ls := locationService w in
  mkWorld (clock w) (S (ticks w)) (regexState w)
          (mkLocationService (ls_rawData ls) (ls_cache ls)
                             (ls_searchIndex ls) (ls_maxCacheSize ls)
                             (JsMap.set (ls_cacheAccessTimes ls) key (clock w (ticks w))))
          (searchService w).

(** No store in [ops] has the empty key. *)
Definition setsNonEmptyKeys (ops : list CacheOp) : Prop :=
  forall key value, In (OpSet key value) ops -> key <> [].

(** White-space-only strings. *)
Definition blank (s : str) : Prop := Forall (fun c => isSpace c = true) s.

Definition blankAt (o : option ascii) : Prop :=
  match o with Some c => isSpace c = true | None => True end.

Definition spaceChars : list ascii := map ascii_of_nat [9; 10; 11; 12; 13; 32]%nat.

(** A sufficient syntactic condition for a pattern to match nowhere in a
    white-space-only string: every match has to pass a literal that is not
    white space, a class without white space, or a word boundary. *)
Fixpoint needsInk (r : regex) : bool :=
  match r with
  | REps => false
  | RChar c => negb (isSpace (upperChar c))
  | RClass p => forallb (fun x => negb (p x)) spaceChars
  | RSeq a b => needsInk a || needsInk b
  | RAlt a b => needsInk a && needsInk b
  | RStar _ => false
  | RBoundary => true
  end.

(** ** Notions used in the further properties *)

(** The alphabet of a normalized string: [a-z], [0-9], [_], [-] and the
    space character. *)
Definition normalChar (c : ascii) : bool :=
  isLower c || isDigit c || (code c =? 95)%nat || isHyphen c || (code c =? 32)%nat.

(** A string that does not start, or does not end, with white space. *)
Definition startsTight (s : str) : Prop := dropWhile isSpace s = s.
Definition endsTight (s : str) : Prop := dropWhile isSpace (rev s) = rev s.

(** A row of the Levenshtein matrix, from the column of the prefix [pre] of
    [s1] on: one value for [pre] and one for every longer prefix. *)
Fixpoint rowOk (P : str -> nat -> Prop) (pre suf : str) (row : list nat) : Prop :=
  match suf, row with
  | [], [v] => P pre v
  | c :: suf', v :: row' => P pre v /\ rowOk P (pre ++ [c]) suf' row'
  | _, _ => False
  end.

(** The replacement that [escapeHtml] makes for one character. *)
Definition htmlEntity (c : ascii) : str :=
  if eqc c "&"%char then lit "&amp;"
  else if eqc c "<"%char then lit "&lt;"
  else if eqc c ">"%char then lit "&gt;"
  else if eqc c quote then lit "&quot;"
  else if eqc c "'"%char then lit "&#039;"
  else [c].

(** The characters that open or close a tag or an attribute value. *)
Definition isMarkup (c : ascii) : bool :=
  eqc c "<"%char || eqc c ">"%char || eqc c quote || eqc c "'"%char.

(** White space in [s] is made of single space characters: no other
    white-space character, and no space after a space. *)
Fixpoint singleSpaced (s : str) : bool :=
  match s with
  | [] => true
  | c :: s' =>
      (negb (isSpace c) || eqc c " "%char)
      && negb (isSpace c && match s' with d :: _ => isSpace d | [] => false end)
      && singleSpaced s'
  end.

(** Every pattern of [SecurityValidator] at [lastIndex = 0]. *)
Definition freshPatterns : RegexState :=
  mkRegexState (map (fun _ => 0%nat) SecurityValidator.SQL_INJECTION_PATTERNS)
               (map (fun _ => 0%nat) SecurityValidator.BLOCKED_PATTERNS).

(** The times, among [ts], of the checks that were answered [true]. *)
Fixpoint admittedTimes (ts : list Z) (answers : list bool) : list Z :=
  match ts, answers with
  | t :: ts', a :: answers' =>
      if a then t :: admittedTimes ts' answers' else admittedTimes ts' answers'
  | _, _ => []
  end.

(** The clock does not go back between the checks at the times [ts]. *)
Fixpoint nondecreasing (ts : list Z) : Prop :=
  match ts with
  | [] => True
  | t :: ts' => Forall (fun t' => (t <= t')%Z) ts' /\ nondecreasing ts'
  end.

(** The number of times within the window of length [windowMs] that starts
    at [a]. *)
Definition inWindow (a windowMs : Z) (times : list Z) : nat :=
  length (filter (fun u => (a <=? u)%Z && (u <? a + windowMs)%Z) times).

(** The filter of [checkRateLimit]: [u] is recent at the time [now]. *)
Definition recentAt (windowMs now u : Z) : bool := (now - u <? windowMs)%Z.

(** The list kept for the client agrees, on what is recent at any time from
    [lo] on, with the admissions [hist] so far. *)
Definition tracks (identifier : str) (windowMs : Z) (requests : JsMap.t (list Z))
           (hist : list Z) (lo : Z) : Prop :=
  match JsMap.get requests identifier with
  | None => hist = []
  | Some kept =>
      forall now, (lo <= now)%Z ->
                  filter (recentAt windowMs now) kept = filter (recentAt windowMs now) hist
  end.

(** No character of [s] (line terminators apart) stands next to a copy of
    itself. *)
Fixpoint noRepeat (s : str) : bool :=
  match s with
  | c :: ((d :: _) as s') => negb (eqc c d && isAny c) && noRepeat s'
  | _ => true
  end.

(** The outcome is the error of the rate limiter. *)
Definition rateLimited {A} (o : Outcome A) : bool :=
  match o with
  | Throw RateLimitExceeded => true
  | _ => false
  end.

(** Scores in descending order: none is above one before it. *)
Fixpoint descending (scores : list Q) : Prop :=
  match scores with
  | [] => True
  | x :: rest => Forall (fun y => y <= x) rest /\ descending rest
  end.

(** The key under which [search] remembers a result. *)
Definition resultKey (r : SearchResult) : str :=
  r_name r ++ lit "-" ++ typeName (r_type r).

(** The result was made from an entry of the index. *)
Definition fromIndex (index : JsMap.t (list SearchIndexEntry)) (r : SearchResult) : Prop :=
  exists key entry,
    In entry (SearchService.lookup index key)
    /\ r = SearchService.createSearchResult entry (r_score r).

(** What holds of every result that [search] collects. *)
Definition goodResult (index : JsMap.t (list SearchIndexEntry)) (options : SearchOptions)
           (r : SearchResult) : Prop :=
  In (r_type r) (SearchService.typesOf options)
  /\ (r_score r = 1 \/ SearchService.minScoreOf options <= r_score r)
  /\ r_score r <= 1
  /\ fromIndex index r.

(** The state [(results, seen)] of [search] between two entries. *)
Definition tierState (index : JsMap.t (list SearchIndexEntry)) (options : SearchOptions)
           (st : list SearchResult * list str) : Prop :=
  map resultKey (fst st) = snd st
  /\ NoDup (snd st)
  /\ Forall (goodResult index options) (fst st).

(** A small data set with its services started, and the results of a call
    as a list (empty when the call throws). *)
Definition sampleWorld : World :=
  startWorld tickingClock [sampleRecord; townRecord (lit "MAMUNTHA"); townRecord (lit "BO")].

Definition resultsOf {A} (o : Outcome (list A)) : list A :=
  match o with Ok l => l | Throw _ => [] end.

(** Strings in ascending order: none is below one before it. *)
Fixpoint ascending (l : list str) : Prop :=
  match l with
  | [] => True
  | x :: rest => Forall (fun y => strLtb y x = false) rest /\ ascending rest
  end.

(** [name] is the name of an entry of the index, under a key that [ok]
    accepts, and the entry passes [keep]. *)
Definition namedInIndex (index : JsMap.t (list SearchIndexEntry)) (ok : str -> bool)
           (keep : SearchIndexEntry -> bool) (name : str) : Prop :=
  exists key entries entry,
    In (key, entries) (JsMap.entries index) /\ In entry entries
    /\ ok key = true /\ keep entry = true /\ e_name entry = name.

(** The state [(results, seen)] of the scan of [autocomplete]. *)
Definition scanInv (index : JsMap.t (list SearchIndexEntry)) (normalized : str)
           (st : list (str * Q) * list str) : Prop :=
  map fst (fst st) = snd st
  /\ NoDup (snd st)
  /\ Forall (namedInIndex index
               (fun key => includes key normalized || includes normalized key)
               (fun entry => above03 (calculateSimilarity normalized (e_normalized entry))))
            (snd st).

(** Stores of the empty list under the keys number [0], ..., [n - 1]. *)
Definition storeKeys (n : nat) : list CacheOp :=
  map (fun i => OpSet (districtsKey i) (VStrings [])) (seq 0 n).

(** A cell that [parseCsvLine] can give back: no double quote in it, and no
    white space at its ends. *)
Definition plainCell (cell : str) : Prop :=
  Forall (fun c => isQuote c = false) cell /\ trim cell = cell.

(** A CSV text of one data line. *)
Definition sampleCsv : str :=
  lit "idregion,iddistrict,idcouncil,idchiefdom,idsection,idtown" ++ [LF]
  ++ lit "SOUTHERN,BO,BO DISTRICT,KAKUA,NEW SITE,BO TOWN".

(** [record] passes the filter that [getLocationsByQuery] makes for the
    property [property] of the query: the property is not given, or the
    normal form of the column is the one of the sanitized value. *)
Definition passes (query : LocationService.LocationQuery) (property : str)
           (column : LocationRecord -> str) (record : LocationRecord) : bool :=
  negb (given (JsMap.get query property))
  || eqs (normalize (column record))
         (normalize (SecurityValidator.cleaned (orEmpty (JsMap.get query property)))).

(** The records that a query asks for. *)
Definition recordsMatching (query : LocationService.LocationQuery)
           (records : list LocationRecord) : list LocationRecord :=
  filter (fun record => passes query (lit "province") idregion record
                        && passes query (lit "district") iddistrict record
                        && passes query (lit "chiefdom") idchiefdom record)
         records.

(** The towns of a hierarchy, province by province. *)
Definition townsOf (provinces : list Province) : list Town :=
  flat_map (fun p => flat_map (fun d => flat_map c_towns (d_chiefdoms d)) (pv_districts p))
           provinces.

(** The record that a town of the hierarchy was made from, read off the
    fields of the town. *)
Definition recordOfTown (t : Town) : LocationRecord :=
  mkRecord (t_province t) (t_district t) (t_council t) (t_chiefdom t) (t_section t) (t_name t).

(** The state of [buildHierarchy] after the records [done]: the three maps
    have each key once; the district keys held by the provinces are the keys
    of the district map, the chiefdom keys held by the districts are the keys
    of the chiefdom map, each once; every province is named by its key; and
    the towns held by the chiefdoms are the towns of the records. *)
Definition builderInv (b : Processor.Builder) (done : list LocationRecord) : Prop :=
  NoDup (JsMap.keys (Processor.provinceMap b))
  /\ NoDup (JsMap.keys (Processor.districtMap b))
  /\ NoDup (JsMap.keys (Processor.chiefdomMap b))
  /\ Permutation (flat_map Processor.po_districts (JsMap.values (Processor.provinceMap b)))
                 (JsMap.keys (Processor.districtMap b))
  /\ Permutation (flat_map Processor.do_chiefdoms (JsMap.values (Processor.districtMap b)))
                 (JsMap.keys (Processor.chiefdomMap b))
  /\ Permutation (map recordOfTown (flat_map c_towns (JsMap.values (Processor.chiefdomMap b))))
                 done
  /\ JsMap.keys (Processor.provinceMap b) = distinct (map idregion done)
  /\ (forall k p, In (k, p) (Processor.provinceMap b) -> Processor.po_name p = k).

(* ================================================================== *)
(** * Part II.  Properties                                              *)
(* ================================================================== *)

(** ** Characters and strings *)

Lemma eqc_iff (a b : ascii) : eqc a b = true <-> a = b.
Proof. apply Ascii.eqb_eq. Qed.

Lemma eqc_refl (a : ascii) : eqc a a = true.
Proof. apply eqc_iff; reflexivity. Qed.

Lemma eqs_iff (a b : str) : eqs a b = true <-> a = b.
Proof.
  revert b; induction a as [|x a IH]; intros [|y b]; simpl; split; intro H;
    try reflexivity; try discriminate.
  - apply andb_true_iff in H as [H1 H2].
    apply eqc_iff in H1; apply IH in H2; congruence.
  - inversion H; subst. rewrite eqc_refl. simpl. apply IH; reflexivity.
Qed.

Lemma eqs_refl (a : str) : eqs a a = true.
Proof. apply eqs_iff; reflexivity. Qed.

Lemma eqs_false_iff (a b : str) : eqs a b = false <-> a <> b.
Proof.
  split; intro H.
  - intro E. apply eqs_iff in E. congruence.
  - destruct (eqs a b) eqn:E; [apply eqs_iff in E; contradiction | reflexivity].
Qed.

(** A closed conjunction of equations, settled by evaluation. *)
Ltac by_evaluation :=
  cbv zeta; repeat (apply conj); vm_compute; reflexivity.

(** A fact about every character, settled by running through all of them. *)
Ltac all_chars c :=
  destruct c as [[] [] [] [] [] [] [] []]; vm_compute; try reflexivity; try discriminate; auto.

Lemma upper_lower (c : ascii) : upperChar (lowerChar c) = upperChar c.
Proof. all_chars c. Qed.

Lemma lower_lower (c : ascii) : lowerChar (lowerChar c) = lowerChar c.
Proof. all_chars c. Qed.

Lemma space_not_alnum (c : ascii) :
  isSpace c = true -> isUpper (upperChar c) || isDigit (upperChar c) = false.
Proof. all_chars c. Qed.

Lemma punct_not_alnum (c : ascii) :
  keepNormal c = false -> isUpper (upperChar c) || isDigit (upperChar c) = false.
Proof. all_chars c. Qed.

(** ** Location codes *)

Lemma upperAlnum_cons (c : ascii) (s : str) :
  upperAlnum (c :: s) =
  if isUpper (upperChar c) || isDigit (upperChar c)
  then upperChar c :: upperAlnum s else upperAlnum s.
Proof. reflexivity. Qed.

Lemma upperAlnum_app (a b : str) : upperAlnum (a ++ b) = upperAlnum a ++ upperAlnum b.
Proof.
  unfold upperAlnum, keepUpperAlnum, toUpperCase.
  now rewrite map_app, filter_app.
Qed.

Lemma upperAlnum_rev (s : str) : upperAlnum (rev s) = rev (upperAlnum s).
Proof.
  unfold upperAlnum, keepUpperAlnum, toUpperCase.
  now rewrite map_rev, filter_rev.
Qed.

Lemma upperAlnum_dropWhile_space (s : str) :
  upperAlnum (dropWhile isSpace s) = upperAlnum s.
Proof.
  induction s as [|c s IH]; [reflexivity|]. simpl.
  destruct (isSpace c) eqn:E; [|reflexivity].
  rewrite IH, upperAlnum_cons, (space_not_alnum c E). reflexivity.
Qed.

Lemma upperAlnum_trim (s : str) : upperAlnum (trim s) = upperAlnum s.
Proof.
  unfold trim, trimEnd, trimStart.
  rewrite upperAlnum_rev, upperAlnum_dropWhile_space, upperAlnum_rev, rev_involutive.
  apply upperAlnum_dropWhile_space.
Qed.

Lemma upperAlnum_collapse (b : bool) (s : str) :
  upperAlnum (collapseFrom b s) = upperAlnum s.
Proof.
  revert b; induction s as [|c s IH]; intro b; [reflexivity|]. simpl.
  destruct (isSpace c) eqn:E.
  - rewrite (upperAlnum_cons c), (space_not_alnum c E).
    destruct b; [apply IH|]. rewrite upperAlnum_cons. simpl. apply IH.
  - rewrite !upperAlnum_cons, IH. reflexivity.
Qed.

Lemma upperAlnum_stripPunct (s : str) : upperAlnum (stripPunct s) = upperAlnum s.
Proof.
  induction s as [|c s IH]; [reflexivity|]. unfold stripPunct in *. simpl.
  destruct (keepNormal c) eqn:E.
  - rewrite !upperAlnum_cons, IH. reflexivity.
  - rewrite IH, upperAlnum_cons, (punct_not_alnum c E). reflexivity.
Qed.

Lemma upperAlnum_lower (s : str) : upperAlnum (toLowerCase s) = upperAlnum s.
Proof.
  unfold upperAlnum, toUpperCase, toLowerCase. rewrite map_map.
  f_equal. apply map_ext. apply upper_lower.
Qed.

Lemma upperAlnum_normalize (s : str) : upperAlnum (normalize s) = upperAlnum s.
Proof.
  destruct s as [|c s]; [reflexivity|]. unfold normalize.
  rewrite upperAlnum_stripPunct. unfold collapseSpaces.
  rewrite upperAlnum_collapse, upperAlnum_trim. apply upperAlnum_lower.
Qed.

(** C8, as stated, fails in two places.  The code generator of the build
    script cuts the name part at 20 characters, so a long town name gets a
    code that is not the written form; and a search result carries the
    lower-case normalized name after [SL-TOWN-]. *)
Lemma generateCode_written_form_counterexample :
  DataProcessor.generateCode (lit "TOWN") (lit "MAGBASS (KHOLIFA MAMUNTHA/MAYOSSO)")
    <> writtenCode (lit "TOWN") (lit "MAGBASS (KHOLIFA MAMUNTHA/MAYOSSO)")
  /\ r_code (SearchService.createSearchResult
               (mkEntry (lit "BO") town (lit "bo")
                        (mkRecord (lit "SOUTHERN") (lit "BO") [] (lit "KAKUA") [] (lit "BO")) false) 1)
     <> writtenCode (lit "TOWN") (lit "BO").
Proof. split; vm_compute; discriminate. Qed.

(** C8, amended.  The hierarchy builder of [src/data/processor.ts] gives every
    node the code [SL-<TYPE>-<name part>] cut at 50 characters, the name part
    being the name in upper case without the characters outside [A-Z0-9];
    the build script cuts the name part at 20 characters and nothing else,
    which is the same code whenever the name part has at most 20 characters
    and the whole at most 50; and the code of a search result is determined
    by the name and the type of the entry alone. *)
Theorem generateCode_form (type name : str) :
  Processor.generateCode type name = writtenCode type name
  /\ DataProcessor.generateCode type name
     = lit "SL-" ++ type ++ lit "-" ++ substring0 20 (upperAlnum name)
  /\ ((length (upperAlnum name) <= 20)%nat ->
      (4 + length type + length (upperAlnum name) <= 50)%nat ->
      DataProcessor.generateCode type name = writtenCode type name)
  /\ (forall (e1 e2 : SearchIndexEntry) (s1 s2 : Q),
        e_name e1 = e_name e2 -> e_type e1 = e_type e2 ->
        r_code (SearchService.createSearchResult e1 s1)
        = r_code (SearchService.createSearchResult e2 s2)).
Proof.
  repeat split.
  - unfold Processor.generateCode, writtenCode.
    change (keepUpperAlnum (toUpperCase (normalize name))) with (upperAlnum (normalize name)).
    now rewrite upperAlnum_normalize.
  - intros H20 H50. unfold DataProcessor.generateCode, writtenCode, substring0.
    change (keepUpperAlnum (toUpperCase name)) with (upperAlnum name).
    rewrite (firstn_all2 (n := 20)) by exact H20.
    rewrite firstn_all2; [reflexivity|].
    rewrite !length_app. simpl. lia.
  - intros e1 e2 s1 s2 Hn Ht. simpl. now rewrite Hn, Ht.
Qed.

Lemma generateCode_form_witness :
  DataProcessor.generateCode (lit "DISTRICT") (lit "Western Area Rural")
  = writtenCode (lit "DISTRICT") (lit "Western Area Rural").
Proof.
  apply (generateCode_form (lit "DISTRICT") (lit "Western Area Rural"));
    vm_compute; repeat constructor.
Defined.

(** ** Sorting and slicing *)

Lemma in_insertDesc {A} (score : A -> Q) (x y : A) (l : list A) :
  In y (insertDesc score x l) <-> y = x \/ In y l.
Proof.
  induction l as [|z l IH]; simpl.
  - intuition.
  - destruct (Qltb (score x) (score z)); simpl; rewrite ?IH; intuition.
Qed.

Lemma in_sortDesc {A} (score : A -> Q) (y : A) (l : list A) :
  In y (sortDesc score l) <-> In y l.
Proof.
  induction l as [|x l IH]; simpl; [tauto|].
  rewrite in_insertDesc, IH. intuition.
Qed.



Lemma in_firstn {A} (n : nat) (y : A) (l : list A) :
  In y (firstn n l) -> In y l.
Proof.
  revert l; induction n as [|n IH]; intros [|x l]; simpl; try tauto.
  intros [H|H]; [now left | right; now apply IH].
Qed.

Lemma in_slice0 {A} (limit : Z) (y : A) (l : list A) :
  In y (slice0 limit l) -> In y l.
Proof.
  unfold slice0. destruct (0 <=? limit)%Z; apply in_firstn.
Qed.


(** ** The tiers of [search] *)

Lemma needsPartial_iff (limit : Z) (results : list SearchResult) :
  SearchService.needsPartial limit results = true
  <-> (Z.of_nat (length results) < limit)%Z.
Proof. unfold SearchService.needsPartial. apply Z.ltb_lt. Qed.

Lemma half_le_iff (limit : Z) (n : nat) :
  Qle (inject_Z limit / 2) (natQ n) <-> (limit <= 2 * Z.of_nat n)%Z.
Proof.
  unfold Qle, natQ, Qdiv, Qmult, Qinv, inject_Z. cbn -[Z.mul Z.of_nat]. lia.
Qed.

Lemma needsFuzzy_iff (fuzzy : bool) (limit : Z) (results : list SearchResult) :
  SearchService.needsFuzzy fuzzy limit results = true
  <-> fuzzy = true /\ (2 * Z.of_nat (length results) < limit)%Z.
Proof.
  unfold SearchService.needsFuzzy, Qltb.
  rewrite andb_true_iff, negb_true_iff.
  split; intros [Hf H]; split; auto.
  - destruct (Z.lt_ge_cases (2 * Z.of_nat (length results)) limit) as [L|L]; [exact L|].
    apply half_le_iff in L. apply Qle_bool_iff in L. congruence.
  - destruct (Qle_bool (inject_Z limit / 2) (natQ (length results))) eqn:E; [|reflexivity].
    apply Qle_bool_iff, half_le_iff in E. lia.
Qed.

Lemma exactEntry_score (types : list LocationType) (entries : list SearchIndexEntry)
      (st : list SearchResult * list str) (r : SearchResult) :
  In r (fst (fold_left (SearchService.exactEntry types) entries st)) ->
  In r (fst st) \/ r_score r = 1.
Proof.
  revert st; induction entries as [|e es IH]; intros st H; simpl in H; [now left|].
  apply IH in H as [H|H]; [|now right].
  unfold SearchService.exactEntry in H.
  destruct (SearchService.wanted types (snd st) e); [|now left].
  simpl in H. apply in_app_iff in H as [H|[H|[]]]; [now left|right].
  now subst r.
Qed.

(** C9.  In [search] the partial tier is skipped whenever the exact tier has
    collected [limit] results or more; the phonetic tier runs exactly when
    [fuzzy] is on and fewer than [limit/2] results have been collected so
    far; so when the exact tier fills the limit, what is collected is the
    exact matches and every result returned is one of them, with score 1.0,
    whatever [minScore] and [fuzzy] are. *)
Theorem search_tiers_short_circuit
        (index : JsMap.t (list SearchIndexEntry)) (options : SearchOptions)
        (sanitized : str) :
  let normalized := normalize sanitized in
  let limit := SearchService.limitOf options in
  let exact := SearchService.exactTier index (SearchService.typesOf options) normalized in
  let st1 := SearchService.afterPartial index options normalized in
  ((limit <= Z.of_nat (length (fst exact)))%Z -> st1 = exact)
  /\ (SearchService.needsFuzzy (SearchService.fuzzyOf options) limit (fst st1) = true
      <-> SearchService.fuzzyOf options = true
          /\ (2 * Z.of_nat (length (fst st1)) < limit)%Z)
  /\ (SearchService.needsFuzzy (SearchService.fuzzyOf options) limit (fst st1) = false ->
      SearchService.collected index options normalized = fst st1)
  /\ ((limit <= Z.of_nat (length (fst exact)))%Z ->
      SearchService.collected index options normalized = fst exact
      /\ forall r, In r (SearchService.searchAnswer index options sanitized) ->
                   In r (fst exact) /\ r_score r = 1).
Proof.
  intros normalized limit exact st1.
  assert (Hskip : (limit <= Z.of_nat (length (fst exact)))%Z -> st1 = exact).
  { intro H. subst st1. unfold SearchService.afterPartial. fold exact. fold limit.
    destruct (SearchService.needsPartial limit (fst exact)) eqn:E; [|reflexivity].
    apply needsPartial_iff in E. lia. }
  assert (Hcol : (limit <= Z.of_nat (length (fst exact)))%Z ->
                 SearchService.collected index options normalized = fst exact).
  { intro H. unfold SearchService.collected. fold st1. fold limit.
    rewrite (Hskip H).
    destruct (SearchService.needsFuzzy (SearchService.fuzzyOf options) limit (fst exact)) eqn:E;
      [|reflexivity].
    apply needsFuzzy_iff in E as [_ E]. lia. }
  split; [exact Hskip|]. split; [apply needsFuzzy_iff|]. split.
  - intro E. unfold SearchService.collected. fold st1. fold limit. now rewrite E.
  - intro H. split; [exact (Hcol H)|].
    intros r Hr. unfold SearchService.searchAnswer in Hr.
    apply in_slice0, in_sortDesc in Hr. fold normalized in Hr. rewrite (Hcol H) in Hr.
    split; [exact Hr|].
    apply exactEntry_score in Hr as [[]|Hr]. exact Hr.
Qed.

(** ** [JsMap] *)

Lemma get_set_same {V} (m : JsMap.t V) (k : str) (v : V) :
  JsMap.get (JsMap.set m k v) k = Some v.
Proof.
  induction m as [|[k' v'] m IH]; simpl.
  - now rewrite eqs_refl.
  - destruct (eqs k' k) eqn:E; simpl; rewrite E; [reflexivity | exact IH].
Qed.

Lemma get_set_other {V} (m : JsMap.t V) (k k' : str) (v : V) :
  k <> k' -> JsMap.get (JsMap.set m k v) k' = JsMap.get m k'.
Proof.
  intro H. induction m as [|[k0 v0] m IH]; simpl.
  - apply eqs_false_iff in H. now rewrite H.
  - destruct (eqs k0 k) eqn:E; simpl.
    + apply eqs_iff in E; subst k0. apply eqs_false_iff in H. now rewrite H.
    + destruct (eqs k0 k'); [reflexivity | exact IH].
Qed.

(** ** The rate limiter *)

Section RateLimiter.

Variable identifier : str.
Variables maxRequests windowMs : Z.

Let check now requests :=
  SecurityValidator.checkRateLimit now identifier requests maxRequests windowMs.

Lemma filter_all {A} (p : A -> bool) (l : list A) :
  Forall (fun x => p x = true) l -> filter p l = l.
Proof.
  induction 1 as [|x l Hx _ IH]; simpl; [reflexivity|]. now rewrite Hx, IH.
Qed.

Lemma filter_none {A} (p : A -> bool) (l : list A) :
  Forall (fun x => p x = false) l -> filter p l = [].
Proof.
  induction 1 as [|x l Hx _ IH]; simpl; [reflexivity|]. now rewrite Hx, IH.
Qed.

(** A check while every recorded time is still inside the window. *)
Lemma check_open (now : Z) (requests : JsMap.t (list Z)) (recorded : list Z) :
  JsMap.get requests identifier = Some recorded ->
  Forall (fun t => (now - t < windowMs)%Z) recorded ->
  check now requests =
  if (maxRequests <=? Z.of_nat (length recorded))%Z then (false, requests)
  else (true, JsMap.set requests identifier (recorded ++ [now])).
Proof.
  intros Hg Hin. unfold check, SecurityValidator.checkRateLimit. rewrite Hg.
  rewrite filter_all; [reflexivity|].
  eapply Forall_impl; [|exact Hin]. intros t Ht. cbv beta in *. now apply Z.ltb_lt.
Qed.

(** A check when the client is unknown or every recorded time has left the
    window. *)
Lemma check_closed (now : Z) (requests : JsMap.t (list Z)) :
  (1 <= maxRequests)%Z ->
  noOpenWindow windowMs [now] identifier requests ->
  check now requests = (true, JsMap.set requests identifier [now]).
Proof.
  intros HN Hno. unfold check, SecurityValidator.checkRateLimit.
  unfold noOpenWindow in Hno.
  destruct (JsMap.get requests identifier) as [recorded|]; [|reflexivity].
  inversion Hno as [|? ? Hold _]; subst.
  rewrite filter_none.
  - simpl. destruct (maxRequests <=? 0)%Z eqn:E; [apply Z.leb_le in E; lia | reflexivity].
  - eapply Forall_impl; [|exact Hold]. intros t Ht. cbv beta in *. apply Z.ltb_ge. lia.
Qed.

(** The checks of one window, started with [recorded] in the map. *)
Lemma checks_open (ts : list Z) :
  forall (requests : JsMap.t (list Z)) (recorded : list Z),
    JsMap.get requests identifier = Some recorded ->
    Forall (fun t => Forall (fun t' => (t' - t < windowMs)%Z) ts) recorded ->
    withinWindow windowMs ts ->
    fst (checks ts identifier requests maxRequests windowMs)
    = map (fun i => (Z.of_nat (length recorded + i) <? maxRequests)%Z) (seq 0 (length ts))
    /\ exists recorded',
        JsMap.get (snd (checks ts identifier requests maxRequests windowMs)) identifier
        = Some recorded'
        /\ incl recorded' (recorded ++ ts).
Proof.
  induction ts as [|now ts IH]; intros requests recorded Hg Hrec Hw.
  - simpl. split; [reflexivity|]. exists recorded. split; [exact Hg|].
    now rewrite app_nil_r.
  - destruct Hw as [Hnow Hw]. simpl checks.
    fold (check now requests).
    rewrite (check_open now requests recorded Hg).
    2:{ eapply Forall_impl; [|exact Hrec]. intros t Ht. now inversion Ht. }
    assert (Hrec' : Forall (fun t => Forall (fun t' => (t' - t < windowMs)%Z) ts) recorded).
    { eapply Forall_impl; [|exact Hrec]. intros t Ht. now inversion Ht. }
    destruct (maxRequests <=? Z.of_nat (length recorded))%Z eqn:E.
    + destruct (IH requests recorded Hg Hrec' Hw) as [Hr (rec' & Hg' & Hi)].
      destruct (checks ts identifier requests maxRequests windowMs) as [rest requests''].
      simpl in *. split.
      * f_equal.
        -- symmetry. apply Z.ltb_ge. apply Z.leb_le in E. lia.
        -- rewrite Hr. rewrite <- seq_shift, map_map.
           apply map_ext_in. intros i _.
           apply Z.leb_le in E.
           transitivity false; [apply Z.ltb_ge; lia | symmetry; apply Z.ltb_ge; lia].
      * exists rec'. split; [exact Hg'|].
        intros x Hx. apply Hi in Hx. apply in_app_iff in Hx as [Hx|Hx];
          apply in_app_iff; [now left | right; now right].
    + assert (Hg1 : JsMap.get (JsMap.set requests identifier (recorded ++ [now])) identifier
                    = Some (recorded ++ [now])) by apply get_set_same.
      assert (Hrec1 : Forall (fun t => Forall (fun t' => (t' - t < windowMs)%Z) ts)
                             (recorded ++ [now])).
      { apply Forall_app. split; [exact Hrec'|]. constructor; [exact Hnow | constructor]. }
      destruct (IH _ _ Hg1 Hrec1 Hw) as [Hr (rec' & Hg' & Hi)].
      destruct (checks ts identifier (JsMap.set requests identifier (recorded ++ [now]))
                       maxRequests windowMs) as [rest requests''].
      simpl in *. split.
      * f_equal.
        -- symmetry. apply Z.ltb_lt. apply Z.leb_gt in E. lia.
        -- rewrite Hr. rewrite <- seq_shift, map_map.
           apply map_ext. intros i. rewrite length_app. simpl.
           f_equal. f_equal. lia.
      * exists rec'. split; [exact Hg'|].
        intros x Hx. apply Hi in Hx. rewrite <- app_assoc in Hx. exact Hx.
Qed.

End RateLimiter.

Lemma noOpenWindow_app (windowMs : Z) (ts ts' : list Z) (identifier : str)
      (requests : JsMap.t (list Z)) :
  noOpenWindow windowMs (ts ++ ts') identifier requests ->
  noOpenWindow windowMs ts identifier requests
  /\ noOpenWindow windowMs ts' identifier requests.
Proof.
  unfold noOpenWindow. destruct (JsMap.get requests identifier); [|tauto].
  apply Forall_app.
Qed.

(** C2, as stated, fails for [maxRequests = 0]: the very first check of an
    unknown client is allowed although none of the first zero checks may
    be. *)
Lemma rate_limit_zero_counterexample :
  fst (checks [0%Z] (lit "client") JsMap.empty 0 60000)
  <> map (fun i => (Z.of_nat i <? 0)%Z) (seq 0 1).
Proof. vm_compute. discriminate. Qed.

(** C2, amended to [maxRequests >= 1].  For every client and every
    [N = maxRequests >= 1]: of the checks made within one window by a client
    that has no window open (an unknown client included), check number [i]
    (counted from 0) is allowed exactly when [i < N], so the first [N] are
    allowed and check [N+1] and every further one is denied; and a
    check made once [windowMs] has passed since each of them is allowed
    again. *)
Theorem rate_limit_window (identifier : str) (requests : JsMap.t (list Z))
        (N windowMs : Z) (ts : list Z) (later : Z) :
  (1 <= N)%Z ->
  withinWindow windowMs ts ->
  noOpenWindow windowMs (ts ++ [later]) identifier requests ->
  Forall (fun t => (windowMs <= later - t)%Z) ts ->
  let run := checks ts identifier requests N windowMs in
  fst run = map (fun i => (Z.of_nat i <? N)%Z) (seq 0 (length ts))
  /\ fst (SecurityValidator.checkRateLimit later identifier (snd run) N windowMs) = true.
Proof.
  intros HN Hw Hno Hlater run.
  apply noOpenWindow_app in Hno as [Hno Hnol].
  destruct ts as [|t1 ts].
  - subst run. simpl. split; [reflexivity|].
    now rewrite (check_closed identifier N windowMs later requests HN Hnol).
  - assert (Hno1 : noOpenWindow windowMs [t1] identifier requests).
    { change (t1 :: ts) with ([t1] ++ ts) in Hno. now apply noOpenWindow_app in Hno. }
    destruct Hw as [Ht1 Hw].
    pose proof (check_closed identifier N windowMs t1 requests HN Hno1) as Hc.
    pose proof (get_set_same requests identifier [t1]) as Hg.
    assert (Hrec : Forall (fun t => Forall (fun t' => (t' - t < windowMs)%Z) ts) [t1])
      by (constructor; [exact Ht1 | constructor]).
    destruct (checks_open identifier N windowMs ts _ _ Hg Hrec Hw) as [Hr (rec' & Hg' & Hi)].
    subst run. simpl checks. rewrite Hc.
    destruct (checks ts identifier (JsMap.set requests identifier [t1]) N windowMs)
      as [rest requests''].
    simpl in *. split.
    + f_equal.
      * symmetry. apply Z.ltb_lt. lia.
      * rewrite Hr, <- seq_shift, map_map. reflexivity.
    + unfold SecurityValidator.checkRateLimit. rewrite Hg'.
      rewrite filter_none.
      * simpl. destruct (N <=? 0)%Z eqn:E; [apply Z.leb_le in E; lia | reflexivity].
      * apply Forall_forall. intros x Hx. apply Hi in Hx. simpl in Hx.
        apply Z.ltb_ge.
        rewrite Forall_forall in Hlater. apply Hlater. exact Hx.
Qed.

Lemma rate_limit_window_witness :
  let run := checks [0; 10; 20; 30]%Z (lit "client") JsMap.empty 2 60000 in
  fst run = [true; true; false; false]
  /\ fst (SecurityValidator.checkRateLimit 70000 (lit "client") (snd run) 2 60000) = true.
Proof.
  apply (rate_limit_window (lit "client") JsMap.empty 2 60000 [0; 10; 20; 30]%Z 70000).
  - lia.
  - simpl. repeat first [apply Forall_nil | apply Forall_cons | split | lia].
  - exact I.
  - repeat first [apply Forall_nil | apply Forall_cons | lia].
Defined.

Lemma search_tiers_short_circuit_witness :
  let options := mkOptions (Some 1%Z) None None None in
  SearchService.collected sampleIndex options (normalize (lit "Tonkolili"))
  = fst (SearchService.exactTier sampleIndex (SearchService.typesOf options)
                                 (normalize (lit "Tonkolili"))).
Proof.
  intro options.
  pose proof (search_tiers_short_circuit sampleIndex options (lit "Tonkolili")) as H.
  cbv zeta in H. destruct H as (_ & _ & _ & H).
  refine (proj1 (H _)).
  vm_compute. discriminate.
Defined.

(** ** [normalize] *)

(** C5 fails on the code: punctuation is stripped after the white space has
    been collapsed, so a stripped character between two spaces leaves a
    double space that a second [normalize] collapses. *)
Theorem normalize_not_idempotent :
  normalize (lit "BO & KENEMA") = lit "bo  kenema"
  /\ normalize (normalize (lit "BO & KENEMA")) = lit "bo kenema"
  /\ normalize (normalize (lit "BO & KENEMA")) <> normalize (lit "BO & KENEMA").
Proof.
  split; [reflexivity|]. split; [reflexivity|]. vm_compute. discriminate.
Qed.

(** ** Patterns on white-space-only input *)

Lemma space_in_spaceChars (c : ascii) : isSpace c = true -> In c spaceChars.
Proof. all_chars c; intros _; simpl; tauto. Qed.

Lemma space_upper (c : ascii) : isSpace c = true -> upperChar c = c.
Proof. all_chars c. Qed.

Lemma space_not_word (c : ascii) : isSpace c = true -> isWord c = false.
Proof. all_chars c. Qed.

Lemma blankAt_not_word (o : option ascii) : blankAt o -> isWordAt o = false.
Proof. destruct o as [c|]; simpl; [apply space_not_word | reflexivity]. Qed.

Lemma blank_head_not_word (s : str) : blank s -> isWordAt (hd_error s) = false.
Proof.
  intros H. destruct s as [|c s]; [reflexivity|]. simpl.
  apply space_not_word. now inversion H.
Qed.

Section BlankInput.

Variable k : option ascii -> str -> option str.
Hypothesis k_fails : forall prev s, blankAt prev -> blank s -> k prev s = None.

Lemma starMatch_blank (p : ascii -> bool) (s : str) :
  forall prev, blankAt prev -> blank s -> starMatch p k prev s = None.
Proof.
  induction s as [|x s IH]; intros prev Hp Hs; simpl.
  - now apply k_fails.
  - destruct (p x); [|now apply k_fails].
    rewrite IH; [now apply k_fails | | now inversion Hs].
    simpl. now inversion Hs.
Qed.

End BlankInput.

(** A continuation that fails on blank input makes the whole match fail. *)
Lemma rmatch_blank_cont (r : regex) :
  forall k prev s,
    (forall prev' s', blankAt prev' -> blank s' -> k prev' s' = None) ->
    blankAt prev -> blank s -> rmatch r prev s k = None.
Proof.
  induction r as [|c|p|a IHa b IHb|a IHa b IHb|p|]; intros k prev s Hk Hp Hs; simpl.
  - now apply Hk.
  - destruct s as [|x s]; [reflexivity|].
    destruct (eqc (upperChar x) (upperChar c)); [|reflexivity].
    inversion Hs; subst. now apply Hk.
  - destruct s as [|x s]; [reflexivity|].
    destruct (p x); [|reflexivity].
    inversion Hs; subst. now apply Hk.
  - apply IHa; [|exact Hp|exact Hs].
    intros prev' s' Hp' Hs'. now apply IHb.
  - rewrite IHa by assumption. now apply IHb.
  - now apply starMatch_blank.
  - destruct (xorb _ _); [now apply Hk | reflexivity].
Qed.

(** A pattern that needs ink matches nowhere on blank input. *)
Lemma rmatch_blank (r : regex) :
  forall k prev s,
    needsInk r = true -> blankAt prev -> blank s -> rmatch r prev s k = None.
Proof.
  induction r as [|c|p|a IHa b IHb|a IHa b IHb|p|]; intros k prev s Hr Hp Hs;
    cbn [needsInk rmatch] in *; try discriminate.
  - destruct s as [|x s]; [reflexivity|].
    inversion Hs as [|? ? Hx Hs']; subst.
    destruct (eqc (upperChar x) (upperChar c)) eqn:E; [|reflexivity].
    apply eqc_iff in E. rewrite (space_upper x Hx) in E. subst x.
    rewrite Hx in Hr. discriminate.
  - destruct s as [|x s]; [reflexivity|].
    inversion Hs as [|? ? Hx Hs']; subst.
    rewrite forallb_forall in Hr.
    specialize (Hr x (space_in_spaceChars x Hx)).
    apply negb_true_iff in Hr. now rewrite Hr.
  - apply orb_true_iff in Hr as [Hr|Hr].
    + now apply IHa.
    + apply rmatch_blank_cont; [|exact Hp|exact Hs].
      intros prev' s' Hp' Hs'. now apply IHb.
  - apply andb_true_iff in Hr as [Ha Hb].
    rewrite IHa by assumption. now apply IHb.
  - rewrite (blankAt_not_word prev Hp), (blank_head_not_word s Hs). reflexivity.
Qed.

Lemma execAt_blank (r : regex) (s : str) :
  forall prev i from,
    needsInk r = true -> blankAt prev -> blank s -> execAt r prev s i from = None.
Proof.
  induction s as [|x s IH]; intros prev i from Hr Hp Hs; simpl.
  - destruct (from <=? i)%nat; [|reflexivity].
    now rewrite rmatch_blank.
  - assert (E : (if (from <=? i)%nat
                 then rmatch r prev (x :: s) (fun _ rest => Some rest) else None) = None).
    { destruct (from <=? i)%nat; [|reflexivity]. now rewrite rmatch_blank. }
    rewrite E. inversion Hs; subst. now apply IH.
Qed.

Lemma test_blank (r : regex) (lastIndex : nat) (s : str) :
  needsInk r = true -> blank s -> test r lastIndex s = (false, 0%nat).
Proof.
  intros Hr Hs. unfold test. now rewrite execAt_blank.
Qed.

Lemma testAny_blank (ps : list regex) (s : str) :
  forall st, forallb needsInk ps = true -> blank s ->
             testAny ps st s = (false, map (fun _ => 0%nat) ps).
Proof.
  induction ps as [|r ps IH]; intros st Hps Hs; simpl in *; [reflexivity|].
  apply andb_true_iff in Hps as [Hr Hps].
  rewrite (test_blank r (hd 0%nat st) s Hr Hs).
  now rewrite (IH (tl st) Hps Hs).
Qed.

Lemma patterns_need_ink :
  forallb needsInk SecurityValidator.SQL_INJECTION_PATTERNS = true
  /\ forallb needsInk SecurityValidator.BLOCKED_PATTERNS = true.
Proof. split; vm_compute; reflexivity. Qed.

(** ** The sanitizer as a state transformer *)

Lemma setRegexState_same (w : World) : setRegexState (regexState w) w = w.
Proof. now destruct w. Qed.

Lemma setRegexState_twice (r r' : RegexState) (w : World) :
  setRegexState r (setRegexState r' w) = setRegexState r w.
Proof. reflexivity. Qed.

(** [sanitize] touches nothing but the [lastIndex] of the patterns, and never
    reports a rate-limit failure. *)
Lemma sanitize_frame (input : str) (w : World) :
  (exists rs, snd (SecurityValidator.sanitize input w) = setRegexState rs w)
  /\ fst (SecurityValidator.sanitize input w) <> Throw RateLimitExceeded.
Proof.
  unfold SecurityValidator.sanitize.
  destruct input as [|c input].
  { split; [exists (regexState w); symmetry; apply setRegexState_same | discriminate]. }
  destruct (SecurityValidator.MAX_INPUT_LENGTH <? length (c :: input))%nat.
  { split; [exists (regexState w); symmetry; apply setRegexState_same | discriminate]. }
  unfold bind, SecurityValidator.testSqlInjection.
  destruct (testAny SecurityValidator.SQL_INJECTION_PATTERNS _ _) as [sql st1].
  destruct sql.
  { split; [eexists; reflexivity | discriminate]. }
  unfold SecurityValidator.testBlocked.
  destruct (testAny SecurityValidator.BLOCKED_PATTERNS _ _) as [blocked st2].
  destruct blocked; (split; [eexists; reflexivity | discriminate]).
Qed.

Lemma sanitizeSearchQuery_frame (query : str) (w : World) :
  (exists rs, snd (SecurityValidator.sanitizeSearchQuery query w) = setRegexState rs w)
  /\ fst (SecurityValidator.sanitizeSearchQuery query w) <> Throw RateLimitExceeded.
Proof.
  unfold SecurityValidator.sanitizeSearchQuery.
  destruct query as [|c query].
  { split; [exists (regexState w); symmetry; apply setRegexState_same | discriminate]. }
  destruct (SecurityValidator.MAX_SEARCH_LENGTH <? length (c :: query))%nat.
  { split; [exists (regexState w); symmetry; apply setRegexState_same | discriminate]. }
  destruct (length (c :: query) <? 2)%nat.
  { split; [exists (regexState w); symmetry; apply setRegexState_same | discriminate]. }
  apply sanitize_frame.
Qed.

(** The output of the replacement chain of [sanitize] on blank input. *)
Lemma stripTags_blank (s : str) : blank s -> SecurityValidator.stripTags false s = s.
Proof.
  induction 1 as [|c s Hc _ IH]; simpl; [reflexivity|].
  assert (E : SecurityValidator.isLt c = false) by (revert Hc; all_chars c).
  now rewrite E, IH.
Qed.

Lemma removeDangerous_blank (s : str) : blank s -> SecurityValidator.removeDangerous s = s.
Proof.
  induction 1 as [|c s Hc _ IH]; simpl; [reflexivity|].
  assert (E : SecurityValidator.isDangerous c = false) by (revert Hc; all_chars c).
  unfold SecurityValidator.removeDangerous in *. simpl. now rewrite E, IH.
Qed.

Lemma collapse_blank (s : str) : forall b, blank s -> blank (collapseFrom b s).
Proof.
  induction s as [|c s IH]; intros b Hs; simpl; [constructor|].
  inversion Hs as [|? ? Hc Hs']; subst. rewrite Hc.
  destruct b; [now apply IH|]. constructor; [reflexivity | now apply IH].
Qed.

Lemma dropWhile_blank (s : str) : blank s -> dropWhile isSpace s = [].
Proof. induction 1 as [|c s Hc _ IH]; simpl; [reflexivity|]. now rewrite Hc. Qed.

Lemma trim_blank (s : str) : blank s -> trim s = [].
Proof. intro H. unfold trim, trimStart. now rewrite (dropWhile_blank s H). Qed.

Lemma sanitize_blank (s : str) (w : World) :
  blank s -> (length s <= 200)%nat -> fst (SecurityValidator.sanitize s w) = Ok [].
Proof.
  intros Hs Hlen. unfold SecurityValidator.sanitize.
  destruct s as [|c s]; [reflexivity|].
  assert (E : (SecurityValidator.MAX_INPUT_LENGTH <? length (c :: s))%nat = false)
    by (apply Nat.ltb_ge; exact Hlen).
  rewrite E. unfold bind, SecurityValidator.testSqlInjection.
  destruct patterns_need_ink as [Hsql Hblocked].
  rewrite (testAny_blank _ (c :: s) _ Hsql Hs).
  unfold SecurityValidator.testBlocked.
  rewrite (testAny_blank _ (c :: s) _ Hblocked Hs).
  unfold ret. cbn [fst]. f_equal. unfold SecurityValidator.cleaned.
  rewrite (stripTags_blank _ Hs), (removeDangerous_blank _ Hs).
  apply trim_blank. now apply collapse_blank.
Qed.

(** ** The admission check of [SearchService] *)

Lemma rateLimitCheck_run (clientId : str) (maxRequests windowMs : Z) (w : World) :
  SearchService.rateLimitCheck clientId maxRequests windowMs w
  = let chk := SecurityValidator.checkRateLimit (clock w (ticks w)) clientId
                 (ss_rateLimit (searchService w)) maxRequests windowMs in
    (Ok (fst chk),
     mkWorld (clock w) (S (ticks w)) (regexState w) (locationService w)
             (mkSearchService (ss_searchIndex (searchService w)) (snd chk))).
Proof.
  unfold SearchService.rateLimitCheck, bind, dateNow, gets, modify, ret. cbn.
  now destruct (SecurityValidator.checkRateLimit _ _ _ _ _).
Qed.

Lemma rateLimitCheck_admitted (clientId : str) (maxRequests : Z) (w : World) :
  admitted clientId maxRequests w ->
  SearchService.rateLimitCheck clientId maxRequests 60000 w
  = (Ok true, afterRateLimit clientId maxRequests w).
Proof.
  intro H. unfold afterRateLimit. rewrite rateLimitCheck_run. cbn zeta.
  unfold admitted in H. now rewrite H.
Qed.

(** ** C6: [autocomplete] on short queries *)

(** C6, as stated, fails: a query whose sanitized form has fewer than two
    characters is answered with the empty list, without any error, when the
    query itself is empty or has two characters or more. *)
Lemma autocomplete_short_query_counterexample :
  let w := startWorld tickingClock [sampleRecord] in
  fst (SecurityValidator.sanitizeSearchQuery (lit "M ") w) = Ok (lit "M")
  /\ fst (SearchService.autocomplete (lit "M ") (lit "client") 10 w) = Ok []
  /\ fst (SearchService.autocomplete [] (lit "client") 10 w) = Ok [].
Proof. by_evaluation. Qed.

(** C6, amended.  For an admitted client, [autocomplete] fails (with the
    sanitizer's error that the query must have at least two characters)
    exactly on the short queries that the sanitizer refuses, that is when
    the query itself has one character; when the query is empty, or is
    accepted by the sanitizer with a sanitized form of fewer than two
    characters, [autocomplete] returns the empty list and no error. *)
Theorem autocomplete_short_query (w : World) (query clientId : str) (limit : Z) :
  admitted clientId 50 w ->
  let w1 := afterRateLimit clientId 50 w in
  (length query = 1%nat ->
   SearchService.autocomplete query clientId limit w = (Throw SearchQueryTooShort, w1))
  /\ (query = [] -> SearchService.autocomplete query clientId limit w = (Ok [], w1))
  /\ (forall sanitized w2,
        SecurityValidator.sanitizeSearchQuery query w1 = (Ok sanitized, w2) ->
        (length sanitized < 2)%nat ->
        SearchService.autocomplete query clientId limit w = (Ok [], w2)).
Proof.
  intros Hadm w1.
  assert (Hrun : forall k : bool -> M (list str),
             bind (SearchService.rateLimitCheck clientId 50 60000) k w = k true w1).
  { intro k. unfold bind. now rewrite (rateLimitCheck_admitted clientId 50 w Hadm). }
  unfold SearchService.autocomplete. rewrite Hrun. cbn [negb].
  assert (Hshort : forall sanitized w2,
             SecurityValidator.sanitizeSearchQuery query w1 = (Ok sanitized, w2) ->
             (length sanitized < 2)%nat ->
             bind (SecurityValidator.sanitizeSearchQuery query)
                  (fun sanitized =>
                     if negb (SearchService.nonEmpty sanitized) || (length sanitized <? 2)%nat
                     then ret []
                     else bind (gets (fun w => ss_searchIndex (searchService w)))
                               (fun index =>
                                  ret (SearchService.autocompleteAnswer index sanitized limit)))
                  w1 = (Ok [], w2)).
  { intros sanitized w2 Hs Hlen. unfold bind at 1. rewrite Hs.
    apply Nat.ltb_lt in Hlen. rewrite Hlen, orb_true_r. reflexivity. }
  split; [|split].
  - intro Hlen. destruct query as [|c [|c' query]]; try discriminate.
    reflexivity.
  - intro Hq. subst query. apply (Hshort [] w1); [reflexivity | simpl; lia].
  - exact Hshort.
Qed.

Lemma autocomplete_short_query_witness :
  let w := startWorld tickingClock [sampleRecord] in
  SearchService.autocomplete (lit "M") (lit "client") 10 w
  = (Throw SearchQueryTooShort, afterRateLimit (lit "client") 50 w).
Proof.
  intro w.
  refine (proj1 (autocomplete_short_query w (lit "M") (lit "client") 10 _) _);
    reflexivity.
Defined.

(** ** C7: [search] on blank queries *)

(** C7, as stated, fails: a query of one white-space character is refused
    with the error that a query must have at least two characters. *)
Lemma search_blank_query_counterexample :
  fst (SearchService.search (lit " ") noOptions (lit "client")
                            (startWorld tickingClock [sampleRecord]))
  = Throw SearchQueryTooShort.
Proof. vm_compute. reflexivity. Qed.

(** C7, amended.  For an admitted client and a white-space-only query:
    [search] returns the empty result, and no error, when the query is empty
    or has between 2 and 100 characters; a query of one white-space character
    is refused as too short and one of more than 100 as too long. *)
Theorem search_blank_query (w : World) (query : str) (options : SearchOptions)
        (clientId : str) :
  admitted clientId 30 w ->
  blank query ->
  ((query = [] \/ (2 <= length query <= 100)%nat) ->
   fst (SearchService.search query options clientId w) = Ok [])
  /\ (length query = 1%nat ->
      fst (SearchService.search query options clientId w) = Throw SearchQueryTooShort)
  /\ ((100 < length query)%nat ->
      fst (SearchService.search query options clientId w) = Throw SearchQueryTooLong).
Proof.
  intros Hadm Hblank.
  set (w1 := afterRateLimit clientId 30 w).
  assert (Hrun : forall k : bool -> M (list SearchResult),
             bind (SearchService.rateLimitCheck clientId 30 60000) k w = k true w1).
  { intro k. unfold bind. now rewrite (rateLimitCheck_admitted clientId 30 w Hadm). }
  unfold SearchService.search. rewrite Hrun. cbn [negb].
  split; [|split].
  - intros [Hq|[Hlo Hhi]].
    + subst query. reflexivity.
    + unfold bind at 1, SecurityValidator.sanitizeSearchQuery.
      destruct query as [|c query]; [reflexivity|].
      assert (E1 : (SecurityValidator.MAX_SEARCH_LENGTH <? length (c :: query))%nat = false)
        by (apply Nat.ltb_ge; exact Hhi).
      assert (E2 : (length (c :: query) <? 2)%nat = false)
        by (apply Nat.ltb_ge; exact Hlo).
      rewrite E1, E2.
      assert (Hlen : (length (c :: query) <= 200)%nat) by lia.
      pose proof (sanitize_blank (c :: query) w1 Hblank Hlen) as Hs.
      destruct (SecurityValidator.sanitize (c :: query) w1) as [out w2].
      simpl in Hs. subst out. reflexivity.
  - intro Hlen. destruct query as [|c [|c' query]]; try discriminate. reflexivity.
  - intro Hlen. unfold bind at 1, SecurityValidator.sanitizeSearchQuery.
    destruct query as [|c query]; [simpl in Hlen; lia|].
    assert (E1 : (SecurityValidator.MAX_SEARCH_LENGTH <? length (c :: query))%nat = true)
      by (apply Nat.ltb_lt; exact Hlen).
    now rewrite E1.
Qed.

Lemma search_blank_query_witness :
  fst (SearchService.search (lit "   ") noOptions (lit "client")
                            (startWorld tickingClock [sampleRecord]))
  = Ok [].
Proof.
  refine (proj1 (search_blank_query (startWorld tickingClock [sampleRecord]) (lit "   ")
                                    noOptions (lit "client") _ _) _).
  - reflexivity.
  - repeat constructor.
  - right. simpl. lia.
Defined.

(** ** C3: the limiter state of [autocomplete] and [search] *)

Lemma checkRateLimit_frame (now : Z) (identifier : str) (requests : JsMap.t (list Z))
      (maxRequests windowMs : Z) :
  let chk := SecurityValidator.checkRateLimit now identifier requests maxRequests windowMs in
  (fst chk = false -> snd chk = requests)
  /\ (forall other, identifier <> other -> JsMap.get (snd chk) other = JsMap.get requests other).
Proof.
  unfold SecurityValidator.checkRateLimit.
  destruct (JsMap.get requests identifier) as [recorded|].
  - destruct (maxRequests <=? _)%Z; simpl; split; try discriminate; try reflexivity.
    intros other H. now apply get_set_other.
  - simpl. split; [discriminate|]. intros other H. now apply get_set_other.
Qed.

Ltac run_admission res chk :=
  match goal with
  | Hres : res = _ |- _ =>
      unfold bind at 1 in Hres; rewrite rateLimitCheck_run in Hres;
      cbn zeta in Hres; fold chk in Hres
  end.

Ltac run_sanitizer query Hres :=
  unfold bind at 1 in Hres;
  match type of Hres with
  | context [SecurityValidator.sanitizeSearchQuery query ?w1] =>
      let rs := fresh "rs" in
      let Hrs := fresh "Hrs" in
      let Hne := fresh "Hne" in
      let out := fresh "out" in
      let w2 := fresh "w2" in
      destruct (sanitizeSearchQuery_frame query w1) as [[rs Hrs] Hne];
      destruct (SecurityValidator.sanitizeSearchQuery query w1) as [out w2];
      simpl in Hrs, Hne; subst w2
  end.

Lemma search_effect (w : World) (query : str) (options : SearchOptions) (clientId : str) :
  let chk := SecurityValidator.checkRateLimit (clock w (ticks w)) clientId
               (ss_rateLimit (searchService w)) 30 60000 in
  ss_rateLimit (searchService (snd (SearchService.search query options clientId w))) = snd chk
  /\ (fst (SearchService.search query options clientId w) = Throw RateLimitExceeded
      <-> fst chk = false).
Proof.
  intro chk.
  remember (SearchService.search query options clientId w) as res eqn:Hres.
  unfold SearchService.search in Hres. run_admission res chk.
  destruct (fst chk) eqn:E; cbn [negb] in Hres.
  - run_sanitizer query Hres.
    destruct out as [sanitized|e].
    + destruct (negb (SearchService.nonEmpty sanitized));
        unfold bind, gets, ret in Hres; simpl in Hres; subst res; simpl;
        (split; [reflexivity | split; intro H; discriminate H]).
    + subst res. simpl. split; [reflexivity|].
      split; [intro H; congruence | intro H; discriminate H].
  - subst res. simpl. split; [reflexivity | tauto].
Qed.

Lemma autocomplete_effect (w : World) (query clientId : str) (limit : Z) :
  let chk := SecurityValidator.checkRateLimit (clock w (ticks w)) clientId
               (ss_rateLimit (searchService w)) 50 60000 in
  ss_rateLimit (searchService (snd (SearchService.autocomplete query clientId limit w)))
  = snd chk
  /\ (fst (SearchService.autocomplete query clientId limit w) = Throw RateLimitExceeded
      <-> fst chk = false).
Proof.
  intro chk.
  remember (SearchService.autocomplete query clientId limit w) as res eqn:Hres.
  unfold SearchService.autocomplete in Hres. run_admission res chk.
  destruct (fst chk) eqn:E; cbn [negb] in Hres.
  - run_sanitizer query Hres.
    destruct out as [sanitized|e].
    + destruct (negb (SearchService.nonEmpty sanitized) || (length sanitized <? 2)%nat);
        unfold bind, gets, ret in Hres; simpl in Hres; subst res; simpl;
        (split; [reflexivity | split; intro H; discriminate H]).
    + subst res. simpl. split; [reflexivity|].
      split; [intro H; congruence | intro H; discriminate H].
  - subst res. simpl. split; [reflexivity | tauto].
Qed.

(** C3, as stated, fails in both directions: thirty admitted [autocomplete]
    calls make the next [search] of the client fail, which alone would be
    admitted; and thirty [search] calls followed by twenty [autocomplete]
    calls make the next [autocomplete] fail, which after the twenty
    [autocomplete] calls alone would be admitted. *)
Lemma limiters_share_state_counterexample :
  let w := startWorld tickingClock [sampleRecord] in
  let c := lit "client" in
  let auto := SearchService.autocomplete (lit "te") c 10 in
  let find := SearchService.search (lit "te") noOptions c in
  fst (find w) = Ok []
  /\ fst ((times 30 auto ;; find) w) = Throw RateLimitExceeded
  /\ fst ((times 20 auto ;; auto) w) = Ok []
  /\ fst ((times 30 find ;; times 20 auto ;; auto) w) = Throw RateLimitExceeded.
Proof. by_evaluation. Qed.

(** C3, amended.  [autocomplete] and [search] differ in the maximum (50 and
    30 requests per 60 s) but check and update one and the same per-client
    window of the service: each leaves in it exactly what [checkRateLimit]
    with its own maximum makes of the window as it stands, whichever of the
    two recorded the times in it, and fails with the rate-limit error exactly
    when that check denies.  What is framed: a denied call records nothing,
    and a call never changes the window, and so the admission, of another
    client. *)
Theorem limiters_share_one_window (w : World) (query clientId : str)
        (options : SearchOptions) (limit : Z) :
  let now := clock w (ticks w) in
  let requests := ss_rateLimit (searchService w) in
  let bySearch := SecurityValidator.checkRateLimit now clientId requests 30 60000 in
  let byAuto := SecurityValidator.checkRateLimit now clientId requests 50 60000 in
  let search := SearchService.search query options clientId w in
  let auto := SearchService.autocomplete query clientId limit w in
  (ss_rateLimit (searchService (snd search)) = snd bySearch
   /\ (fst search = Throw RateLimitExceeded <-> fst bySearch = false))
  /\ (ss_rateLimit (searchService (snd auto)) = snd byAuto
      /\ (fst auto = Throw RateLimitExceeded <-> fst byAuto = false))
  /\ (fst search = Throw RateLimitExceeded ->
      ss_rateLimit (searchService (snd search)) = requests)
  /\ (fst auto = Throw RateLimitExceeded ->
      ss_rateLimit (searchService (snd auto)) = requests)
  /\ (forall other, clientId <> other ->
        JsMap.get (ss_rateLimit (searchService (snd search))) other = JsMap.get requests other
        /\ JsMap.get (ss_rateLimit (searchService (snd auto))) other = JsMap.get requests other).
Proof.
  intros now requests bySearch byAuto search auto.
  destruct (search_effect w query options clientId) as [Hs1 Hs2].
  destruct (autocomplete_effect w query clientId limit) as [Ha1 Ha2].
  cbn zeta in *. fold now requests bySearch search in Hs1, Hs2.
  fold now requests byAuto auto in Ha1, Ha2.
  destruct (checkRateLimit_frame now clientId requests 30 60000) as [Fs1 Fs2].
  destruct (checkRateLimit_frame now clientId requests 50 60000) as [Fa1 Fa2].
  cbn zeta in *. fold bySearch in Fs1, Fs2. fold byAuto in Fa1, Fa2.
  repeat split; try tauto.
  - intro H. rewrite Hs1. apply Fs1. tauto.
  - intro H. rewrite Ha1. apply Fa1. tauto.
  - rewrite Hs1. now apply Fs2.
  - rewrite Ha1. now apply Fa2.
Qed.

Lemma limiters_share_one_window_witness :
  let w := startWorld tickingClock [sampleRecord] in
  JsMap.get (ss_rateLimit (searchService
               (snd (SearchService.search (lit "te") noOptions (lit "client") w))))
            (lit "visitor")
  = JsMap.get (ss_rateLimit (searchService w)) (lit "visitor").
Proof.
  intro w.
  pose proof (limiters_share_one_window w (lit "te") (lit "client") noOptions 10) as H.
  cbv zeta in H. destruct H as (_ & _ & _ & _ & H).
  refine (proj1 (H (lit "visitor") _)).
  vm_compute. discriminate.
Defined.

(** ** The cache layer *)

Lemma sanitize_value (name : str) (w w' : World) (sanitized : str) :
  SecurityValidator.sanitize name w = (Ok sanitized, w') ->
  sanitized = SecurityValidator.cleaned name /\ locationService w' = locationService w.
Proof.
  intro H.
  destruct (sanitize_frame name w) as [[rs Hrs] _]. rewrite H in Hrs. simpl in Hrs.
  split; [|now subst w'].
  revert H. unfold SecurityValidator.sanitize.
  destruct name as [|c name]; [intro H; now inversion H|].
  destruct (SecurityValidator.MAX_INPUT_LENGTH <? length (c :: name))%nat;
    [intro H; discriminate H|].
  unfold bind, SecurityValidator.testSqlInjection.
  destruct (testAny SecurityValidator.SQL_INJECTION_PATTERNS _ _) as [sql st1].
  destruct sql; [intro H; discriminate H|].
  unfold SecurityValidator.testBlocked.
  destruct (testAny SecurityValidator.BLOCKED_PATTERNS _ _) as [blocked st2].
  destruct blocked; [intro H; discriminate H|].
  intro H. now inversion H.
Qed.

(** A lookup of a present key answers the stored value and refreshes its
    access time. *)
Lemma getFromCache_present (key : str) (v : CacheValue) (w : World) :
  JsMap.get (ls_cache (locationService w)) key = Some v ->
  LocationService.getFromCache key w
  = (Ok (Some v),
     snd (LocationService.setCache
            (ls_cache (locationService w))
            (JsMap.set (ls_cacheAccessTimes (locationService w)) key (clock w (ticks w)))
            (snd (dateNow w)))).
Proof.
  intro H.
  unfold LocationService.getFromCache, LocationService.this, bind, gets.
  unfold JsMap.has. rewrite H. reflexivity.
Qed.

Lemma getFromCache_ok (key : str) (w : World) :
  exists v w', LocationService.getFromCache key w = (Ok v, w').
Proof.
  unfold LocationService.getFromCache, LocationService.this, bind, gets.
  destruct (JsMap.has _ _); eexists; eexists; reflexivity.
Qed.

Lemma manageCacheSize_ok (w : World) :
  exists w', LocationService.manageCacheSize w = (Ok tt, w').
Proof.
  unfold LocationService.manageCacheSize, LocationService.this, bind, gets.
  destruct (_ <=? _)%nat; [|eexists; reflexivity].
  cbn. destruct (SearchService.nonEmpty _); eexists; reflexivity.
Qed.

(** A store never fails and leaves the value under the key. *)
Lemma setToCache_stores (key : str) (v : CacheValue) (w : World) :
  exists w', LocationService.setToCache key v w = (Ok tt, w')
             /\ JsMap.get (ls_cache (locationService w')) key = Some v.
Proof.
  unfold LocationService.setToCache. unfold bind at 1.
  destruct (manageCacheSize_ok w) as [w1 H1]. rewrite H1.
  unfold LocationService.this, bind, gets, dateNow, LocationService.setCache, modify.
  cbn. eexists. split; [reflexivity|]. cbn. apply get_set_same.
Qed.




(** *** The bound when the clock advances *)

Lemma has_iff_in_keys {V} (m : JsMap.t V) (k : str) :
  JsMap.has m k = true <-> In k (JsMap.keys m).
Proof.
  unfold JsMap.has. induction m as [|[k' v'] m IH]; simpl.
  - split; [discriminate | contradiction].
  - destruct (eqs k' k) eqn:E.
    + apply eqs_iff in E. subst. split; auto.
    + apply eqs_false_iff in E. rewrite IH. split; [auto | intros [H|H]; [contradiction | exact H]].
Qed.

Lemma keys_set {V} (m : JsMap.t V) (k : str) (v : V) :
  JsMap.keys (JsMap.set m k v) = if JsMap.has m k then JsMap.keys m else JsMap.keys m ++ [k].
Proof.
  unfold JsMap.has. induction m as [|[k' v'] m IH]; simpl; [reflexivity|].
  destruct (eqs k' k) eqn:E; simpl.
  - reflexivity.
  - rewrite IH. now destruct (JsMap.get m k).
Qed.

Lemma size_set {V} (m : JsMap.t V) (k : str) (v : V) :
  JsMap.size (JsMap.set m k v)
  = if JsMap.has m k then JsMap.size m else S (JsMap.size m).
Proof.
  unfold JsMap.size. rewrite <- !(length_map fst). fold (JsMap.keys (JsMap.set m k v)).
  fold (JsMap.keys m). rewrite keys_set.
  destruct (JsMap.has m k); [reflexivity|]. rewrite length_app. simpl. lia.
Qed.

Lemma in_set {V} (m : JsMap.t V) (k k' : str) (v v' : V) :
  In (k', v') (JsMap.set m k v) -> (k' = k /\ v' = v) \/ In (k', v') m.
Proof.
  induction m as [|[k0 v0] m IH]; simpl.
  - intros [H|[]]. inversion H. auto.
  - destruct (eqs k0 k) eqn:E; simpl.
    + apply eqs_iff in E. subst. intros [H|H]; [inversion H; auto | auto].
    + intros [H|H]; [auto | destruct (IH H); auto].
Qed.

Lemma in_delete {V} (m : JsMap.t V) (k k' : str) (v' : V) :
  In (k', v') (JsMap.delete m k) -> In (k', v') m.
Proof.
  induction m as [|[k0 v0] m IH]; simpl; [auto|].
  destruct (eqs k0 k); simpl; [auto|]. intros [H|H]; auto.
Qed.

Lemma keys_delete {V} (m : JsMap.t V) (k k' : str) :
  NoDup (JsMap.keys m) ->
  (In k' (JsMap.keys (JsMap.delete m k)) <-> In k' (JsMap.keys m) /\ k' <> k).
Proof.
  induction m as [|[k0 v0] m IH]; simpl; intro Hnd.
  - tauto.
  - inversion Hnd as [|? ? Hnotin Hnd']; subst.
    destruct (eqs k0 k) eqn:E; simpl.
    + apply eqs_iff in E. subst k0. split.
      * intro H. split; [auto|]. intro; subst. contradiction.
      * intros [[H|H] Hne]; [congruence | exact H].
    + apply eqs_false_iff in E. rewrite (IH Hnd'). split.
      * intros [H|[H Hne]]; [subst; auto | auto].
      * intros [[H|H] Hne]; [auto | auto].
Qed.

Lemma nodup_delete {V} (m : JsMap.t V) (k : str) :
  NoDup (JsMap.keys m) -> NoDup (JsMap.keys (JsMap.delete m k)).
Proof.
  induction m as [|[k0 v0] m IH]; simpl; intro Hnd; [constructor|].
  inversion Hnd as [|? ? Hnotin Hnd']; subst.
  destruct (eqs k0 k); simpl; [exact Hnd'|].
  constructor; [|now apply IH].
  intro H. apply (keys_delete m k k0 Hnd') in H. tauto.
Qed.

Lemma nodup_set {V} (m : JsMap.t V) (k : str) (v : V) :
  NoDup (JsMap.keys m) -> NoDup (JsMap.keys (JsMap.set m k v)).
Proof.
  intro Hnd. rewrite keys_set. destruct (JsMap.has m k) eqn:E; [exact Hnd|].
  apply NoDup_app; [exact Hnd | repeat constructor; auto |].
  intros x Hx [Hk|[]]. subst x. apply has_iff_in_keys in Hx. congruence.
Qed.

Lemma size_delete {V} (m : JsMap.t V) (k : str) :
  In k (JsMap.keys m) -> S (JsMap.size (JsMap.delete m k)) = JsMap.size m.
Proof.
  unfold JsMap.size. induction m as [|[k0 v0] m IH]; simpl; [contradiction|].
  destruct (eqs k0 k) eqn:E; simpl; [reflexivity|].
  intros [H|H]; [subst; rewrite eqs_refl in E; discriminate | now rewrite IH].
Qed.

(** ** The scan of [manageCacheSize] *)

Lemma oldest_spec (now : Z) (times : JsMap.t Z) :
  forall acc : str * Z,
    let r := fold_left (fun acc kt =>
                          let (key, time) := (kt : str * Z) in
                          if (time <? snd acc)%Z then (key, time) else acc)
                       times acc in
    (r = acc \/ In r times)
    /\ (snd r <= snd acc)%Z
    /\ (forall k t, In (k, t) times -> (snd r <= t)%Z).
Proof.
  induction times as [|[k0 t0] times IH]; intros acc; simpl.
  - split; [now left|]. split; [lia | contradiction].
  - destruct (t0 <? snd acc)%Z eqn:E.
    + apply Z.ltb_lt in E.
      destruct (IH (k0, t0)) as (H1 & H2 & H3). cbn zeta in *. simpl in H2.
      split; [|split].
      * destruct H1 as [H1|H1]; [right; left; now rewrite H1 | right; now right].
      * lia.
      * intros k t [H|H]; [inversion H; subst; exact H2 | now apply H3 with k].
    + apply Z.ltb_ge in E.
      destruct (IH acc) as (H1 & H2 & H3). cbn zeta in *.
      split; [|split].
      * destruct H1 as [H1|H1]; [now left | right; now right].
      * exact H2.
      * intros k t [H|H]; [inversion H; subst; lia | now apply H3 with k].
Qed.

(** When some entry was accessed before [now], the scan ends on an entry of
    the map, and on one whose access time no other entry undercuts. *)
Lemma oldest_found (now : Z) (times : JsMap.t Z) (k0 : str) (t0 : Z) :
  In (k0, t0) times -> (t0 < now)%Z ->
  In (LocationService.oldest now times) times
  /\ forall k t, In (k, t) times -> (snd (LocationService.oldest now times) <= t)%Z.
Proof.
  intros Hin Hlt. unfold LocationService.oldest, JsMap.entries.
  destruct (oldest_spec now times ([], now)) as (H1 & H2 & H3). cbn zeta in *.
  split; [|exact H3].
  destruct H1 as [H1|H1]; [|exact H1].
  specialize (H3 k0 t0 Hin). rewrite H1 in H3. simpl in H3. lia.
Qed.

Lemma manageCacheSize_run (w : World) :
  LocationService.manageCacheSize w = (Ok tt, managed w).
Proof.
  unfold LocationService.manageCacheSize, managed, evicted, cacheOf,
    LocationService.this, bind, gets.
  destruct (_ <=? _)%nat; [|destruct w as [c t r [] s]; reflexivity].
  cbn. destruct (SearchService.nonEmpty _); [reflexivity|].
  now destruct w as [c t r [] s].
Qed.

Lemma setToCache_run (key : str) (value : CacheValue) (w : World) :
  LocationService.setToCache key value w = (Ok tt, stored key value (managed w)).
Proof.
  unfold LocationService.setToCache. unfold bind at 1. rewrite manageCacheSize_run.
  reflexivity.
Qed.

Lemma getFromCache_run (key : str) (w : World) :
  snd (LocationService.getFromCache key w)
  = if JsMap.has (cacheOf w) key then touched key w else w.
Proof.
  unfold LocationService.getFromCache, LocationService.this, bind, gets, cacheOf.
  destruct (JsMap.has _ _); reflexivity.
Qed.

Section AdvancingClock.

Variable w : World.
Hypothesis clock_advances : advancing (clock w).
Hypothesis bound_positive : (1 <= ls_maxCacheSize (locationService w))%nat.
Hypothesis inv : cacheInv w.

Lemma in_keys {V} (m : JsMap.t V) (k : str) : In k (JsMap.keys m) -> exists v, In (k, v) m.
Proof.
  unfold JsMap.keys. intro H. apply in_map_iff in H as [[k' v] [E H]].
  simpl in E. subst. now exists v.
Qed.

Lemma in_entries_keys {V} (m : JsMap.t V) (k : str) (v : V) :
  In (k, v) m -> In k (JsMap.keys m).
Proof. intro H. unfold JsMap.keys. apply in_map_iff. now exists (k, v). Qed.

Lemma times_before (k : str) (t : Z) (n : nat) :
  In (k, t) (timesOf w) -> (ticks w <= n)%nat -> (t < clock w n)%Z.
Proof.
  intros H Hn. destruct inv as (_ & _ & _ & Ht & _).
  destruct (Ht k t H) as [_ Hlt].
  destruct (Nat.eq_dec (ticks w) n) as [E|Hne]; [rewrite <- E; exact Hlt|].
  assert (clock w (ticks w) < clock w n)%Z by (apply clock_advances; lia). lia.
Qed.

Lemma evicted_inv :
  (ls_maxCacheSize (locationService w) <= JsMap.size (cacheOf w))%nat ->
  cacheInv (evicted w)
  /\ (JsMap.size (cacheOf (evicted w)) < ls_maxCacheSize (locationService w))%nat.
Proof.
  intro Hfull. destruct inv as (Hc & Ht & Hsame & Htimes & Hsize).
  (* the cache is not empty, so some entry was accessed before now *)
  assert (Hsome : exists k t, In (k, t) (timesOf w)).
  { unfold JsMap.size in *. destruct (cacheOf w) as [|[k v] rest] eqn:E; [simpl in *; lia|].
    assert (In k (JsMap.keys (timesOf w))) as Hk.
    { apply Hsame. now left. }
    apply in_keys in Hk as [t Hk]. now exists k, t. }
  destruct Hsome as (k0 & t0 & H0).
  destruct (oldest_found (clock w (ticks w)) (timesOf w) k0 t0 H0) as [Hv _].
  { now apply (Htimes k0 t0). }
  unfold evicted. fold (timesOf w). fold (cacheOf w).
  destruct (LocationService.oldest (clock w (ticks w)) (timesOf w)) as [victim tv] eqn:Ev.
  cbn [fst]. destruct (Htimes victim tv Hv) as [Hne _].
  assert (E : SearchService.nonEmpty victim = true).
  { unfold SearchService.nonEmpty. apply negb_true_iff. now apply eqs_false_iff. }
  rewrite E.
  assert (Hvc : In victim (JsMap.keys (cacheOf w))).
  { apply Hsame. now apply in_entries_keys with tv. }
  unfold cacheInv, cacheOf, timesOf in *. cbn.
  pose proof (size_delete (ls_cache (locationService w)) victim Hvc) as Hd.
  unfold JsMap.size in *.
  split; [|lia].
  split; [now apply nodup_delete|]. split; [now apply nodup_delete|].
  split; [|split].
  - intro k. rewrite (keys_delete _ victim k Hc), (keys_delete _ victim k Ht).
    now rewrite Hsame.
  - intros k t H. apply in_delete in H. split; [now apply (Htimes k t)|].
    apply (times_before k t (S (ticks w))); [exact H | lia].
  - lia.
Qed.

Lemma managed_inv :
  cacheInv (managed w)
  /\ (JsMap.size (cacheOf (managed w)) < ls_maxCacheSize (locationService w))%nat
  /\ clock (managed w) = clock w
  /\ ls_maxCacheSize (locationService (managed w)) = ls_maxCacheSize (locationService w).
Proof.
  unfold managed.
  destruct (_ <=? _)%nat eqn:E.
  - apply Nat.leb_le in E. destruct (evicted_inv E) as [H1 H2].
    split; [exact H1|]. split; [exact H2|]. split; [reflexivity|].
    unfold evicted. cbn. now destruct (SearchService.nonEmpty _).
  - apply Nat.leb_gt in E. auto.
Qed.

End AdvancingClock.

Lemma in_keys_set {V} (m : JsMap.t V) (key k : str) (v : V) :
  In k (JsMap.keys (JsMap.set m key v)) <-> In k (JsMap.keys m) \/ k = key.
Proof.
  rewrite keys_set. destruct (JsMap.has m key) eqn:E.
  - apply has_iff_in_keys in E. split; [auto | intros [H|H]; [exact H | now subst]].
  - rewrite in_app_iff. simpl. intuition.
Qed.

Lemma stored_inv (key : str) (value : CacheValue) (w : World) :
  advancing (clock w) -> cacheInv w -> key <> [] ->
  (JsMap.size (cacheOf w) < ls_maxCacheSize (locationService w))%nat ->
  cacheInv (stored key value w).
Proof.
  intros Hadv (Hc & Ht & Hsame & Htimes & Hsize) Hkey Hroom.
  unfold cacheInv, stored, cacheOf, timesOf in *.
  cbn [locationService ls_cache ls_cacheAccessTimes ls_maxCacheSize clock ticks].
  split; [now apply nodup_set|]. split; [now apply nodup_set|].
  split; [|split].
  - intro k. rewrite !in_keys_set. now rewrite Hsame.
  - assert (Hnext : (clock w (ticks w) < clock w (S (ticks w)))%Z) by (apply Hadv; lia).
    intros k t H. apply in_set in H as [[-> ->]|H]; [split; [exact Hkey | exact Hnext]|].
    destruct (Htimes k t H). split; [assumption | lia].
  - pose proof (size_set (ls_cache (locationService w)) key value) as Hs.
    unfold JsMap.size in *. destruct (JsMap.has _ _); lia.
Qed.

Lemma touched_inv (key : str) (w : World) :
  advancing (clock w) -> cacheInv w -> JsMap.has (cacheOf w) key = true ->
  cacheInv (touched key w).
Proof.
  intros Hadv (Hc & Ht & Hsame & Htimes & Hsize) Hhas.
  apply has_iff_in_keys in Hhas.
  assert (Hkt : In key (JsMap.keys (timesOf w))) by now apply Hsame.
  unfold cacheInv, touched, cacheOf, timesOf in *.
  cbn [locationService ls_cache ls_cacheAccessTimes ls_maxCacheSize clock ticks].
  split; [exact Hc|]. split; [now apply nodup_set|].
  split; [|split; [|exact Hsize]].
  - intro k. rewrite in_keys_set, Hsame. split; [auto | intros [H|H]; [exact H | now subst]].
  - assert (Hnext : (clock w (ticks w) < clock w (S (ticks w)))%Z) by (apply Hadv; lia).
    intros k t H. apply in_set in H as [[-> ->]|H].
    + split; [|exact Hnext]. apply in_keys in Hkt as [t' Hkt]. now apply (Htimes key t').
    + destruct (Htimes k t H). split; [assumption | lia].
Qed.

Lemma runOp_inv (op : CacheOp) (w : World) :
  advancing (clock w) -> (1 <= ls_maxCacheSize (locationService w))%nat -> cacheInv w ->
  (forall key value, op = OpSet key value -> key <> []) ->
  exists w', runOp op w = (Ok tt, w')
             /\ cacheInv w' /\ clock w' = clock w
             /\ ls_maxCacheSize (locationService w') = ls_maxCacheSize (locationService w).
Proof.
  intros Hadv Hmax Hinv Hkey. destruct op as [key|key value]; simpl.
  - unfold bind. pose proof (getFromCache_run key w) as Hrun.
    destruct (LocationService.getFromCache key w) as [[v|e] w'] eqn:E.
    + simpl in Hrun. subst w'. eexists. split; [reflexivity|].
      destruct (JsMap.has (cacheOf w) key) eqn:Hhas.
      * split; [now apply touched_inv | split; reflexivity].
      * auto.
    + exfalso. destruct (getFromCache_ok key w) as (v & w'' & H). congruence.
  - rewrite setToCache_run. eexists. split; [reflexivity|].
    destruct (managed_inv w Hadv Hmax Hinv) as (H1 & H2 & H3 & H4).
    split; [|split].
    + apply stored_inv; [now rewrite H3 | exact H1 | now apply (Hkey key value) | now rewrite H4].
    + exact H3.
    + exact H4.
Qed.

(** A run of lookups and stores keeps the invariant of the cache layer. *)
Lemma runOps_bound (ops : list CacheOp) :
  forall w,
    advancing (clock w) -> (1 <= ls_maxCacheSize (locationService w))%nat ->
    cacheInv w -> setsNonEmptyKeys ops ->
    fst (runOps ops w) = Ok tt
    /\ cacheInv (snd (runOps ops w))
    /\ (JsMap.size (cacheOf (snd (runOps ops w))) <= ls_maxCacheSize (locationService w))%nat.
Proof.
  induction ops as [|op ops IH]; intros w Hadv Hmax Hinv Hkeys.
  - simpl. split; [reflexivity|]. split; [exact Hinv|]. now destruct Hinv as (_ & _ & _ & _ & H).
  - simpl. unfold bind.
    destruct (runOp_inv op w Hadv Hmax Hinv) as (w' & Hrun & Hinv' & Hclock & Hsame).
    { intros key value ->. apply (Hkeys key value). now left. }
    rewrite Hrun.
    destruct (IH w') as (H1 & H2 & H3).
    + now rewrite Hclock.
    + now rewrite Hsame.
    + exact Hinv'.
    + intros key value H. apply (Hkeys key value). now right.
    + rewrite <- Hsame. auto.
Qed.

(** With a clock that advances at every reading, the cache stays within its
    bound over every sequence of lookups and stores of non-empty keys. *)
Theorem cache_bound_when_clock_advances (ops : list CacheOp) (w : World) :
  advancing (clock w) -> (1 <= ls_maxCacheSize (locationService w))%nat ->
  cacheInv w -> setsNonEmptyKeys ops ->
  fst (runOps ops w) = Ok tt
  /\ cacheInv (snd (runOps ops w))
  /\ (JsMap.size (cacheOf (snd (runOps ops w))) <= ls_maxCacheSize (locationService w))%nat.
Proof. apply runOps_bound. Qed.

(** At a full cache, [setToCache] evicts an entry that no other entry
    undercuts in access time, and then inserts. *)
Theorem full_cache_evicts_oldest (w : World) (key : str) (value : CacheValue) :
  advancing (clock w) -> (1 <= ls_maxCacheSize (locationService w))%nat ->
  cacheInv w ->
  JsMap.size (cacheOf w) = ls_maxCacheSize (locationService w) ->
  let victim := LocationService.oldest (clock w (ticks w)) (timesOf w) in
  In (fst victim) (JsMap.keys (cacheOf w))
  /\ In victim (timesOf w)
  /\ (forall k t, In (k, t) (timesOf w) -> (snd victim <= t)%Z)
  /\ cacheOf (snd (LocationService.setToCache key value w))
     = JsMap.set (JsMap.delete (cacheOf w) (fst victim)) key value.
Proof.
  intros Hadv Hmax Hinv Hfull victim.
  destruct Hinv as (Hc & Ht & Hsame & Htimes & Hsize).
  assert (Hsome : exists k t, In (k, t) (timesOf w)).
  { unfold JsMap.size in *. destruct (cacheOf w) as [|[k v] rest] eqn:E; [simpl in *; lia|].
    assert (In k (JsMap.keys (timesOf w))) as Hk by (apply Hsame; now left).
    apply in_keys in Hk as [t Hk]. now exists k, t. }
  destruct Hsome as (k0 & t0 & H0).
  destruct (oldest_found (clock w (ticks w)) (timesOf w) k0 t0 H0) as [Hv Hmin].
  { now apply (Htimes k0 t0). }
  fold victim in Hv, Hmin.
  assert (Hvk : In (fst victim) (JsMap.keys (timesOf w))).
  { apply in_entries_keys with (snd victim). now rewrite <- surjective_pairing. }
  split; [now apply Hsame|]. split; [exact Hv|]. split; [exact Hmin|].
  rewrite setToCache_run. unfold stored, managed, cacheOf. cbn.
  fold (cacheOf w). rewrite Hfull, Nat.leb_refl.
  unfold evicted. fold (timesOf w). fold victim. cbn.
  assert (E : SearchService.nonEmpty (fst victim) = true).
  { unfold SearchService.nonEmpty. apply negb_true_iff, eqs_false_iff.
    apply (Htimes (fst victim) (snd victim)). now rewrite <- surjective_pairing. }
  now rewrite E.
Qed.

Lemma tickingClock_advances : advancing tickingClock.
Proof. intros i j H. unfold tickingClock. lia. Qed.

Lemma startWorld_inv (clock : nat -> Z) (records : list LocationRecord) :
  cacheInv (startWorld clock records).
Proof.
  unfold cacheInv, cacheOf, timesOf, startWorld.
  cbn [locationService ls_cache ls_cacheAccessTimes ls_maxCacheSize].
  repeat split; try constructor; try (intros H; exact H); try (intros [] ); cbn; try lia.
  all: destruct H.
Qed.

(** From the start of the program, under a clock that ticks at every
    reading, the cache never exceeds 1000 entries. *)
Corollary cache_bound_from_start (records : list LocationRecord) (ops : list CacheOp) :
  setsNonEmptyKeys ops ->
  (JsMap.size (cacheOf (snd (runOps ops (startWorld tickingClock records)))) <= 1000)%nat.
Proof.
  intro Hkeys.
  apply (runOps_bound ops (startWorld tickingClock records)).
  - exact tickingClock_advances.
  - cbn [startWorld locationService ls_maxCacheSize]. lia.
  - apply startWorld_inv.
  - exact Hkeys.
Qed.

(** C1 fails on the code.  [manageCacheSize] looks for an entry accessed
    strictly before the current reading of the clock; when no entry is, it
    evicts nothing and the insert goes through.  After 1000 inserts the clock
    is set back (or the clock has not left the millisecond of the inserts):
    insert 1001 evicts nothing and the cache holds 1001 entries, one more
    than [maxCacheSize = 1000]; with a clock that advances at every reading
    the same inserts leave 1000 entries, the first key gone. *)
Theorem cache_exceeds_bound :
  let size clock :=
    JsMap.size (ls_cache (locationService
                            (snd (fillCache 1001 0 (startWorld clock [sampleRecord]))))) in
  ls_maxCacheSize (locationService (startWorld setBackClock [sampleRecord])) = 1000%nat
  /\ size setBackClock = 1001%nat
  /\ size sameMillisecond = 1001%nat
  /\ size tickingClock = 1000%nat.
Proof. by_evaluation. Qed.

(** ** The index *)

Lemma eqType_iff (a b : LocationType) : eqType a b = true <-> a = b.
Proof.
  unfold eqType. rewrite eqs_iff.
  split; [|now intros ->].
  destruct a, b; intro H; try reflexivity; discriminate H.
Qed.















(** ** C4: the index round trip *)


(** ** The exact tier *)












(** ** Scores *)

Lemma natQ_nonneg (n : nat) : 0 <= natQ n.
Proof. unfold natQ, Qle. simpl. lia. Qed.

Lemma calculateSimilarity_le_1 (a b : str) : calculateSimilarity a b <= 1.
Proof.
  unfold calculateSimilarity.
  destruct (eqs _ _); [apply Qle_refl|].
  destruct (_ || _); [unfold q08, Qle; simpl; lia|].
  destruct (_ =? _)%nat; [apply Qle_refl|].
  set (x := natQ _ / natQ _).
  assert (Hx : 0 <= x).
  { unfold x, Qdiv. apply Qmult_le_0_compat; [apply natQ_nonneg|].
    apply Qinv_le_0_compat, natQ_nonneg. }
  clearbody x. destruct x as [xn xd].
  unfold Qle, Qminus, Qplus, Qopp in *. cbn -[Z.add Z.mul Z.opp] in *. lia.
Qed.

Lemma fuzzy_score_le_1 (a b : str) : calculateSimilarity a b * q08 <= 1.
Proof.
  pose proof (calculateSimilarity_le_1 a b) as H.
  destruct (calculateSimilarity a b) as [xn xd].
  unfold Qle, Qmult, q08 in *. cbn -[Z.add Z.mul Z.opp Pos.mul] in *. lia.
Qed.


(** ** Later tiers only append, and nothing above 1.0 *)










(** ** A leading block of top scores survives the sort in place *)








(** ** The scan of [autocomplete] *)









Lemma get_in {V} (m : JsMap.t V) (k : str) (v : V) :
  JsMap.get m k = Some v -> In (k, v) m.
Proof.
  induction m as [|[k' v'] m IH]; simpl; [discriminate|].
  destruct (eqs k' k) eqn:E.
  - intro H. inversion H; subst. apply eqs_iff in E. subst. now left.
  - intro H. right. now apply IH.
Qed.



(** ** [normalize] on normalized text *)

Lemma normalChar_of_kept (c : ascii) :
  keepNormal c = true -> isUpper c = false -> isSpace c = false -> normalChar c = true.
Proof. all_chars c. Qed.

Lemma lowerChar_not_upper (c : ascii) : isUpper (lowerChar c) = false.
Proof. all_chars c. Qed.

Lemma in_dropWhile {A} (p : A -> bool) (x : A) (l : list A) :
  In x (dropWhile p l) -> In x l.
Proof.
  induction l as [|y l IH]; simpl; [tauto|].
  destruct (p y); simpl; intuition.
Qed.

Lemma in_trim (c : ascii) (s : str) : In c (trim s) -> In c s.
Proof.
  unfold trim, trimEnd, trimStart. intro H.
  apply in_rev in H. apply in_dropWhile in H. apply in_rev in H.
  now apply in_dropWhile in H.
Qed.

Lemma in_collapse (c : ascii) (s : str) :
  forall b, In c (collapseFrom b s) -> c = " "%char \/ (In c s /\ isSpace c = false).
Proof.
  induction s as [|x s IH]; intros b H; simpl in *; [tauto|].
  destruct (isSpace x) eqn:E.
  - destruct b.
    + destruct (IH _ H) as [?|[? ?]]; auto.
    + destruct H as [<-|H]; auto.
      destruct (IH _ H) as [?|[? ?]]; auto.
  - destruct H as [<-|H]; auto.
    destruct (IH _ H) as [?|[? ?]]; auto.
Qed.

Lemma normalize_chars (s : str) (c : ascii) :
  In c (normalize s) -> normalChar c = true.
Proof.
  destruct s as [|x s]; [intros []|]. unfold normalize, stripPunct.
  intro H. apply filter_In in H as [H K].
  apply in_collapse in H as [->|[H E]]; [reflexivity|].
  apply in_trim in H. unfold toLowerCase in H. apply in_map_iff in H as (y & <- & _).
  apply normalChar_of_kept; auto using lowerChar_not_upper.
Qed.

Lemma dropWhile_app_keep {A} (p : A -> bool) (l : list A) :
  exists pre, l = pre ++ dropWhile p l /\ Forall (fun x => p x = true) pre.
Proof.
  induction l as [|x l (pre & E & F)]; simpl.
  - exists []; auto.
  - destruct (p x) eqn:Px.
    + exists (x :: pre). split; [simpl; congruence | constructor; auto].
    + exists []; auto.
Qed.

Lemma dropWhile_idem {A} (p : A -> bool) (l : list A) :
  dropWhile p (dropWhile p l) = dropWhile p l.
Proof.
  induction l as [|x l IH]; simpl; [reflexivity|].
  destruct (p x) eqn:E; [exact IH| simpl; now rewrite E].
Qed.

Lemma dropWhile_head {A} (p : A -> bool) (x : A) (l : list A) :
  p x = false -> dropWhile p (x :: l) = x :: l.
Proof. intro H; simpl; now rewrite H. Qed.

Lemma trim_tight (s : str) : startsTight s -> endsTight s -> trim s = s.
Proof.
  unfold startsTight, endsTight, trim, trimEnd, trimStart. intros H1 H2.
  rewrite H1, H2. apply rev_involutive.
Qed.

Lemma dropWhile_fix_iff {A} (p : A -> bool) (l : list A) :
  dropWhile p l = l <-> match l with [] => True | x :: _ => p x = false end.
Proof.
  destruct l as [|x l]; simpl; [tauto|].
  destruct (p x) eqn:E; split; auto; try discriminate.
  intro H. exfalso.
  destruct (dropWhile_app_keep p l) as (pre & E1 & _).
  assert (length (dropWhile p l) <= length l)%nat.
  { rewrite E1 at 2. rewrite length_app. lia. }
  rewrite H in H0. simpl in H0. lia.
Qed.

Lemma trimStart_tight (s : str) : startsTight (trimStart s).
Proof. apply dropWhile_idem. Qed.

Lemma rev_dropWhile_rev_head (s : str) (x : ascii) (t : str) :
  isSpace x = false -> rev (dropWhile isSpace (rev (x :: s))) = x :: rev (dropWhile isSpace (rev s)).
Proof.
  intro Hx. simpl.
  destruct (dropWhile_app_keep isSpace (rev s)) as (pre & E & F).
  rewrite E at 1. rewrite <- app_assoc.
  assert (G : forall pre l, Forall (fun x => isSpace x = true) pre ->
                        dropWhile isSpace (pre ++ l) = dropWhile isSpace l).
  { clear. induction pre as [|y pre IH]; intros l F; [reflexivity|].
    inversion F; subst. simpl. rewrite H1. now apply IH. }
  rewrite (G _ _ F).
  destruct (dropWhile isSpace (rev s)) as [|y r] eqn:D.
  - simpl. now rewrite Hx.
  - assert (Hy : isSpace y = false).
    { pose proof (dropWhile_idem isSpace (rev s)) as I. rewrite D in I.
      apply dropWhile_fix_iff in I. exact I. }
    simpl. rewrite Hy. simpl. now rewrite rev_app_distr.
Qed.

Lemma trim_startsTight (s : str) : startsTight (trim s).
Proof.
  unfold trim, trimStart, startsTight.
  remember (dropWhile isSpace s) as t eqn:Et.
  assert (Ht : dropWhile isSpace t = t) by (subst; apply dropWhile_idem).
  clear Et s. unfold trimEnd.
  destruct t as [|x t]; [reflexivity|].
  apply dropWhile_fix_iff in Ht.
  rewrite (rev_dropWhile_rev_head t x t Ht). now apply dropWhile_head.
Qed.

Lemma trim_endsTight (s : str) : endsTight (trim s).
Proof.
  unfold trim, trimEnd, endsTight. rewrite rev_involutive. apply dropWhile_idem.
Qed.

Lemma trim_idem (s : str) : trim (trim s) = trim s.
Proof. apply trim_tight; [apply trim_startsTight | apply trim_endsTight]. Qed.

Lemma collapse_idem (s : str) :
  forall b, collapseFrom b (collapseFrom b s) = collapseFrom b s.
Proof.
  induction s as [|x s IH]; intro b; [reflexivity|]. simpl.
  destruct (isSpace x) eqn:E.
  - destruct b; [apply IH|]. simpl. now rewrite IH.
  - simpl. rewrite E. now rewrite IH.
Qed.

Lemma collapse_snoc (s : str) (x : ascii) :
  isSpace x = false -> forall b, collapseFrom b (s ++ [x]) = collapseFrom b s ++ [x].
Proof.
  intro Hx. induction s as [|y s IH]; intro b; simpl.
  - now rewrite Hx.
  - destruct (isSpace y); [destruct b|]; simpl; now rewrite IH.
Qed.

Lemma endsTight_iff (s : str) :
  endsTight s <-> s = [] \/ exists s' x, s = s' ++ [x] /\ isSpace x = false.
Proof.
  unfold endsTight. rewrite dropWhile_fix_iff. split.
  - destruct (rev s) as [|x r] eqn:E.
    + left. apply (f_equal (@rev _)) in E. now rewrite rev_involutive in E.
    + intro H. right. exists (rev r), x. split; [|exact H].
      apply (f_equal (@rev _)) in E. now rewrite rev_involutive in E.
  - intros [->|(s' & x & -> & H)]; [exact I|]. now rewrite rev_app_distr.
Qed.

Lemma collapse_endsTight (s : str) : endsTight s -> endsTight (collapseFrom false s).
Proof.
  rewrite !endsTight_iff. intros [->|(s' & x & -> & H)]; [now left|].
  right. exists (collapseFrom false s'), x. split; [now apply collapse_snoc | exact H].
Qed.

Lemma collapse_startsTight (s : str) : startsTight s -> startsTight (collapseFrom false s).
Proof.
  unfold startsTight. rewrite !dropWhile_fix_iff.
  destruct s as [|x s]; [exact id|]. simpl. intro H. now rewrite H.
Qed.

Lemma stripPunct_kept (s : str) :
  Forall (fun c => keepNormal c = true) s -> stripPunct s = s.
Proof.
  induction 1 as [|c s H _ IH]; [reflexivity|].
  unfold stripPunct in *. simpl. now rewrite H, IH.
Qed.

Lemma normalize_chain (s : str) :
  normalize s = stripPunct (collapseSpaces (trim (toLowerCase s))).
Proof. now destruct s. Qed.

Lemma keepNormal_lower (c : ascii) : keepNormal c = true -> keepNormal (lowerChar c) = true.
Proof. all_chars c. Qed.

Lemma lower_fix_of_normal (c : ascii) : normalChar c = true -> lowerChar c = c.
Proof. all_chars c. Qed.

Lemma normalChar_kept (c : ascii) : normalChar c = true -> keepNormal c = true.
Proof. all_chars c. Qed.

Lemma toLowerCase_normal (s : str) :
  Forall (fun c => normalChar c = true) s -> toLowerCase s = s.
Proof.
  induction 1 as [|c s H _ IH]; [reflexivity|].
  unfold toLowerCase in *. simpl. now rewrite IH, lower_fix_of_normal.
Qed.

(** Without punctuation nothing is stripped: the normal form is the
    collapsed, trimmed, lower-case text. *)
Lemma normalize_without_punctuation (s : str) :
  Forall (fun c => keepNormal c = true) s ->
  normalize s = collapseSpaces (trim (toLowerCase s)).
Proof.
  intro H. rewrite normalize_chain. apply stripPunct_kept.
  apply Forall_forall. intros c Hc.
  apply in_collapse in Hc as [->|[Hc _]]; [reflexivity|].
  apply in_trim in Hc. apply in_map_iff in Hc as (y & <- & Hy).
  apply keepNormal_lower. revert y Hy. now apply Forall_forall.
Qed.

Lemma normalize_fixes_tight (t : str) :
  Forall (fun c => normalChar c = true) t ->
  startsTight t -> endsTight t -> collapseSpaces t = t ->
  normalize t = t.
Proof.
  intros Hn Hs He Hc. rewrite normalize_chain.
  rewrite (toLowerCase_normal t Hn), (trim_tight t Hs He), Hc.
  apply stripPunct_kept. revert Hn. apply Forall_impl. apply normalChar_kept.
Qed.

Lemma normalize_idem_kept (s : str) :
  Forall (fun c => keepNormal c = true) s ->
  normalize (normalize s) = normalize s.
Proof.
  intro H. apply normalize_fixes_tight.
  - apply Forall_forall. apply normalize_chars.
  - rewrite (normalize_without_punctuation s H).
    apply collapse_startsTight, trim_startsTight.
  - rewrite (normalize_without_punctuation s H).
    apply collapse_endsTight, trim_endsTight.
  - rewrite (normalize_without_punctuation s H). apply collapse_idem.
Qed.

Lemma dropWhile_app_ne {A} (p : A -> bool) (x y : list A) :
  dropWhile p x <> [] -> dropWhile p (x ++ y) = dropWhile p x ++ y.
Proof.
  induction x as [|c x IH]; simpl; [contradiction|].
  destruct (p c); [exact IH | reflexivity].
Qed.

Lemma dropWhile_nil_forall {A} (p : A -> bool) (l : list A) :
  dropWhile p l = [] -> Forall (fun x => p x = true) l.
Proof.
  induction l as [|x l IH]; simpl; [constructor|].
  destruct (p x) eqn:E; [|discriminate]. intro H. constructor; auto.
Qed.










(** ** The two entry points on an accepted query *)


Lemma sanitizeSearchQuery_index query w sanitized w2 :
  SecurityValidator.sanitizeSearchQuery query w = (Ok sanitized, w2) ->
  ss_searchIndex (searchService w2) = ss_searchIndex (searchService w).
Proof.
  intro H. destruct (sanitizeSearchQuery_frame query w) as [[rs Hrs] _].
  rewrite H in Hrs. simpl in Hrs. now subst w2.
Qed.







(* ================================================================== *)
(** * Part III.  Further properties of the code                         *)
(* ================================================================== *)

(** ** [normalize] *)

(** X1.  Normalized text is lower-case: only [a-z0-9_-] and single blanks can be in it. *)
Theorem normalize_alphabet (s : str) :
  Forall (fun c => normalChar c = true) (normalize s).
Proof. apply Forall_forall. apply normalize_chars. Qed.

(** X2.  [normalize] is idempotent on text made of letters, digits, underscores,
    hyphens and white space. *)
Theorem normalize_idempotent_without_punctuation (s : str) :
  Forall (fun c => keepNormal c = true) s ->
  normalize (normalize s) = normalize s.
Proof. apply normalize_idem_kept. Qed.

Lemma normalize_idempotent_without_punctuation_witness :
  normalize (normalize (lit "  Bo   Town-2 ")) = normalize (lit "  Bo   Town-2 ").
Proof.
  apply (normalize_idempotent_without_punctuation (lit "  Bo   Town-2 ")).
  repeat constructor.
Defined.

(** X3.  Whatever the input, a second application of [normalize] reaches a fixed
    point. *)
Theorem normalize_twice_is_stable (s : str) :
  normalize (normalize (normalize s)) = normalize (normalize s).
Proof.
  apply normalize_idem_kept. apply Forall_forall. intros c Hc.
  apply normalChar_kept. revert Hc. apply normalize_chars.
Qed.

(** ** [calculateSimilarity] *)

Section Matrix.

Variable Q : str -> str -> nat -> Prop.
Hypothesis first_row : forall pre, Q [] pre (length pre).
Hypothesis first_column : forall p2, Q p2 [] (length p2).
Hypothesis cell :
  forall p2 pre c1 c2 diag up left,
    Q p2 pre diag -> Q p2 (pre ++ [c1]) up -> Q (p2 ++ [c2]) pre left ->
    Q (p2 ++ [c2]) (pre ++ [c1])
      (if eqc c2 c1 then diag else Nat.min (diag + 1) (Nat.min (left + 1) (up + 1))).

Lemma rowOk_seq (suf pre : str) :
  rowOk (Q []) pre suf (seq (length pre) (S (length suf))).
Proof.
  revert pre; induction suf as [|c suf IH]; intro pre.
  - simpl. apply first_row.
  - change (seq (length pre) (S (length (c :: suf))))
      with (length pre :: seq (S (length pre)) (S (length suf))).
    cbn [rowOk]. split; [apply first_row|].
    specialize (IH (pre ++ [c])). rewrite length_app in IH. simpl in IH.
    now rewrite Nat.add_1_r in IH.
Qed.

Lemma nextRow_ok (p2 : str) (c2 : ascii) (suf : str) :
  forall pre above left,
    rowOk (Q p2) pre suf above -> Q (p2 ++ [c2]) pre left ->
    rowOk (Q (p2 ++ [c2])) pre suf (left :: nextRow c2 suf above left).
Proof.
  induction suf as [|c1 suf IH]; intros pre above left Ha Hl.
  - destruct above as [|v [|? ?]]; simpl in Ha; try contradiction. simpl. exact Hl.
  - destruct above as [|diag above]; [contradiction|].
    cbn [rowOk] in Ha. destruct Ha as [Hd Ha].
    destruct above as [|up above].
    { destruct suf; contradiction. }
    assert (Hup : Q p2 (pre ++ [c1]) up).
    { destruct suf as [|c suf]; [destruct above; [exact Ha|contradiction]|]. apply Ha. }
    cbn [nextRow rowOk]. split; [exact Hl|].
    apply IH; [exact Ha|]. now apply cell.
Qed.

Lemma lastRow_ok (s1 s2 : str) :
  forall p2 row,
    rowOk (Q p2) [] s1 row ->
    rowOk (Q (p2 ++ s2)) [] s1 (lastRow s2 s1 row (length p2)).
Proof.
  induction s2 as [|c2 s2 IH]; intros p2 row H.
  - simpl. now rewrite app_nil_r.
  - simpl. specialize (IH (p2 ++ [c2]) (S (length p2) :: nextRow c2 s1 row (S (length p2)))).
    rewrite <- app_assoc in IH. simpl in IH.
    rewrite length_app in IH. simpl in IH. rewrite Nat.add_1_r in IH.
    apply IH. apply nextRow_ok; [exact H|].
    specialize (first_column (p2 ++ [c2])). rewrite length_app in first_column.
    simpl in first_column. now rewrite Nat.add_1_r in first_column.
Qed.

Lemma rowOk_last (P : str -> nat -> Prop) (suf : str) :
  forall pre row, rowOk P pre suf row -> P (pre ++ suf) (last row 0%nat).
Proof.
  induction suf as [|c suf IH]; intros pre row H.
  - destruct row as [|v [|? ?]]; simpl in H; try contradiction.
    simpl. now rewrite app_nil_r.
  - destruct row as [|v row]; [contradiction|]. cbn [rowOk] in H. destruct H as [_ H].
    specialize (IH _ _ H). rewrite <- app_assoc in IH. simpl in IH.
    destruct row as [|v' row]; [destruct suf; contradiction|]. exact IH.
Qed.

Lemma levenshtein_ok (s1 s2 : str) : Q s2 s1 (levenshtein s1 s2).
Proof.
  unfold levenshtein.
  apply (rowOk_last (Q s2) s1 []).
  apply (lastRow_ok s1 s2 []). apply (rowOk_seq s1 []).
Qed.

End Matrix.

Lemma levenshtein_le_max (s1 s2 : str) :
  (levenshtein s1 s2 <= Nat.max (length s1) (length s2))%nat.
Proof.
  apply (levenshtein_ok (fun p2 pre v => (v <= Nat.max (length pre) (length p2))%nat)).
  - intros; simpl; lia.
  - intros; simpl; lia.
  - intros p2 pre c1 c2 diag up left H1 H2 H3.
    rewrite !length_app in *. simpl in *. destruct (eqc c2 c1); lia.
Qed.

Lemma levenshtein_zero (s1 s2 : str) : levenshtein s1 s2 = 0%nat -> s1 = s2.
Proof.
  apply (levenshtein_ok (fun p2 pre v => v = 0%nat -> pre = p2)).
  - intros pre H. cbv beta in *. destruct pre; [reflexivity|discriminate H].
  - intros p2 H. cbv beta in *. destruct p2; [reflexivity|discriminate H].
  - intros p2 pre c1 c2 diag up left H1 H2 H3 H.
    destruct (eqc c2 c1) eqn:E; [|lia].
    apply eqc_iff in E. rewrite E. now rewrite (H1 H).
Qed.

Lemma natQ_div_le_1 (d m : nat) : (d <= m)%nat -> (0 < m)%nat -> natQ d / natQ m <= 1.
Proof.
  intros Hd Hm. apply Qle_shift_div_r.
  - unfold natQ, Qlt. cbn -[Z.mul Z.of_nat]. lia.
  - unfold natQ, Qle, Qmult. cbn -[Z.mul Z.of_nat]. lia.
Qed.

(** X4.  The similarity of two strings is a score between 0 and 1. *)
Theorem calculateSimilarity_range (a b : str) :
  0 <= calculateSimilarity a b /\ calculateSimilarity a b <= 1.
Proof.
  split; [|apply calculateSimilarity_le_1].
  unfold calculateSimilarity.
  destruct (eqs _ _); [discriminate|].
  destruct (_ || _); [discriminate|].
  destruct (_ =? _)%nat eqn:E; [discriminate|].
  apply Nat.eqb_neq in E.
  pose proof (levenshtein_le_max (normalize a) (normalize b)) as H.
  pose proof (natQ_div_le_1 _ _ H ltac:(lia)) as Hx.
  set (x := natQ _ / natQ _) in *. clearbody x. destruct x as [xn xd].
  unfold Qle, Qminus, Qplus, Qopp in *. cbn -[Z.add Z.mul Z.opp] in *. lia.
Qed.

Lemma natQ_div_zero (d m : nat) : (0 < m)%nat -> natQ d / natQ m == 0 -> d = 0%nat.
Proof.
  intros Hm H.
  assert (Hm' : ~ natQ m == 0).
  { unfold natQ, Qeq. cbn -[Z.mul Z.of_nat]. lia. }
  apply (Qmult_inj_r _ _ (natQ m) Hm') in H.
  rewrite Qmult_0_l in H. unfold Qdiv in H.
  rewrite <- Qmult_assoc, (Qmult_comm (/ natQ m)), Qmult_inv_r, Qmult_1_r in H by exact Hm'.
  unfold natQ, Qeq in H. cbn -[Z.mul Z.of_nat] in H. lia.
Qed.

(** X5.  The score is 1 exactly for strings with the same normal form. *)
Theorem calculateSimilarity_one_iff (a b : str) :
  calculateSimilarity a b == 1 <-> normalize a = normalize b.
Proof.
  unfold calculateSimilarity.
  destruct (eqs (normalize a) (normalize b)) eqn:E.
  - apply eqs_iff in E. split; [auto | reflexivity].
  - apply eqs_false_iff in E. split; [|contradiction].
    destruct (_ || _); [discriminate|].
    destruct (_ =? _)%nat eqn:M.
    + apply Nat.eqb_eq in M. intros _.
      destruct (normalize a), (normalize b); simpl in M; try lia. reflexivity.
    + apply Nat.eqb_neq in M. intro H.
      apply levenshtein_zero. apply (natQ_div_zero _ (Nat.max (length (normalize a)) (length (normalize b)))); [lia|].
      set (x := natQ _ / natQ _) in *. clearbody x. destruct x as [xn xd].
      unfold Qeq, Qminus, Qplus, Qopp in *. cbn -[Z.add Z.mul Z.opp] in *. lia.
Qed.

(** ** [sanitizeInput] *)

Lemma in_removeMatches (r : regex) (c : ascii) (s : str) :
  forall prev skip, In c (removeMatches r prev skip s) -> In c s.
Proof.
  induction s as [|x s IH]; intros prev skip H; [exact H|].
  cbn [removeMatches] in H.
  destruct skip as [|k]; [|right; eapply IH; eauto].
  destruct (rmatch r prev (x :: s) _) as [rest|].
  - destruct (length (x :: s) - length rest)%nat.
    + destruct H as [<-|H]; [now left | right; eapply IH; eauto].
    + right. eapply IH; eauto.
  - destruct H as [<-|H]; [now left | right; eapply IH; eauto].
Qed.

Lemma length_removeMatches (r : regex) (s : str) :
  forall prev skip, (length (removeMatches r prev skip s) <= length s)%nat.
Proof.
  induction s as [|x s IH]; intros prev skip; [reflexivity|].
  cbn [removeMatches].
  destruct skip as [|k]; [|specialize (IH (Some x) k); simpl; lia].
  destruct (rmatch r prev (x :: s) _) as [rest|].
  - destruct (length (x :: s) - length rest)%nat.
    + specialize (IH (Some x) 0%nat); simpl; lia.
    + specialize (IH (Some x) n); simpl; lia.
  - specialize (IH (Some x) 0%nat); simpl; lia.
Qed.

Lemma startsTight_firstn (n : nat) (s : str) : startsTight s -> startsTight (firstn n s).
Proof.
  unfold startsTight. rewrite !dropWhile_fix_iff.
  destruct s as [|x s]; destruct n; simpl; auto.
Qed.

(** X6.  What [sanitizeInput] returns has at most 100 characters, none of them a
    semicolon, a quote or a backslash, and does not start with white space. *)
Theorem sanitizeInput_output (input : str) :
  (length (sanitizeInput input) <= 100)%nat
  /\ Forall (fun c => isInjectionChar c = false) (sanitizeInput input)
  /\ startsTight (sanitizeInput input).
Proof.
  destruct input as [|x input].
  { repeat split; simpl; [lia | constructor]. }
  unfold sanitizeInput, substring0. cbv zeta.
  split; [|split].
  - apply firstn_le_length.
  - apply Forall_forall. intros c Hc.
    apply in_firstn in Hc. apply in_trim in Hc.
    do 3 apply in_removeMatches in Hc.
    apply filter_In in Hc as [_ Hc]. now apply negb_true_iff in Hc.
  - apply startsTight_firstn, trim_startsTight.
Qed.

(** ** [escapeHtml] *)

Lemma flat_map_flat_map {A B C} (f : A -> list B) (g : B -> list C) (l : list A) :
  flat_map g (flat_map f l) = flat_map (fun x => flat_map g (f x)) l.
Proof.
  induction l as [|x l IH]; [reflexivity|]. simpl. now rewrite flat_map_app, IH.
Qed.

Lemma htmlEntity_chain (c : ascii) :
  SecurityValidator.escapeHtml [c] = htmlEntity c.
Proof. all_chars c. Qed.

Lemma escapeHtml_by_character (s : str) :
  SecurityValidator.escapeHtml s = flat_map htmlEntity s.
Proof.
  unfold SecurityValidator.escapeHtml, SecurityValidator.replaceChar.
  rewrite !flat_map_flat_map. apply flat_map_ext. intro c.
  pose proof (htmlEntity_chain c) as H.
  unfold SecurityValidator.escapeHtml, SecurityValidator.replaceChar in H.
  rewrite !flat_map_flat_map in H. simpl in H. rewrite app_nil_r in H. exact H.
Qed.

Lemma htmlEntity_no_markup (c : ascii) :
  Forall (fun x => isMarkup x = false) (htmlEntity c).
Proof. all_chars c; repeat constructor. Qed.

(** X7.  Escaped text holds no angle bracket and no quote. *)
Theorem escapeHtml_no_markup (s : str) :
  Forall (fun c => isMarkup c = false) (SecurityValidator.escapeHtml s).
Proof.
  rewrite escapeHtml_by_character.
  induction s as [|c s IH]; [constructor|].
  simpl. apply Forall_app. split; [apply htmlEntity_no_markup | exact IH].
Qed.

Lemma htmlEntity_prefix_free (c d : ascii) (x y : str) :
  htmlEntity c ++ x = htmlEntity d ++ y -> c = d /\ x = y.
Proof.
  unfold htmlEntity.
  destruct (eqc c "&") eqn:C1; [apply eqc_iff in C1|];
  [|destruct (eqc c "<") eqn:C2; [apply eqc_iff in C2|];
    [|destruct (eqc c ">") eqn:C3; [apply eqc_iff in C3|];
      [|destruct (eqc c quote) eqn:C4; [apply eqc_iff in C4|];
        [|destruct (eqc c "'") eqn:C5; [apply eqc_iff in C5|]]]]];
  (destruct (eqc d "&") eqn:D1; [apply eqc_iff in D1|];
   [|destruct (eqc d "<") eqn:D2; [apply eqc_iff in D2|];
     [|destruct (eqc d ">") eqn:D3; [apply eqc_iff in D3|];
       [|destruct (eqc d quote) eqn:D4; [apply eqc_iff in D4|];
         [|destruct (eqc d "'") eqn:D5; [apply eqc_iff in D5|]]]]]);
  subst; cbn [lit String.list_ascii_of_string app]; intro H;
  try discriminate H;
  try (injection H as H; subst; split; [reflexivity|assumption]);
  try (injection H as H; subst; split; reflexivity);
  try (injection H as H1 H2; subst;
       rewrite ?eqc_refl in *; discriminate).
Qed.

(** X8.  Escaping loses nothing: two texts have the same escaped form only when
    they are the same text. *)
Theorem escapeHtml_injective (a b : str) :
  SecurityValidator.escapeHtml a = SecurityValidator.escapeHtml b <-> a = b.
Proof.
  split; [|now intros ->].
  rewrite !escapeHtml_by_character.
  revert b; induction a as [|c a IH]; intros [|d b] H.
  - reflexivity.
  - simpl in H. exfalso. unfold htmlEntity in H.
    repeat match type of H with context [if ?t then _ else _] => destruct t end;
      discriminate H.
  - simpl in H. exfalso. unfold htmlEntity in H.
    repeat match type of H with context [if ?t then _ else _] => destruct t end;
      discriminate H.
  - simpl in H. apply htmlEntity_prefix_free in H as [-> H].
    now rewrite (IH b H).
Qed.

(** ** [sanitize]: what an accepted input becomes *)

Lemma length_dropWhile {A} (p : A -> bool) (l : list A) :
  (length (dropWhile p l) <= length l)%nat.
Proof.
  induction l as [|x l IH]; simpl; [lia|]. destruct (p x); simpl; lia.
Qed.

Lemma length_trim (s : str) : (length (trim s) <= length s)%nat.
Proof.
  unfold trim, trimEnd, trimStart. rewrite length_rev.
  etransitivity; [apply length_dropWhile|]. rewrite length_rev. apply length_dropWhile.
Qed.

Lemma length_collapse (s : str) : forall b, (length (collapseFrom b s) <= length s)%nat.
Proof.
  induction s as [|x s IH]; intro b; simpl; [lia|].
  destruct (isSpace x); [destruct b|]; simpl;
    first [specialize (IH true); lia | specialize (IH false); lia].
Qed.

Lemma length_stripTags (s : str) :
  forall b, (length (SecurityValidator.stripTags b s) <= length s)%nat.
Proof.
  induction s as [|x s IH]; intro b; simpl; [lia|].
  destruct b.
  - destruct (SecurityValidator.isGt x);
      first [specialize (IH true); lia | specialize (IH false); lia].
  - destruct (SecurityValidator.isLt x).
    + destruct (existsb SecurityValidator.isGt s); [specialize (IH true); lia | simpl; lia].
    + specialize (IH false). simpl. lia.
Qed.

Lemma length_cleaned (s : str) : (length (SecurityValidator.cleaned s) <= length s)%nat.
Proof.
  unfold SecurityValidator.cleaned, SecurityValidator.removeDangerous, collapseSpaces.
  etransitivity; [apply length_trim|].
  etransitivity; [apply length_collapse|].
  etransitivity; [apply filter_length_le|]. apply length_stripTags.
Qed.

Lemma singleSpaced_app_l (a b : str) : singleSpaced (a ++ b) = true -> singleSpaced a = true.
Proof.
  induction a as [|x a IH]; [reflexivity|]. simpl.
  intro H. apply andb_true_iff in H as [H1 H2]. apply andb_true_iff in H1 as [H0 H1].
  rewrite H0, (IH H2). simpl. rewrite andb_true_r.
  destruct a as [|y a]; [now rewrite andb_false_r | exact H1].
Qed.

Lemma singleSpaced_app_r (a b : str) : singleSpaced (a ++ b) = true -> singleSpaced b = true.
Proof.
  induction a as [|x a IH]; [exact id|]. simpl.
  intro H. apply andb_true_iff in H as [_ H2]. now apply IH.
Qed.

Lemma trimEnd_prefix (s : str) : exists suf, s = trimEnd s ++ suf.
Proof.
  unfold trimEnd. destruct (dropWhile_app_keep isSpace (rev s)) as (pre & E & _).
  exists (rev pre). apply (f_equal (@rev _)) in E.
  now rewrite rev_involutive, rev_app_distr in E.
Qed.

Lemma singleSpaced_trim (s : str) : singleSpaced s = true -> singleSpaced (trim s) = true.
Proof.
  intro H. unfold trim.
  destruct (trimEnd_prefix (trimStart s)) as (suf & E).
  apply (singleSpaced_app_l _ suf). rewrite <- E.
  unfold trimStart. destruct (dropWhile_app_keep isSpace s) as (pre & E' & _).
  apply (singleSpaced_app_r pre). now rewrite <- E'.
Qed.

Lemma collapse_head (s : str) :
  match collapseFrom true s with d :: _ => isSpace d | [] => false end = false.
Proof.
  induction s as [|x s IH]; [reflexivity|]. simpl.
  destruct (isSpace x) eqn:E; [exact IH | exact E].
Qed.

Lemma singleSpaced_collapse (s : str) : forall b, singleSpaced (collapseFrom b s) = true.
Proof.
  induction s as [|x s IH]; intro b; [reflexivity|]. simpl.
  destruct (isSpace x) eqn:E.
  - destruct b; [apply IH|].
    cbn [singleSpaced]. rewrite collapse_head, IH. reflexivity.
  - cbn [singleSpaced]. rewrite E, IH. reflexivity.
Qed.

Lemma sanitize_ok_length (input : str) (w w' : World) (s : str) :
  SecurityValidator.sanitize input w = (Ok s, w') -> (length input <= 200)%nat.
Proof.
  unfold SecurityValidator.sanitize. destruct input as [|c input]; [simpl; lia|].
  destruct (SecurityValidator.MAX_INPUT_LENGTH <? length (c :: input))%nat eqn:E;
    [intro H; discriminate H|].
  intros _. apply Nat.ltb_ge in E. exact E.
Qed.

(** X9.  What [sanitize] returns is no longer than the input it accepted, which
    has at most 200 characters; it holds none of the characters
    [<], [>], quotes, [;] and backslash, neither starts nor ends with white
    space, and its white space is made of single spaces. *)
Theorem sanitize_output_clean (input : str) (w w' : World) (s : str) :
  SecurityValidator.sanitize input w = (Ok s, w') ->
  Forall (fun c => SecurityValidator.isDangerous c = false) s
  /\ startsTight s /\ endsTight s /\ singleSpaced s = true
  /\ (length s <= length input <= 200)%nat.
Proof.
  intro H. pose proof (sanitize_ok_length _ _ _ _ H) as Hlen.
  apply sanitize_value in H as [-> _].
  unfold SecurityValidator.cleaned at 1 2 3 4.
  split; [|split; [|split; [|split; [|split]]]].
  - apply Forall_forall. intros c Hc. apply in_trim in Hc.
    apply in_collapse in Hc as [->|[Hc _]]; [reflexivity|].
    unfold SecurityValidator.removeDangerous in Hc.
    apply filter_In in Hc as [_ Hc]. now apply negb_true_iff in Hc.
  - apply trim_startsTight.
  - apply trim_endsTight.
  - apply singleSpaced_trim, singleSpaced_collapse.
  - apply length_cleaned.
  - exact Hlen.
Qed.

Lemma sanitize_output_clean_witness :
  let s := lit "Bo (Kakua)" in
  Forall (fun c => SecurityValidator.isDangerous c = false) s
  /\ startsTight s /\ endsTight s /\ singleSpaced s = true
  /\ (length s <= length (lit "  Bo   <b>(Kakua)</b> ") <= 200)%nat.
Proof.
  exact (sanitize_output_clean (lit "  Bo   <b>(Kakua)</b> ") (startWorld tickingClock [])
           (startWorld tickingClock []) (lit "Bo (Kakua)") eq_refl).
Defined.

(** ** [sanitize]: the patterns after a call that returns *)

Lemma testAny_miss (ps : list regex) (s : str) :
  forall st st', testAny ps st s = (false, st') -> st' = map (fun _ => 0%nat) ps.
Proof.
  induction ps as [|r ps IH]; intros st st' H; simpl in H.
  - now inversion H.
  - unfold test in H.
    destruct (execAt r None s 0 (hd 0%nat st)) as [e|]; [discriminate H|].
    destruct (testAny ps (tl st) s) as [h st1] eqn:E.
    inversion H; subst. simpl. f_equal. now apply (IH (tl st)).
Qed.

(** X10.  A call of [sanitize] that returns for a non-empty input leaves every
    pattern at [lastIndex = 0]; so when the patterns were there already, the
    call changes nothing, and the same input is accepted again. *)
Theorem sanitize_accepted_resets_patterns (input : str) (w w' : World) (s : str) :
  SecurityValidator.sanitize input w = (Ok s, w') ->
  (input <> [] -> regexState w' = freshPatterns)
  /\ (regexState w = freshPatterns ->
      w' = w /\ SecurityValidator.sanitize input w' = (Ok s, w')).
Proof.
  intro H.
  assert (Hfresh : input <> [] -> w' = setRegexState freshPatterns w).
  { intro Hne. revert H. unfold SecurityValidator.sanitize.
    destruct input as [|c input]; [contradiction|].
    destruct (SecurityValidator.MAX_INPUT_LENGTH <? length (c :: input))%nat;
      [intro H; discriminate H|].
    unfold bind, SecurityValidator.testSqlInjection.
    destruct (testAny SecurityValidator.SQL_INJECTION_PATTERNS _ _) as [sql st1] eqn:E1.
    destruct sql; [intro H; discriminate H|].
    unfold SecurityValidator.testBlocked.
    destruct (testAny SecurityValidator.BLOCKED_PATTERNS _ _) as [blocked st2] eqn:E2.
    destruct blocked; [intro H; discriminate H|].
    intro H. inversion H; subst. clear H.
    apply testAny_miss in E1. apply testAny_miss in E2. subst.
    reflexivity. }
  split.
  - intro Hne. now rewrite (Hfresh Hne).
  - intro Hw.
    assert (E : w' = w).
    { destruct input as [|c input].
      - unfold SecurityValidator.sanitize, ret in H. now inversion H.
      - rewrite Hfresh by discriminate. rewrite <- Hw. apply setRegexState_same. }
    split; [exact E|]. rewrite E in *. exact H.
Qed.

Lemma sanitize_accepted_resets_patterns_witness :
  let w := startWorld tickingClock [] in
  (lit "Bo Town" <> [] -> regexState w = freshPatterns)
  /\ (regexState w = freshPatterns ->
      w = w /\ SecurityValidator.sanitize (lit "Bo Town") w = (Ok (lit "Bo Town"), w)).
Proof.
  exact (sanitize_accepted_resets_patterns (lit "Bo Town") (startWorld tickingClock [])
           (startWorld tickingClock []) (lit "Bo Town") eq_refl).
Defined.

(** ** [checkRateLimit]: no window holds more admissions than the maximum *)

Section SlidingWindow.

Local Open Scope Z_scope.

Variable identifier : str.
Variables maxRequests windowMs : Z.

Let recent := recentAt windowMs.
Let tracked := tracks identifier windowMs.

Lemma filter_filter_recent (t now : Z) (l : list Z) :
  t <= now -> filter (recent now) (filter (recent t) l) = filter (recent now) l.
Proof.
  intro H. induction l as [|u l IH]; [reflexivity|]. simpl.
  destruct (recent t u) eqn:E; simpl; [now rewrite IH|].
  rewrite IH. unfold recent, recentAt in *.
  apply Z.ltb_ge in E.
  destruct (now - u <? windowMs) eqn:E'; [apply Z.ltb_lt in E'; lia | reflexivity].
Qed.

Lemma filter_length_incl {A} (p q : A -> bool) (l : list A) :
  (forall x, In x l -> p x = true -> q x = true) ->
  (length (filter p l) <= length (filter q l))%nat.
Proof.
  induction l as [|x l IH]; intro H; [reflexivity|]. simpl.
  assert (IH' := IH (fun y Hy => H y (or_intror Hy))).
  destruct (p x) eqn:P.
  - rewrite (H x (or_introl eq_refl) P). simpl. lia.
  - destruct (q x); simpl; lia.
Qed.

Lemma inWindow_app (a : Z) (l l' : list Z) :
  inWindow a windowMs (l ++ l') = (inWindow a windowMs l + inWindow a windowMs l')%nat.
Proof. unfold inWindow. now rewrite filter_app, length_app. Qed.

Lemma window_step (hist : list Z) (t lo : Z) :
  Forall (fun u => u <= lo) hist -> lo <= t ->
  (Z.of_nat (length (filter (recent t) hist)) < maxRequests) ->
  (forall a, Z.of_nat (inWindow a windowMs hist) <= Z.max 1 maxRequests) ->
  forall a, Z.of_nat (inWindow a windowMs (hist ++ [t])) <= Z.max 1 maxRequests.
Proof.
  intros Hlo Ht Hroom Hok a. rewrite inWindow_app.
  unfold inWindow at 2. simpl.
  destruct ((a <=? t) && (t <? a + windowMs)) eqn:E; simpl.
  - apply andb_true_iff in E as [E1 E2]. apply Z.leb_le in E1. apply Z.ltb_lt in E2.
    assert (H : (inWindow a windowMs hist <= length (filter (recent t) hist))%nat).
    { unfold inWindow. apply filter_length_incl. intros u Hu Hw.
      apply andb_true_iff in Hw as [W1 W2]. apply Z.leb_le in W1.
      unfold recent, recentAt. apply Z.ltb_lt. lia. }
    lia.
  - specialize (Hok a). lia.
Qed.

Lemma checks_window (ts : list Z) :
  forall requests hist lo,
    tracked requests hist lo ->
    Forall (fun u => u <= lo) hist ->
    Forall (fun t => lo <= t) ts ->
    nondecreasing ts ->
    (forall a, Z.of_nat (inWindow a windowMs hist) <= Z.max 1 maxRequests) ->
    forall a,
      Z.of_nat (inWindow a windowMs
                  (hist ++ admittedTimes ts
                             (fst (checks ts identifier requests maxRequests windowMs))))
      <= Z.max 1 maxRequests.
Proof.
  induction ts as [|t ts IH]; intros requests hist lo Htr Hhist Hts Hnd Hok a.
  - simpl. rewrite app_nil_r. apply Hok.
  - inversion Hts as [|? ? Hlo Hts']; subst. destruct Hnd as [Hnext Hnd].
    cbn [checks].
    destruct (SecurityValidator.checkRateLimit t identifier requests maxRequests windowMs)
      as [allowed requests'] eqn:Hc.
    destruct (checks ts identifier requests' maxRequests windowMs) as [rest requests''] eqn:Hr.
    cbn [fst admittedTimes].
    assert (Hrest : rest = fst (checks ts identifier requests' maxRequests windowMs))
      by now rewrite Hr.
    unfold SecurityValidator.checkRateLimit in Hc. unfold tracked, tracks in Htr.
    destruct (JsMap.get requests identifier) as [kept|] eqn:Hget.
    + change (fun t0 : Z => t - t0 <? windowMs) with (recent t) in Hc.
      destruct (maxRequests <=? Z.of_nat (length (filter (recent t) kept))) eqn:Hfull;
        inversion Hc; subst allowed requests'; clear Hc.
      * (* denied *)
        rewrite Hrest. apply (IH requests hist t); auto.
        -- unfold tracked, tracks. rewrite Hget. intros now Hnow. apply Htr. lia.
        -- revert Hhist. apply Forall_impl. intros; lia.
      * (* allowed *)
        apply Z.leb_gt in Hfull.
        change (t :: admittedTimes ts rest) with ([t] ++ admittedTimes ts rest).
        rewrite app_assoc, Hrest.
        apply (IH _ (hist ++ [t]) t); auto.
        -- unfold tracked, tracks. rewrite get_set_same. intros now Hnow.
           fold recent. rewrite !filter_app, filter_filter_recent by exact Hnow.
           f_equal. apply Htr. lia.
        -- apply Forall_app. split; [|repeat constructor; lia].
           revert Hhist. apply Forall_impl. intros; lia.
        -- apply (window_step hist t lo); auto.
           unfold recent. rewrite <- (Htr t Hlo). exact Hfull.
    + (* a client not seen before *)
      inversion Hc; subst allowed requests'; clear Hc. subst hist.
      change (t :: admittedTimes ts rest) with ([t] ++ admittedTimes ts rest).
      rewrite app_assoc, Hrest.
      apply (IH _ ([] ++ [t]) t); auto.
      * unfold tracked, tracks. rewrite get_set_same. reflexivity.
      * repeat constructor. lia.
      * intro a'. unfold inWindow. simpl.
        destruct ((a' <=? t) && (t <? a' + windowMs)); simpl; lia.
Qed.

End SlidingWindow.

(** X11.  A client that the limiter has not seen before, and a clock that does
    not go back: among the checks that are allowed, no more than
    [maxRequests] (one, when [maxRequests] is below one) fall into any
    window of [windowMs] milliseconds. *)
Theorem rate_limit_never_exceeds_window
        (identifier : str) (requests : JsMap.t (list Z)) (maxRequests windowMs : Z)
        (ts : list Z) (a : Z) :
  JsMap.get requests identifier = None ->
  nondecreasing ts ->
  (Z.of_nat (inWindow a windowMs
               (admittedTimes ts (fst (checks ts identifier requests maxRequests windowMs))))
   <= Z.max 1 maxRequests)%Z.
Proof.
  intros Hnew Hnd.
  destruct ts as [|t ts]; [simpl; lia|].
  apply (checks_window identifier maxRequests windowMs (t :: ts) requests [] t).
  - unfold tracks. now rewrite Hnew.
  - constructor.
  - constructor; [lia|]. destruct Hnd as [H _]. exact H.
  - exact Hnd.
  - intro a'. simpl. lia.
Qed.

Lemma rate_limit_never_exceeds_window_witness :
  (Z.of_nat (inWindow 5 60000
               (admittedTimes [0; 10; 20; 30; 60005; 60015]%Z
                  (fst (checks [0; 10; 20; 30; 60005; 60015]%Z (lit "client") JsMap.empty
                               2 60000))))
   <= Z.max 1 2)%Z.
Proof.
  apply (rate_limit_never_exceeds_window (lit "client") JsMap.empty 2 60000
           [0; 10; 20; 30; 60005; 60015]%Z 5%Z).
  - reflexivity.
  - simpl. repeat first [apply Forall_nil | apply Forall_cons | split | lia].
Defined.

(** ** [getPhoneticKey] *)

Lemma squeeze_cons2 (c d : ascii) (s : str) :
  SearchService.squeeze (c :: d :: s)
  = if eqc c d && isAny c then SearchService.squeeze (d :: s)
    else c :: SearchService.squeeze (d :: s).
Proof. reflexivity. Qed.

Lemma noRepeat_cons2 (c d : ascii) (s : str) :
  noRepeat (c :: d :: s) = negb (eqc c d && isAny c) && noRepeat (d :: s).
Proof. reflexivity. Qed.

Lemma squeeze_head (s : str) :
  forall d, exists t, SearchService.squeeze (d :: s) = d :: t.
Proof.
  induction s as [|e s IH]; intro d.
  - now exists [].
  - rewrite squeeze_cons2.
    destruct (eqc d e && isAny d) eqn:E.
    + apply andb_true_iff in E as [E _]. apply eqc_iff in E. subst e. apply IH.
    + eexists. reflexivity.
Qed.

Lemma noRepeat_squeeze (s : str) : noRepeat (SearchService.squeeze s) = true.
Proof.
  induction s as [|c s IH]; [reflexivity|].
  destruct s as [|d s]; [reflexivity|].
  rewrite squeeze_cons2.
  destruct (eqc c d && isAny c) eqn:E; [exact IH|].
  destruct (squeeze_head s d) as (t & Ht). rewrite Ht in *.
  rewrite noRepeat_cons2. now rewrite E, IH.
Qed.

Lemma noRepeat_firstn (n : nat) (s : str) :
  noRepeat s = true -> noRepeat (firstn n s) = true.
Proof.
  revert s; induction n as [|n IH]; intros s H; [reflexivity|].
  destruct s as [|c s]; [reflexivity|].
  destruct s as [|d s]; [destruct n; reflexivity|].
  rewrite noRepeat_cons2 in H. apply andb_true_iff in H as [H1 H2].
  specialize (IH (d :: s) H2).
  destruct n as [|n]; [reflexivity|].
  change (firstn (S (S n)) (c :: d :: s)) with (c :: d :: firstn n s).
  change (firstn (S n) (d :: s)) with (d :: firstn n s) in IH.
  rewrite noRepeat_cons2. now rewrite H1, IH.
Qed.

Lemma squeeze_fix (s : str) : noRepeat s = true -> SearchService.squeeze s = s.
Proof.
  induction s as [|c s IH]; [reflexivity|].
  destruct s as [|d s]; [reflexivity|].
  rewrite noRepeat_cons2, squeeze_cons2. intro H.
  apply andb_true_iff in H as [H1 H2]. apply negb_true_iff in H1.
  now rewrite H1, (IH H2).
Qed.

Lemma forall_firstn {A} (P : A -> Prop) (n : nat) (l : list A) :
  Forall P l -> Forall P (firstn n l).
Proof.
  intro H. apply Forall_forall. intros x Hx. apply in_firstn in Hx.
  revert x Hx. now apply Forall_forall.
Qed.

Lemma phoneticKey_facts (text : str) :
  (length (SearchService.getPhoneticKey text) <= 6)%nat
  /\ Forall (fun c => SearchService.isVowel c = false) (SearchService.getPhoneticKey text)
  /\ noRepeat (SearchService.getPhoneticKey text) = true.
Proof.
  unfold SearchService.getPhoneticKey, substring0. split; [|split].
  - apply firstn_le_length.
  - apply forall_firstn. apply Forall_forall. intros c Hc.
    assert (H : forall s, In c (SearchService.squeeze s) -> In c s).
    { clear. induction s as [|x s IH]; [auto|].
      destruct s as [|d s]; [auto|]. rewrite squeeze_cons2.
      destruct (eqc x d && isAny x); intro H.
      - right. now apply IH.
      - destruct H as [<-|H]; [now left | right; now apply IH]. }
    apply H in Hc. apply filter_In in Hc as [_ Hc]. now apply negb_true_iff in Hc.
  - apply noRepeat_firstn, noRepeat_squeeze.
Qed.

(** X12.  A phonetic key has at most six characters, no vowel among them, and no
    character doubled. *)
Theorem getPhoneticKey_shape (text : str) :
  (length (SearchService.getPhoneticKey text) <= 6)%nat
  /\ Forall (fun c => SearchService.isVowel c = false) (SearchService.getPhoneticKey text)
  /\ noRepeat (SearchService.getPhoneticKey text) = true.
Proof. apply phoneticKey_facts. Qed.

(** X13.  The phonetic key of a phonetic key is the key itself. *)
Theorem getPhoneticKey_idempotent (text : str) :
  SearchService.getPhoneticKey (SearchService.getPhoneticKey text)
  = SearchService.getPhoneticKey text.
Proof.
  destruct (phoneticKey_facts text) as (Hlen & Hv & Hr).
  set (k := SearchService.getPhoneticKey text) in *.
  unfold SearchService.getPhoneticKey at 1. unfold substring0.
  rewrite (filter_all _ k).
  - rewrite (squeeze_fix k Hr). apply firstn_all2. exact Hlen.
  - revert Hv. apply Forall_impl. intros c Hc. now rewrite Hc.
Qed.

(** ** [clearRateLimit] *)

(** X14.  After [clearRateLimit], the next call of [search] or [autocomplete] is
    not refused by the rate limiter, whoever the client is. *)
Theorem clearRateLimit_readmits (w : World) (query clientId : str)
        (options : SearchOptions) (limit : Z) :
  let w' := snd (SearchService.clearRateLimit w) in
  rateLimited (fst (SearchService.search query options clientId w')) = false
  /\ rateLimited (fst (SearchService.autocomplete query clientId limit w')) = false.
Proof.
  intro w'.
  assert (Hs : fst (SecurityValidator.checkRateLimit (clock w' (ticks w')) clientId
                      (ss_rateLimit (searchService w')) 30 60000) = true) by reflexivity.
  assert (Ha : fst (SecurityValidator.checkRateLimit (clock w' (ticks w')) clientId
                      (ss_rateLimit (searchService w')) 50 60000) = true) by reflexivity.
  destruct (search_effect w' query options clientId) as [_ H1].
  destruct (autocomplete_effect w' query clientId limit) as [_ H2].
  cbv zeta in H1, H2. split.
  - destruct (fst (SearchService.search query options clientId w')) as [r|[]];
      try reflexivity.
    destruct H1 as [H1 _]. specialize (H1 eq_refl). congruence.
  - destruct (fst (SearchService.autocomplete query clientId limit w')) as [r|[]];
      try reflexivity.
    destruct H2 as [H2 _]. specialize (H2 eq_refl). congruence.
Qed.

(** ** The results of [search] *)

Lemma hasStr_false (l : list str) (k : str) : hasStr l k = false -> ~ In k l.
Proof.
  unfold hasStr. intros H Hin.
  assert (E : existsb (eqs k) l = true).
  { apply existsb_exists. exists k. split; [exact Hin | apply eqs_refl]. }
  congruence.
Qed.

Lemma hasStr_true (l : list str) (k : str) : hasStr l k = true -> In k l.
Proof.
  unfold hasStr. intro H. apply existsb_exists in H as (x & Hx & E).
  apply eqs_iff in E. now subst.
Qed.

Section Tiers.

Variable index : JsMap.t (list SearchIndexEntry).
Variable options : SearchOptions.

Let types := SearchService.typesOf options.
Let minScore := SearchService.minScoreOf options.

Lemma push_state (st : list SearchResult * list str) (entry : SearchIndexEntry)
      (score : Q) (key : str) :
  tierState index options st ->
  SearchService.wanted types (snd st) entry = true ->
  In entry (SearchService.lookup index key) ->
  score = 1 \/ minScore <= score -> score <= 1 ->
  tierState index options (SearchService.push st entry score).
Proof.
  intros (H1 & H2 & H3) Hw Hin Hs Hle.
  unfold SearchService.wanted in Hw. apply andb_true_iff in Hw as [Ht Hseen].
  apply negb_true_iff in Hseen. apply hasStr_false in Hseen.
  unfold tierState, SearchService.push. cbn [fst snd]. split; [|split].
  - rewrite map_app, H1. reflexivity.
  - apply NoDup_app; [exact H2 | repeat constructor; exact (fun H => H) | ].
    intros s Hs1 [<-|[]]. exact (Hseen Hs1).
  - apply Forall_app. split; [exact H3|]. constructor; [|constructor].
    unfold goodResult. cbn [r_type r_score SearchService.createSearchResult].
    split; [|split; [exact Hs | split; [exact Hle|]]].
    + apply existsb_exists in Ht as (ty & Hty & E). apply eqType_iff in E. now subst.
    + exists key, entry. split; [exact Hin | reflexivity].
Qed.

Lemma exactEntry_tier st entry key :
  tierState index options st -> In entry (SearchService.lookup index key) ->
  tierState index options (SearchService.exactEntry types st entry).
Proof.
  intros Hst Hin. unfold SearchService.exactEntry.
  destruct (SearchService.wanted types (snd st) entry) eqn:E; [|exact Hst].
  apply (push_state st entry 1 key); auto. apply Qle_refl.
Qed.

Lemma partialEntry_tier normalized st entry key :
  tierState index options st -> In entry (SearchService.lookup index key) ->
  tierState index options (SearchService.partialEntry types minScore normalized st entry).
Proof.
  intros Hst Hin. unfold SearchService.partialEntry.
  destruct (SearchService.wanted types (snd st) entry) eqn:E; [|exact Hst].
  destruct (Qle_bool minScore _) eqn:Q; [|exact Hst].
  apply (push_state st entry _ key); auto.
  - right. now apply Qle_bool_iff.
  - apply calculateSimilarity_le_1.
Qed.

Lemma fuzzyEntry_tier normalized st entry key :
  tierState index options st -> In entry (SearchService.lookup index key) ->
  tierState index options (SearchService.fuzzyEntry types minScore normalized st entry).
Proof.
  intros Hst Hin. unfold SearchService.fuzzyEntry.
  destruct (SearchService.wanted types (snd st) entry) eqn:E; [|exact Hst].
  destruct (Qle_bool minScore _) eqn:Q; [|exact Hst].
  apply (push_state st entry _ key); auto.
  - right. now apply Qle_bool_iff.
  - apply fuzzy_score_le_1.
Qed.

Lemma fold_tier (f : list SearchResult * list str -> SearchIndexEntry
                     -> list SearchResult * list str) (key : str) :
  (forall st entry, tierState index options st ->
                    In entry (SearchService.lookup index key) ->
                    tierState index options (f st entry)) ->
  forall entries st,
    incl entries (SearchService.lookup index key) ->
    tierState index options st -> tierState index options (fold_left f entries st).
Proof.
  intros Hf. induction entries as [|e entries IH]; intros st Hin Hst; [exact Hst|].
  simpl. apply IH.
  - intros x Hx. apply Hin. now right.
  - apply Hf; [exact Hst | apply Hin; now left].
Qed.

Lemma collected_state (normalized : str) :
  exists st, SearchService.collected index options normalized = fst st
             /\ tierState index options st.
Proof.
  unfold SearchService.collected, SearchService.afterPartial.
  fold types. fold minScore.
  assert (H0 : tierState index options (SearchService.exactTier index types normalized)).
  { unfold SearchService.exactTier.
    apply (fold_tier _ normalized); [intros; eapply exactEntry_tier; eauto | apply incl_refl |].
    repeat split; constructor. }
  set (st0 := SearchService.exactTier index types normalized) in *.
  assert (H1 : tierState index options
                 (if SearchService.needsPartial (SearchService.limitOf options) (fst st0)
                  then SearchService.partialTier index types minScore normalized st0
                  else st0)).
  { destruct (SearchService.needsPartial _ _); [|exact H0].
    unfold SearchService.partialTier.
    generalize (splitSpace normalized). intro words. revert H0. generalize st0.
    induction words as [|word words IH]; intros st Hst; [exact Hst|].
    simpl. apply IH.
    destruct (2 <? length word)%nat; [|exact Hst].
    apply (fold_tier _ word); [intros; eapply partialEntry_tier; eauto | apply incl_refl |].
    exact Hst. }
  set (st1 := if SearchService.needsPartial _ _ then _ else _) in *.
  eexists. split; [reflexivity|].
  destruct (SearchService.needsFuzzy _ _ _); [|exact H1].
  unfold SearchService.fuzzyTier.
  apply (fold_tier _ (SearchService.getPhoneticKey normalized));
    [intros; eapply fuzzyEntry_tier; eauto | apply incl_refl | exact H1].
Qed.

End Tiers.

(** *** Sorting and cutting *)

Lemma insertDesc_perm {A} (score : A -> Q) (x : A) (l : list A) :
  Permutation (insertDesc score x l) (x :: l).
Proof.
  induction l as [|y l IH]; simpl; [reflexivity|].
  destruct (Qltb (score x) (score y)); [|reflexivity].
  rewrite IH. apply perm_swap.
Qed.

Lemma sortDesc_perm {A} (score : A -> Q) (l : list A) : Permutation (sortDesc score l) l.
Proof.
  induction l as [|x l IH]; simpl; [reflexivity|].
  rewrite insertDesc_perm. now constructor.
Qed.

Lemma Qltb_true (x y : Q) : Qltb x y = true -> x <= y.
Proof.
  unfold Qltb. intro H. apply negb_true_iff in H.
  apply Qlt_le_weak. apply Qnot_le_lt. intro K. apply Qle_bool_iff in K. congruence.
Qed.

Lemma Qltb_false (x y : Q) : Qltb x y = false -> y <= x.
Proof.
  unfold Qltb. intro H. apply negb_false_iff in H. now apply Qle_bool_iff.
Qed.

Lemma descending_insert {A} (score : A -> Q) (x : A) (l : list A) :
  descending (map score l) -> descending (map score (insertDesc score x l)).
Proof.
  induction l as [|y l IH]; intro H; simpl.
  - split; constructor.
  - destruct H as [Hy Hl].
    destruct (Qltb (score x) (score y)) eqn:E; simpl.
    + split; [|now apply IH].
      apply Forall_forall. intros s Hs. apply in_map_iff in Hs as (z & <- & Hz).
      apply in_insertDesc in Hz as [->|Hz]; [now apply Qltb_true|].
      rewrite Forall_forall in Hy. apply Hy. now apply in_map.
    + apply Qltb_false in E. split; [|split; assumption].
      constructor; [exact E|].
      revert Hy. apply Forall_impl. intros s Hs. now apply (Qle_trans _ (score y)).
Qed.

Lemma descending_sortDesc {A} (score : A -> Q) (l : list A) :
  descending (map score (sortDesc score l)).
Proof.
  induction l as [|x l IH]; simpl; [exact I|]. now apply descending_insert.
Qed.

Lemma descending_firstn (n : nat) (l : list Q) : descending l -> descending (firstn n l).
Proof.
  revert l; induction n as [|n IH]; intros [|x l] H; simpl; auto.
  destruct H as [H1 H2]. split; [|now apply IH]. now apply forall_firstn.
Qed.

Lemma NoDup_firstn_of {A} (n : nat) (l : list A) : NoDup l -> NoDup (firstn n l).
Proof.
  revert l; induction n as [|n IH]; intros [|x l] H; simpl; try constructor.
  - inversion H; subst. intro K. apply in_firstn in K. contradiction.
  - inversion H; subst. now apply IH.
Qed.

Lemma slice0_firstn {A} (limit : Z) (l : list A) : exists n, slice0 limit l = firstn n l.
Proof. unfold slice0. destruct (0 <=? limit)%Z; eexists; reflexivity. Qed.

Lemma NoDup_map_of {A B C} (f : A -> B) (h : B -> C) (l : list A) :
  NoDup (map (fun x => h (f x)) l) -> NoDup (map f l).
Proof.
  induction l as [|x l IH]; intro H; simpl in *; [constructor|].
  inversion H; subst. constructor; [|now apply IH].
  intro K. apply H2. apply in_map_iff in K as (y & E & Hy).
  apply in_map_iff. exists y. split; [now rewrite E | exact Hy].
Qed.

(** *** From the call to its answer *)

Lemma search_answer (w w' : World) (query : str) (options : SearchOptions) (clientId : str)
      (results : list SearchResult) :
  SearchService.search query options clientId w = (Ok results, w') ->
  results = []
  \/ exists sanitized,
       results = SearchService.searchAnswer (ss_searchIndex (searchService w)) options sanitized.
Proof.
  intro H.
  remember (SearchService.search query options clientId w) as res eqn:Hres.
  unfold SearchService.search in Hres.
  set (chk := SecurityValidator.checkRateLimit (clock w (ticks w)) clientId
                (ss_rateLimit (searchService w)) 30 60000) in *.
  run_admission res chk.
  destruct (fst chk); cbn [negb] in Hres; [|subst res; discriminate H].
  run_sanitizer query Hres.
  destruct out as [sanitized|e]; [|subst res; discriminate H].
  destruct (negb (SearchService.nonEmpty sanitized)).
  - unfold ret in Hres. subst res. inversion H. now left.
  - unfold bind, gets, ret in Hres. cbn in Hres. subst res. inversion H.
    right. exists sanitized. reflexivity.
Qed.

Lemma searchAnswer_good (index : JsMap.t (list SearchIndexEntry)) (options : SearchOptions)
      (sanitized : str) :
  let results := SearchService.searchAnswer index options sanitized in
  Forall (goodResult index options) results
  /\ NoDup (map resultKey results)
  /\ descending (map r_score results).
Proof.
  intro results. unfold results, SearchService.searchAnswer.
  destruct (collected_state index options (normalize sanitized)) as (st & E & H1 & H2 & H3).
  rewrite E.
  destruct (slice0_firstn (SearchService.limitOf options) (sortDesc r_score (fst st)))
    as (n & ->).
  split; [|split].
  - apply forall_firstn. apply Forall_forall. intros r Hr.
    apply in_sortDesc in Hr. revert r Hr. now apply Forall_forall.
  - rewrite <- firstn_map. apply NoDup_firstn_of.
    apply (Permutation_NoDup (l := map resultKey (fst st))).
    + apply Permutation_map. symmetry. apply sortDesc_perm.
    + now rewrite H1.
  - rewrite <- firstn_map. apply descending_firstn, descending_sortDesc.
Qed.

(** X15.  The results of [search] come in descending order of score. *)
Theorem search_results_descending (w w' : World) (query : str) (options : SearchOptions)
        (clientId : str) (results : list SearchResult) :
  SearchService.search query options clientId w = (Ok results, w') ->
  descending (map r_score results).
Proof.
  intro H. apply search_answer in H as [->|(sanitized & ->)]; [exact I|].
  apply searchAnswer_good.
Qed.

Lemma search_results_descending_witness :
  descending (map r_score
                (resultsOf (fst (SearchService.search (lit "mamuntha") noOptions (lit "client")
                                                      sampleWorld)))).
Proof.
  apply (search_results_descending sampleWorld
           (snd (SearchService.search (lit "mamuntha") noOptions (lit "client") sampleWorld))
           (lit "mamuntha") noOptions (lit "client")).
  vm_compute. reflexivity.
Defined.

(** X16.  With a limit that is not negative, [search] returns at most [limit]
    results (20 when the options give none). *)
Theorem search_results_within_limit (w w' : World) (query : str) (options : SearchOptions)
        (clientId : str) (results : list SearchResult) :
  SearchService.search query options clientId w = (Ok results, w') ->
  (0 <= SearchService.limitOf options)%Z ->
  (Z.of_nat (length results) <= SearchService.limitOf options)%Z.
Proof.
  intros H Hl. apply search_answer in H as [->|(sanitized & ->)]; [simpl; lia|].
  unfold SearchService.searchAnswer, slice0.
  apply Z.leb_le in Hl. rewrite Hl. apply Z.leb_le in Hl.
  pose proof (firstn_le_length (Z.to_nat (SearchService.limitOf options))
                (sortDesc r_score
                   (SearchService.collected (ss_searchIndex (searchService w)) options
                                            (normalize sanitized)))) as H.
  rewrite length_firstn in *. lia.
Qed.

Lemma search_results_within_limit_witness :
  (Z.of_nat (length (resultsOf (fst (SearchService.search
                                        (lit "mamuntha") (mkOptions (Some 1%Z) None None None)
                                        (lit "client") sampleWorld))))
   <= 1)%Z.
Proof.
  apply (search_results_within_limit sampleWorld
           (snd (SearchService.search (lit "mamuntha") (mkOptions (Some 1%Z) None None None)
                                      (lit "client") sampleWorld))
           (lit "mamuntha") (mkOptions (Some 1%Z) None None None) (lit "client")).
  - vm_compute. reflexivity.
  - vm_compute. discriminate.
Defined.

(** X17.  No two results of [search] have the same name and type. *)
Theorem search_results_distinct (w w' : World) (query : str) (options : SearchOptions)
        (clientId : str) (results : list SearchResult) :
  SearchService.search query options clientId w = (Ok results, w') ->
  NoDup (map (fun r => (r_name r, r_type r)) results).
Proof.
  intro H. apply search_answer in H as [->|(sanitized & ->)]; [constructor|].
  apply (NoDup_map_of (fun r => (r_name r, r_type r))
                      (fun nt => fst nt ++ lit "-" ++ typeName (snd nt))).
  apply (searchAnswer_good (ss_searchIndex (searchService w)) options sanitized).
Qed.

Lemma search_results_distinct_witness :
  NoDup (map (fun r => (r_name r, r_type r))
             (resultsOf (fst (SearchService.search (lit "mamuntha") noOptions (lit "client")
                                                   sampleWorld)))).
Proof.
  apply (search_results_distinct sampleWorld
           (snd (SearchService.search (lit "mamuntha") noOptions (lit "client") sampleWorld))
           (lit "mamuntha") noOptions (lit "client")).
  vm_compute. reflexivity.
Defined.

(** X18.  Every result of [search] is made from an entry of the index, has one of
    the requested types, and a score that is 1.0 or at least [minScore], and
    never above 1.0. *)
Theorem search_results_from_index (w w' : World) (query : str) (options : SearchOptions)
        (clientId : str) (results : list SearchResult) :
  SearchService.search query options clientId w = (Ok results, w') ->
  Forall (goodResult (ss_searchIndex (searchService w)) options) results.
Proof.
  intro H. apply search_answer in H as [->|(sanitized & ->)]; [constructor|].
  apply searchAnswer_good.
Qed.

Lemma search_results_from_index_witness :
  Forall (goodResult (ss_searchIndex (searchService sampleWorld)) noOptions)
         (resultsOf (fst (SearchService.search (lit "mamuntha") noOptions (lit "client")
                                               sampleWorld))).
Proof.
  apply (search_results_from_index sampleWorld
           (snd (SearchService.search (lit "mamuntha") noOptions (lit "client") sampleWorld))
           (lit "mamuntha") noOptions (lit "client")).
  vm_compute. reflexivity.
Defined.

(** ** The results of [autocomplete] *)

Section Scan.

Variable index : JsMap.t (list SearchIndexEntry).
Variable normalized : str.

Lemma autocompleteEntry_inv st key entries entry :
  In (key, entries) (JsMap.entries index) -> In entry entries ->
  includes key normalized || includes normalized key = true ->
  scanInv index normalized st ->
  scanInv index normalized (SearchService.autocompleteEntry normalized st entry).
Proof.
  intros Hk He Hok (H1 & H2 & H3). unfold SearchService.autocompleteEntry.
  destruct st as [results seen]. cbn [fst snd] in *.
  destruct (hasStr seen (e_name entry)) eqn:Hs; cbn [negb]; [repeat split; assumption|].
  destruct (above03 _) eqn:Hq; [|repeat split; assumption].
  apply hasStr_false in Hs.
  unfold scanInv. cbn [fst snd]. split; [|split].
  - now rewrite map_app, H1.
  - apply NoDup_app; [exact H2 | repeat constructor; exact (fun H => H) | ].
    intros s Hs1 [<-|[]]. exact (Hs Hs1).
  - apply Forall_app. split; [exact H3|]. constructor; [|constructor].
    exists key, entries, entry. auto.
Qed.

Lemma autocompleteKey_inv st key entries :
  In (key, entries) (JsMap.entries index) ->
  scanInv index normalized st ->
  scanInv index normalized (SearchService.autocompleteKey normalized st (key, entries)).
Proof.
  intros Hk Hst. unfold SearchService.autocompleteKey.
  destruct (includes key normalized || includes normalized key) eqn:Hok; [|exact Hst].
  assert (H : forall es st, incl es entries -> scanInv index normalized st ->
                            scanInv index normalized
                              (fold_left (SearchService.autocompleteEntry normalized) es st)).
  { induction es as [|e es IH]; intros st' Hin Hst'; [exact Hst'|].
    simpl. apply IH; [intros x Hx; apply Hin; now right|].
    apply (autocompleteEntry_inv st' key entries e); auto. apply Hin. now left. }
  apply H; [apply incl_refl | exact Hst].
Qed.

Lemma autocompleteScan_inv :
  scanInv index normalized (SearchService.autocompleteScan index normalized).
Proof.
  unfold SearchService.autocompleteScan.
  assert (H : forall pairs st, incl pairs (JsMap.entries index) ->
                               scanInv index normalized st ->
                               scanInv index normalized
                                 (fold_left (SearchService.autocompleteKey normalized) pairs st)).
  { induction pairs as [|[key entries] pairs IH]; intros st Hin Hst; [exact Hst|].
    simpl. apply IH; [intros x Hx; apply Hin; now right|].
    apply autocompleteKey_inv; [apply Hin; now left | exact Hst]. }
  apply H; [apply incl_refl|]. repeat split; constructor.
Qed.

End Scan.

Lemma autocomplete_answer (w w' : World) (query clientId : str) (limit : Z)
      (names : list str) :
  SearchService.autocomplete query clientId limit w = (Ok names, w') ->
  names = []
  \/ names = SearchService.autocompleteAnswer (ss_searchIndex (searchService w))
               (SecurityValidator.cleaned query) limit.
Proof.
  intro H.
  remember (SearchService.autocomplete query clientId limit w) as res eqn:Hres.
  unfold SearchService.autocomplete in Hres.
  set (chk := SecurityValidator.checkRateLimit (clock w (ticks w)) clientId
                (ss_rateLimit (searchService w)) 50 60000) in *.
  run_admission res chk.
  destruct (fst chk); cbn [negb] in Hres; [|subst res; discriminate H].
  unfold bind at 1 in Hres.
  match type of Hres with
  | context [SecurityValidator.sanitizeSearchQuery query ?w1] =>
      destruct (SecurityValidator.sanitizeSearchQuery query w1) as [out w2] eqn:Hs
  end.
  destruct out as [sanitized|e]; [|subst res; discriminate H].
  assert (Hc : sanitized = SecurityValidator.cleaned query).
  { revert Hs. unfold SecurityValidator.sanitizeSearchQuery.
    destruct query as [|c query]; [intro Hs; now inversion Hs|].
    destruct (SecurityValidator.MAX_SEARCH_LENGTH <? length (c :: query))%nat;
      [intro Hs; discriminate Hs|].
    destruct (length (c :: query) <? 2)%nat; [intro Hs; discriminate Hs|].
    intro Hs. now apply sanitize_value in Hs. }
  destruct (negb (SearchService.nonEmpty sanitized) || (length sanitized <? 2)%nat).
  - unfold ret in Hres. subst res. inversion H. now left.
  - pose proof (sanitizeSearchQuery_index _ _ _ _ Hs) as Hix. cbn in Hix.
    unfold bind, gets, ret in Hres. cbn in Hres. subst res.
    injection H as Hn Hw. right. rewrite <- Hn, <- Hc, Hix. reflexivity.
Qed.

(** X19.  The names that [autocomplete] returns are distinct, at most [limit] when
    [limit] is not negative, and each is the name of an index entry whose
    key contains the normalized query or is contained in it, with a
    similarity of 3/10 or more: the test [score > 0.3] of the code, made on
    doubles, holds from the score 3/10 on. *)
Theorem autocomplete_results (w w' : World) (query clientId : str) (limit : Z)
        (names : list str) :
  SearchService.autocomplete query clientId limit w = (Ok names, w') ->
  let normalized := normalize (SecurityValidator.cleaned query) in
  NoDup names
  /\ ((0 <= limit)%Z -> (Z.of_nat (length names) <= limit)%Z)
  /\ Forall (namedInIndex (ss_searchIndex (searchService w))
               (fun key => includes key normalized || includes normalized key)
               (fun entry => above03 (calculateSimilarity normalized (e_normalized entry))))
            names.
Proof.
  intros H normalized.
  apply autocomplete_answer in H as [->| ->].
  { repeat split; [constructor | simpl; lia | constructor]. }
  unfold SearchService.autocompleteAnswer. fold normalized.
  destruct (autocompleteScan_inv (ss_searchIndex (searchService w)) normalized)
    as (H1 & H2 & H3).
  set (st := SearchService.autocompleteScan _ _) in *.
  split; [|split].
  - destruct (slice0_firstn limit (sortDesc snd (fst st))) as (n & ->).
    rewrite <- firstn_map. apply NoDup_firstn_of.
    apply (Permutation_NoDup (l := map fst (fst st))).
    + apply Permutation_map. symmetry. apply sortDesc_perm.
    + now rewrite H1.
  - intro Hl. rewrite length_map. unfold slice0.
    apply Z.leb_le in Hl. rewrite Hl. apply Z.leb_le in Hl.
    rewrite length_firstn. lia.
  - apply Forall_forall. intros name Hn.
    apply in_map_iff in Hn as (r & <- & Hr).
    apply in_slice0 in Hr. apply in_sortDesc in Hr.
    rewrite Forall_forall in H3. apply H3. rewrite <- H1. now apply in_map.
Qed.

Lemma autocomplete_results_witness :
  let names := resultsOf (fst (SearchService.autocomplete (lit "mamu") (lit "client") 2
                                                          sampleWorld)) in
  let normalized := normalize (SecurityValidator.cleaned (lit "mamu")) in
  NoDup names
  /\ ((0 <= 2)%Z -> (Z.of_nat (length names) <= 2)%Z)
  /\ Forall (namedInIndex (ss_searchIndex (searchService sampleWorld))
               (fun key => includes key normalized || includes normalized key)
               (fun entry => above03 (calculateSimilarity normalized (e_normalized entry))))
            names.
Proof.
  apply (autocomplete_results sampleWorld
           (snd (SearchService.autocomplete (lit "mamu") (lit "client") 2 sampleWorld))
           (lit "mamu") (lit "client") 2).
  vm_compute. reflexivity.
Defined.

(** The test at its edge: ['bkm'] against ['baeiouakam'] has a distance of 7
    at a length of 10, and the name is in the answer. *)
Lemma autocomplete_at_three_tenths :
  calculateSimilarity (lit "bkm") (lit "baeiouakam") == 3 # 10
  /\ fst (SearchService.autocomplete (lit "bkm") (lit "client") 10
            (startWorld tickingClock [townRecord (lit "BAEIOUAKAM")]))
     = Ok [lit "BO"; lit "BAEIOUAKAM"].
Proof. split; vm_compute; reflexivity. Qed.

(** ** The order of [sort()] on strings *)

Lemma code_inj (x y : ascii) : code x = code y -> x = y.
Proof.
  unfold code. intro H. rewrite <- (ascii_nat_embedding x), <- (ascii_nat_embedding y).
  now rewrite H.
Qed.

Lemma strLtb_trans (a : str) :
  forall b c, strLtb a b = true -> strLtb b c = true -> strLtb a c = true.
Proof.
  induction a as [|x a IH]; intros [|y b] [|z c]; simpl; try discriminate; auto.
  intros H1 H2.
  apply orb_true_iff in H1. apply orb_true_iff in H2. apply orb_true_iff.
  destruct H1 as [H1|H1], H2 as [H2|H2].
  - left. apply Nat.ltb_lt in H1, H2. apply Nat.ltb_lt. lia.
  - apply andb_true_iff in H2 as [H2 _]. apply Nat.eqb_eq in H2.
    left. apply Nat.ltb_lt in H1. apply Nat.ltb_lt. lia.
  - apply andb_true_iff in H1 as [H1 _]. apply Nat.eqb_eq in H1.
    left. apply Nat.ltb_lt in H2. apply Nat.ltb_lt. lia.
  - apply andb_true_iff in H1 as [E1 H1]. apply andb_true_iff in H2 as [E2 H2].
    apply Nat.eqb_eq in E1, E2. right. apply andb_true_iff. split.
    + apply Nat.eqb_eq. lia.
    + now apply (IH b c).
Qed.

Lemma strLtb_total (a : str) :
  forall b, strLtb b a = false -> a = b \/ strLtb a b = true.
Proof.
  induction a as [|x a IH]; intros [|y b]; simpl; auto; try discriminate.
  intro H. apply orb_false_iff in H as [H1 H2]. apply Nat.ltb_ge in H1.
  destruct (Nat.eq_dec (code x) (code y)) as [E|E].
  - assert (E' : (code y =? code x)%nat = true) by (apply Nat.eqb_eq; lia).
    rewrite E' in H2. simpl in H2.
    apply code_inj in E. subst y.
    destruct (IH b H2) as [->|K]; [now left|].
    right. rewrite Nat.eqb_refl, K. simpl. apply orb_true_r.
  - right. apply orb_true_iff. left. apply Nat.ltb_lt. lia.
Qed.

Lemma strLtb_irrefl (a : str) : strLtb a a = false.
Proof.
  induction a as [|x a IH]; [reflexivity|]. simpl.
  rewrite Nat.ltb_irrefl, Nat.eqb_refl, IH. reflexivity.
Qed.

Lemma strLtb_asym (a b : str) : strLtb a b = true -> strLtb b a = false.
Proof.
  intro H. destruct (strLtb b a) eqn:E; [|reflexivity].
  pose proof (strLtb_trans a b a H E) as K. now rewrite strLtb_irrefl in K.
Qed.

(** [a <= b <= c] gives [a <= c], where [a <= b] is read [not (b < a)]. *)
Lemma strLe_trans (a b c : str) :
  strLtb b a = false -> strLtb c b = false -> strLtb c a = false.
Proof.
  intros H1 H2. destruct (strLtb c a) eqn:E; [|reflexivity].
  destruct (strLtb_total a b H1) as [->|K]; [congruence|].
  pose proof (strLtb_trans c a b E K). congruence.
Qed.

Lemma in_insertAsc (x y : str) (l : list str) : In y (insertAsc x l) <-> y = x \/ In y l.
Proof.
  induction l as [|z l IH]; simpl; [intuition|].
  destruct (strLtb z x); simpl; rewrite ?IH; intuition.
Qed.

Lemma insertAsc_perm (x : str) (l : list str) : Permutation (insertAsc x l) (x :: l).
Proof.
  induction l as [|y l IH]; simpl; [reflexivity|].
  destruct (strLtb y x); [|reflexivity]. rewrite IH. apply perm_swap.
Qed.

Lemma sortStrings_perm (l : list str) : Permutation (sortStrings l) l.
Proof.
  induction l as [|x l IH]; simpl; [reflexivity|].
  rewrite insertAsc_perm. now constructor.
Qed.

Lemma ascending_insert (x : str) (l : list str) : ascending l -> ascending (insertAsc x l).
Proof.
  induction l as [|y l IH]; intro H; simpl.
  - split; constructor.
  - destruct H as [Hy Hl].
    destruct (strLtb y x) eqn:E; simpl.
    + split; [|now apply IH].
      apply Forall_forall. intros s Hs.
      apply in_insertAsc in Hs as [->|Hs]; [now apply strLtb_asym|].
      rewrite Forall_forall in Hy. now apply Hy.
    + split; [|split; assumption].
      constructor; [exact E|].
      revert Hy. apply Forall_impl. intros s Hs. now apply (strLe_trans x y s).
Qed.

Lemma ascending_sortStrings (l : list str) : ascending (sortStrings l).
Proof.
  induction l as [|x l IH]; simpl; [exact I|]. now apply ascending_insert.
Qed.

(** ** The results of [getSuggestions] *)

Section Suggestions.

Variable index : JsMap.t (list SearchIndexEntry).
Variable normalized : str.
Variable type : option str.
Variable limit : Z.

Let ok (set : list str) : Prop :=
  NoDup set
  /\ Forall (namedInIndex index (fun key => startsWith key normalized)
                          (SearchService.typeMatches type)) set.

Lemma setAdd_ok (set : list str) (key : str) (entries : list SearchIndexEntry)
      (entry : SearchIndexEntry) :
  In (key, entries) (JsMap.entries index) -> In entry entries ->
  startsWith key normalized = true -> SearchService.typeMatches type entry = true ->
  ok set -> ok (setAdd set (e_name entry)).
Proof.
  intros Hk He Hs Ht [H1 H2]. unfold setAdd.
  destruct (hasStr set (e_name entry)) eqn:E; [split; assumption|].
  apply hasStr_false in E. split.
  - apply NoDup_app; [exact H1 | repeat constructor; exact (fun H => H) | ].
    intros s Hs1 [<-|[]]. exact (E Hs1).
  - apply Forall_app. split; [exact H2|]. constructor; [|constructor].
    exists key, entries, entry. auto.
Qed.

Lemma suggestionsLoop_ok (pairs : list (str * list SearchIndexEntry)) :
  forall set, incl pairs (JsMap.entries index) -> ok set ->
              ok (SearchService.suggestionsLoop normalized type limit pairs set).
Proof.
  induction pairs as [|[key entries] pairs IH]; intros set Hin Hset; [exact Hset|].
  cbn [SearchService.suggestionsLoop].
  assert (Hk : In (key, entries) (JsMap.entries index)) by (apply Hin; now left).
  set (set' := if startsWith key normalized then _ else set).
  assert (Hset' : ok set').
  { unfold set'. destruct (startsWith key normalized) eqn:Hs; [|exact Hset].
    assert (H : forall es s, incl es entries -> ok s ->
                             ok (fold_left (fun set entry =>
                                              if SearchService.typeMatches type entry
                                              then setAdd set (e_name entry) else set) es s)).
    { induction es as [|e es IHes]; intros s Hes Hs0; [exact Hs0|].
      simpl. apply IHes; [intros x Hx; apply Hes; now right|].
      destruct (SearchService.typeMatches type e) eqn:Ht; [|exact Hs0].
      apply (setAdd_ok s key entries e); auto. apply Hes. now left. }
    apply H; [apply incl_refl | exact Hset]. }
  destruct (limit <=? Z.of_nat (length set'))%Z; [exact Hset'|].
  apply IH; [intros x Hx; apply Hin; now right | exact Hset'].
Qed.

End Suggestions.

Lemma sanitizeSearchQuery_value (query : str) (w w' : World) (sanitized : str) :
  SecurityValidator.sanitizeSearchQuery query w = (Ok sanitized, w') ->
  sanitized = SecurityValidator.cleaned query.
Proof.
  unfold SecurityValidator.sanitizeSearchQuery.
  destruct query as [|c query]; [intro Hs; now inversion Hs|].
  destruct (SecurityValidator.MAX_SEARCH_LENGTH <? length (c :: query))%nat;
    [intro Hs; discriminate Hs|].
  destruct (length (c :: query) <? 2)%nat; [intro Hs; discriminate Hs|].
  intro Hs. now apply sanitize_value in Hs.
Qed.

(** X20.  The suggestions are returned in ascending order and without repeats; at
    most [limit] of them when [limit] is not negative; and each is the name
    of an index entry of the requested type whose key starts with the
    normalized input. *)
Theorem getSuggestions_results (w w' : World) (partial : str) (type : option str)
        (limit : Z) (names : list str) :
  SearchService.getSuggestions partial type limit w = (Ok names, w') ->
  ascending names
  /\ NoDup names
  /\ ((0 <= limit)%Z -> (Z.of_nat (length names) <= limit)%Z)
  /\ Forall (namedInIndex (ss_searchIndex (searchService w))
               (fun key => startsWith key (normalize (SecurityValidator.cleaned partial)))
               (SearchService.typeMatches type))
            names.
Proof.
  unfold SearchService.getSuggestions. unfold bind at 1.
  destruct (SecurityValidator.sanitizeSearchQuery partial w) as [out w2] eqn:Hs.
  destruct out as [sanitized|e]; [|intro H; discriminate H].
  pose proof (sanitizeSearchQuery_index _ _ _ _ Hs) as Hix.
  apply sanitizeSearchQuery_value in Hs. subst sanitized.
  destruct (negb _ || _).
  { intro H. inversion H. repeat split; [constructor | simpl; lia | constructor]. }
  unfold bind, gets, ret. cbn. intro H. injection H as Hn Hw. subst names.
  rewrite Hix.
  set (index := ss_searchIndex (searchService w)).
  set (normalized := normalize (SecurityValidator.cleaned partial)).
  destruct (suggestionsLoop_ok index normalized type limit (JsMap.entries index) [])
    as [H1 H2]; [apply incl_refl | split; constructor |].
  set (found := SearchService.suggestionsLoop _ _ _ _ _) in *.
  split; [|split; [|split]].
  - apply ascending_sortStrings.
  - apply (Permutation_NoDup (l := slice0 limit found)).
    + symmetry. apply sortStrings_perm.
    + destruct (slice0_firstn limit found) as (n & ->). now apply NoDup_firstn_of.
  - intro Hl. rewrite (Permutation_length (sortStrings_perm _)). unfold slice0.
    apply Z.leb_le in Hl. rewrite Hl. apply Z.leb_le in Hl.
    rewrite length_firstn. lia.
  - apply Forall_forall. intros name Hn.
    apply (Permutation_in _ (sortStrings_perm _)) in Hn. apply in_slice0 in Hn.
    rewrite Forall_forall in H2. now apply H2.
Qed.

Lemma getSuggestions_results_witness :
  let names := resultsOf (fst (SearchService.getSuggestions (lit "ma") (Some (lit "town")) 5
                                                            sampleWorld)) in
  ascending names
  /\ NoDup names
  /\ ((0 <= 5)%Z -> (Z.of_nat (length names) <= 5)%Z)
  /\ Forall (namedInIndex (ss_searchIndex (searchService sampleWorld))
               (fun key => startsWith key (normalize (SecurityValidator.cleaned (lit "ma"))))
               (SearchService.typeMatches (Some (lit "town"))))
            names.
Proof.
  apply (getSuggestions_results sampleWorld
           (snd (SearchService.getSuggestions (lit "ma") (Some (lit "town")) 5 sampleWorld))
           (lit "ma") (Some (lit "town")) 5).
  vm_compute. reflexivity.
Defined.

(** X21.  [getSuggestions] is outside the rate limiter: it never answers with the
    rate-limit error and leaves the windows of all clients as they are. *)
Theorem getSuggestions_not_rate_limited (w : World) (partial : str) (type : option str)
        (limit : Z) :
  rateLimited (fst (SearchService.getSuggestions partial type limit w)) = false
  /\ ss_rateLimit (searchService (snd (SearchService.getSuggestions partial type limit w)))
     = ss_rateLimit (searchService w).
Proof.
  remember (SearchService.getSuggestions partial type limit w) as res eqn:Hres.
  unfold SearchService.getSuggestions in Hres. unfold bind at 1 in Hres.
  destruct (sanitizeSearchQuery_frame partial w) as [[rs Hrs] Hne].
  destruct (SecurityValidator.sanitizeSearchQuery partial w) as [out w2].
  cbn [fst snd] in *. subst w2.
  destruct out as [sanitized|e].
  - destruct (negb _ || _); unfold bind, gets, ret in Hres; cbn in Hres; subst res;
      split; reflexivity.
  - subst res. cbn. split; [|reflexivity]. destruct e; try reflexivity. contradiction.
Qed.

(** ** The cache from the start of the program *)

Lemma runOps_frame (ops : list CacheOp) :
  forall w,
    advancing (clock w) -> (1 <= ls_maxCacheSize (locationService w))%nat ->
    cacheInv w -> setsNonEmptyKeys ops ->
    clock (snd (runOps ops w)) = clock w
    /\ ls_maxCacheSize (locationService (snd (runOps ops w)))
       = ls_maxCacheSize (locationService w).
Proof.
  induction ops as [|op ops IH]; intros w Hadv Hmax Hinv Hkeys; [split; reflexivity|].
  simpl. unfold bind.
  destruct (runOp_inv op w Hadv Hmax Hinv) as (w' & Hrun & Hinv' & Hclock & Hsame).
  { intros key value ->. apply (Hkeys key value). now left. }
  rewrite Hrun.
  destruct (IH w') as (H1 & H2).
  - now rewrite Hclock.
  - now rewrite Hsame.
  - exact Hinv'.
  - intros key value H. apply (Hkeys key value). now right.
  - rewrite H1, H2, Hclock, Hsame. split; reflexivity.
Qed.

Lemma storeKeys_nonEmpty (n : nat) : setsNonEmptyKeys (storeKeys n).
Proof.
  intros key value H. unfold storeKeys in H.
  apply in_map_iff in H as (i & E & _). inversion E. discriminate.
Qed.

(** X22.  From the start of the program and with a clock that advances at every
    reading, no sequence of lookups and stores (of non-empty keys) throws or
    takes the cache above 1000 entries. *)
Theorem cache_stays_within_bound (readings : nat -> Z) (records : list LocationRecord)
        (ops : list CacheOp) :
  advancing readings -> setsNonEmptyKeys ops ->
  fst (runOps ops (startWorld readings records)) = Ok tt
  /\ (JsMap.size (cacheOf (snd (runOps ops (startWorld readings records)))) <= 1000)%nat.
Proof.
  intros Hadv Hkeys.
  destruct (runOps_bound ops (startWorld readings records)) as (H1 & _ & H2); auto.
  - cbn [startWorld locationService ls_maxCacheSize]. lia.
  - apply startWorld_inv.
Qed.

Lemma cache_stays_within_bound_witness :
  let ops := [OpSet (lit "provinces") (VStrings [lit "EASTERN"]); OpGet (lit "provinces");
              OpSet (lit "place-bo") VNull; OpGet (lit "place-x")] in
  fst (runOps ops (startWorld tickingClock [sampleRecord])) = Ok tt
  /\ (JsMap.size (cacheOf (snd (runOps ops (startWorld tickingClock [sampleRecord])))) <= 1000)%nat.
Proof.
  apply (cache_stays_within_bound tickingClock [sampleRecord]).
  - exact tickingClock_advances.
  - intros key value H. simpl in H.
    destruct H as [H|[H|[H|[H|[]]]]]; inversion H; discriminate.
Defined.

(** X23.  When a run from the start of the program has filled the cache, the next
    store evicts an entry of the cache whose access time no other entry
    undercuts, and then inserts. *)
Theorem eviction_takes_least_recent (readings : nat -> Z) (records : list LocationRecord)
        (ops : list CacheOp) (key : str) (value : CacheValue) :
  advancing readings -> setsNonEmptyKeys ops ->
  let w := snd (runOps ops (startWorld readings records)) in
  JsMap.size (cacheOf w) = 1000%nat ->
  let victim := LocationService.oldest (readings (ticks w)) (timesOf w) in
  In (fst victim) (JsMap.keys (cacheOf w))
  /\ In victim (timesOf w)
  /\ (forall k t, In (k, t) (timesOf w) -> (snd victim <= t)%Z)
  /\ cacheOf (snd (LocationService.setToCache key value w))
     = JsMap.set (JsMap.delete (cacheOf w) (fst victim)) key value.
Proof.
  intros Hadv Hkeys w Hfull.
  assert (H0 : (1 <= ls_maxCacheSize (locationService (startWorld readings records)))%nat)
    by (cbn [startWorld locationService ls_maxCacheSize]; lia).
  destruct (runOps_bound ops (startWorld readings records) Hadv H0
              (startWorld_inv readings records) Hkeys) as (_ & Hinv & _).
  destruct (runOps_frame ops (startWorld readings records) Hadv H0
              (startWorld_inv readings records) Hkeys) as (Hc & Hm).
  fold w in Hinv, Hc, Hm. cbn [startWorld clock locationService ls_maxCacheSize] in Hc, Hm.
  rewrite <- Hc.
  apply full_cache_evicts_oldest.
  - now rewrite Hc.
  - rewrite Hm. lia.
  - exact Hinv.
  - now rewrite Hm.
Qed.

Lemma eviction_takes_least_recent_witness :
  let w := snd (runOps (storeKeys 1000) (startWorld tickingClock [])) in
  let victim := LocationService.oldest (tickingClock (ticks w)) (timesOf w) in
  In (fst victim) (JsMap.keys (cacheOf w))
  /\ In victim (timesOf w)
  /\ (forall k t, In (k, t) (timesOf w) -> (snd victim <= t)%Z)
  /\ cacheOf (snd (LocationService.setToCache (lit "provinces") (VStrings []) w))
     = JsMap.set (JsMap.delete (cacheOf w) (fst victim)) (lit "provinces") (VStrings []).
Proof.
  apply (eviction_takes_least_recent tickingClock [] (storeKeys 1000)
           (lit "provinces") (VStrings [])).
  - exact tickingClock_advances.
  - apply storeKeys_nonEmpty.
  - vm_compute. reflexivity.
Defined.

(** ** A row written by [exportCSV] and read by [parseCsvLine] *)

Lemma replaceChar_absent (c : ascii) (rep s : str) :
  Forall (fun x => eqc x c = false) s -> SecurityValidator.replaceChar c rep s = s.
Proof.
  induction 1 as [|x s Hx _ IH]; [reflexivity|].
  unfold SecurityValidator.replaceChar in *. simpl. now rewrite Hx, IH.
Qed.

(** Characters that are not quotes are added to the current field: all of
    them inside quotes, and outside quotes when none is a comma. *)
Lemma parseCsvFrom_run (s rest : str) :
  forall result current inQuotes,
    Forall (fun c => isQuote c = false) s ->
    (inQuotes = true \/ Forall (fun c => isComma c = false) s) ->
    Processor.parseCsvFrom (s ++ rest) result current inQuotes
    = Processor.parseCsvFrom rest result (current ++ s) inQuotes.
Proof.
  induction s as [|x s IH]; intros result current inQuotes Hq Hc.
  - now rewrite app_nil_r.
  - inversion Hq as [|? ? Hx Hq']; subst.
    cbn [app Processor.parseCsvFrom]. rewrite Hx.
    assert (E : isComma x && negb inQuotes = false).
    { destruct Hc as [->|Hc]; [now rewrite andb_false_r|].
      inversion Hc; subst. now rewrite H1. }
    rewrite E, IH; [now rewrite <- app_assoc | exact Hq' |].
    destruct Hc as [Hc|Hc]; [now left | right; now inversion Hc].
Qed.

Lemma existsb_false_forall {A} (p : A -> bool) (l : list A) :
  existsb p l = false -> Forall (fun x => p x = false) l.
Proof.
  induction l as [|x l IH]; simpl; [constructor|].
  intro H. apply orb_false_iff in H as [H1 H2]. constructor; auto.
Qed.

Lemma parseCsvFrom_cell (cell rest : str) (result : list str) :
  Forall (fun c => isQuote c = false) cell ->
  Processor.parseCsvFrom (ExportService.escapeCell cell ++ rest) result [] false
  = Processor.parseCsvFrom rest result cell false.
Proof.
  intro Hq. unfold ExportService.escapeCell.
  rewrite (replaceChar_absent quote _ cell Hq). cbv zeta.
  destruct (existsb _ cell) eqn:E.
  - cbn [app Processor.parseCsvFrom]. unfold isQuote at 1. rewrite eqc_refl. cbn [negb].
    rewrite <- app_assoc. rewrite parseCsvFrom_run by auto.
    cbn [app Processor.parseCsvFrom]. unfold isQuote at 1. now rewrite eqc_refl.
  - rewrite parseCsvFrom_run; auto. right.
    apply existsb_false_forall in E. revert E. apply Forall_impl.
    intros c Hc. apply orb_false_iff in Hc as [Hc _]. now apply orb_false_iff in Hc as [_ Hc].
Qed.

Lemma parseCsvFrom_row (cells : list str) :
  forall cell result,
    Forall plainCell (cell :: cells) ->
    Processor.parseCsvFrom
      (joinWith [comma] (map ExportService.escapeCell (cell :: cells))) result [] false
    = result ++ cell :: cells.
Proof.
  induction cells as [|next cells IH]; intros cell result H;
    inversion H as [|? ? [Hq Ht] H']; subst.
  - cbn [map joinWith].
    rewrite <- (app_nil_r (ExportService.escapeCell cell)), parseCsvFrom_cell by exact Hq.
    cbn [Processor.parseCsvFrom]. now rewrite Ht.
  - change (joinWith [comma] (map ExportService.escapeCell (cell :: next :: cells)))
      with (ExportService.escapeCell cell
              ++ [comma] ++ joinWith [comma] (map ExportService.escapeCell (next :: cells))).
    rewrite parseCsvFrom_cell by exact Hq.
    cbn [app Processor.parseCsvFrom].
    assert (E1 : isQuote comma = false) by reflexivity.
    assert (E2 : isComma comma = true) by reflexivity.
    rewrite E1, E2. cbn [negb andb]. rewrite Ht, IH by exact H'.
    now rewrite <- app_assoc.
Qed.

(** The two copies of the line parser are the same function. *)
Lemma parseCsvFrom_copies (line : str) :
  forall result current inQuotes,
    LocationService.parseCsvFrom line result current inQuotes
    = Processor.parseCsvFrom line result current inQuotes.
Proof.
  induction line as [|x line IH]; intros result current inQuotes; simpl; [reflexivity|].
  destruct (isQuote x); [apply IH|]. destruct (isComma x && negb inQuotes); apply IH.
Qed.

Lemma parseCsvLine_copies (line : str) :
  LocationService.parseCsvLine line = Processor.parseCsvLine line.
Proof. apply parseCsvFrom_copies. Qed.

(** X24.  A row of cells without double quotes and without white space at their
    ends, written as [exportCSV] writes a row, is read back by
    [parseCsvLine] as the same cells (commas inside a cell included).  Both
    copies of [parseCsvLine] agree. *)
Theorem parseCsvLine_reads_exported_row (cells : list str) :
  cells <> [] -> Forall plainCell cells ->
  Processor.parseCsvLine (joinWith [comma] (map ExportService.escapeCell cells)) = cells
  /\ LocationService.parseCsvLine (joinWith [comma] (map ExportService.escapeCell cells))
     = cells.
Proof.
  intros Hne H. destruct cells as [|cell cells]; [contradiction|].
  split; [|rewrite (parseCsvLine_copies (joinWith _ _))];
    apply (parseCsvFrom_row cells cell []); exact H.
Qed.

Lemma parseCsvLine_reads_exported_row_witness :
  let cells := [lit "SOUTHERN"; lit "BO"; lit "BO DISTRICT"; lit "KAKUA"; lit "NEW SITE";
                lit "BO, NEW TOWN (KAKUA)"] in
  Processor.parseCsvLine (joinWith [comma] (map ExportService.escapeCell cells)) = cells
  /\ LocationService.parseCsvLine (joinWith [comma] (map ExportService.escapeCell cells))
     = cells.
Proof.
  apply (parseCsvLine_reads_exported_row
           [lit "SOUTHERN"; lit "BO"; lit "BO DISTRICT"; lit "KAKUA"; lit "NEW SITE";
            lit "BO, NEW TOWN (KAKUA)"]).
  - discriminate.
  - repeat constructor.
Defined.

(** ** What [validateCsvData] accepts *)

Lemma flat_map_nil {A B} (f : A -> list B) (l : list A) :
  flat_map f l = [] -> forall x, In x l -> f x = [].
Proof.
  induction l as [|y l IH]; simpl; intros H x Hx; [contradiction|].
  apply app_eq_nil in H as [H1 H2]. destruct Hx as [<-|Hx]; auto.
Qed.

Lemma nonEmpty_true (s : str) : SearchService.nonEmpty s = true <-> s <> [].
Proof.
  unfold SearchService.nonEmpty. rewrite negb_true_iff. apply eqs_false_iff.
Qed.

(** X25.  Data that [validateCsvData] declares valid have a header line that names
    the six columns and at least one more line; and each of the lines
    [2 .. 100] has six to eight fields, the first and the sixth not blank. *)
Theorem validateCsvData_valid (csvData : str) :
  isValid (Processor.validateCsvData csvData) = true ->
  let lines := splitOn LF (trim csvData) in
  (2 <= length lines)%nat
  /\ Forall (fun name => includes (nth 0 lines []) name = true) Processor.expectedHeaders
  /\ forall i, (1 <= i < Nat.min (length lines) 100)%nat ->
               let fields := Processor.parseCsvLine (nth i lines []) in
               (6 <= length fields <= 8)%nat
               /\ trim (nth 0 fields []) <> [] /\ trim (nth 5 fields []) <> [].
Proof.
  unfold Processor.validateCsvData.
  destruct (negb _ || _); [intro H; discriminate H|].
  cbv zeta.
  destruct (length (splitOn LF (trim csvData)) <? 2)%nat eqn:E2; [intro H; discriminate H|].
  apply Nat.ltb_ge in E2.
  cbn [isValid]. intro H. apply Nat.eqb_eq in H. apply length_zero_iff_nil in H.
  apply app_eq_nil in H as [Hh Hr].
  split; [exact E2|]. split.
  - apply Forall_forall. intros name Hn.
    pose proof (flat_map_nil _ _ Hh name Hn) as K. cbv beta in K.
    destruct (includes _ name); [reflexivity | discriminate K].
  - intros i Hi.
    assert (Hin : In i (seq 1 (Nat.min (length (splitOn LF (trim csvData))) 100 - 1))).
    { apply in_seq. lia. }
    pose proof (flat_map_nil _ _ Hr i Hin) as K. cbv beta in K.
    unfold Processor.rowErrors in K. cbv zeta in K.
    apply app_eq_nil in K as [K1 K2].
    set (fields := Processor.parseCsvLine _) in *. cbv zeta.
    destruct ((length fields <? 4)%nat || (8 <? length fields)%nat) eqn:Ec;
      [discriminate K1|].
    destruct (negb (SearchService.nonEmpty (trim (nth 0 fields [])))
              || negb (SearchService.nonEmpty (trim (nth 5 fields [])))) eqn:Em;
      [discriminate K2|].
    apply orb_false_iff in Ec as [_ Ec]. apply Nat.ltb_ge in Ec.
    apply orb_false_iff in Em as [E0 E5].
    apply negb_false_iff, nonEmpty_true in E0. apply negb_false_iff, nonEmpty_true in E5.
    split; [|split; assumption].
    split; [|exact Ec].
    destruct (Nat.lt_ge_cases (length fields) 6) as [Hlt|Hge]; [|exact Hge].
    exfalso. apply E5. rewrite nth_overflow by lia. reflexivity.
Qed.

Lemma validateCsvData_valid_witness :
  let csvData := sampleCsv in
  let lines := splitOn LF (trim csvData) in
  (2 <= length lines)%nat
  /\ Forall (fun name => includes (nth 0 lines []) name = true) Processor.expectedHeaders
  /\ forall i, (1 <= i < Nat.min (length lines) 100)%nat ->
               let fields := Processor.parseCsvLine (nth i lines []) in
               (6 <= length fields <= 8)%nat
               /\ trim (nth 0 fields []) <> [] /\ trim (nth 5 fields []) <> [].
Proof.
  exact (validateCsvData_valid sampleCsv eq_refl).
Defined.

(** ** Exported CSV text is not accepted as input *)

Lemma trimEnd_app (a b : str) (c : ascii) :
  In c b -> isSpace c = false -> exists b', trimEnd (a ++ b) = a ++ b'.
Proof.
  intros Hc Hs. unfold trimEnd. rewrite rev_app_distr.
  rewrite dropWhile_app_ne.
  - rewrite rev_app_distr, rev_involutive. eexists. reflexivity.
  - intro H. apply dropWhile_nil_forall in H. rewrite Forall_forall in H.
    specialize (H c). rewrite <- in_rev in H. specialize (H Hc). congruence.
Qed.

Lemma splitOn_line (sep : ascii) (h x : str) :
  Forall (fun c => eqc c sep = false) h -> splitOn sep (h ++ sep :: x) = h :: splitOn sep x.
Proof.
  induction 1 as [|c h Hc _ IH]; simpl.
  - now rewrite eqc_refl.
  - now rewrite Hc, IH.
Qed.

Lemma splitOn_nonempty (sep : ascii) (s : str) : splitOn sep s <> [].
Proof.
  induction s as [|c s IH]; simpl; [discriminate|].
  destruct (eqc c sep); [discriminate|]. destruct (splitOn sep s); discriminate.
Qed.

Lemma in_joinWith_sep (sep : ascii) (a b : str) (rest : list str) :
  In sep (joinWith [sep] (a :: b :: rest)).
Proof.
  change (joinWith [sep] (a :: b :: rest)) with (a ++ [sep] ++ joinWith [sep] (b :: rest)).
  apply in_app_iff. right. now left.
Qed.

Lemma in_joinWith_first (sep x : str) (c : ascii) (rest : list str) :
  In c x -> In c (joinWith sep (x :: rest)).
Proof.
  intro H. destruct rest as [|y rest]; [exact H|].
  change (joinWith sep (x :: y :: rest)) with (x ++ sep ++ joinWith sep (y :: rest)).
  apply in_app_iff. now left.
Qed.

(** The text of a header row and at least one more row of two or more
    cells: after [trim], its first line is still the header line. *)
Lemma export_first_line (header first : list str) (others : list (list str)) :
  let h := joinWith [comma] (map ExportService.escapeCell header) in
  startsTight h -> h <> [] -> Forall (fun c => eqc c LF = false) h ->
  (2 <= length first)%nat ->
  exists rest,
    splitOn LF (trim (ExportService.csvOfRows (header :: first :: others)))
    = h :: splitOn LF rest.
Proof.
  intros h Hs Hne Hlf Hlen.
  unfold ExportService.csvOfRows.
  set (line := fun row => joinWith [comma] (map ExportService.escapeCell row)).
  change (joinWith [LF] (map line (header :: first :: others)))
    with (h ++ [LF] ++ joinWith [LF] (map line (first :: others))).
  set (body := joinWith [LF] (map line (first :: others))).
  assert (Hc : In comma body).
  { unfold body. cbn [map]. apply in_joinWith_first.
    unfold line. destruct first as [|a [|b first]]; simpl in Hlen; try lia.
    cbn [map]. apply in_joinWith_sep. }
  unfold trim, trimStart.
  assert (E : dropWhile isSpace (h ++ [LF] ++ body) = h ++ [LF] ++ body).
  { apply dropWhile_fix_iff. unfold startsTight in Hs. apply dropWhile_fix_iff in Hs.
    destruct h; [contradiction | exact Hs]. }
  rewrite E.
  destruct (trimEnd_app (h ++ [LF]) body comma Hc eq_refl) as (rest & Hr).
  rewrite app_assoc, Hr, <- app_assoc. exists rest.
  now apply splitOn_line.
Qed.

Lemma refused_by_first_line (csvData h : str) (rest : str) :
  csvData <> [] ->
  splitOn LF (trim csvData) = h :: splitOn LF rest ->
  includes h (lit "idregion") = false ->
  isValid (Processor.validateCsvData csvData) = false
  /\ Processor.processCsvToHierarchy csvData
     = Raised (lit "Invalid CSV format: missing required headers").
Proof.
  intros Hne Hl Hi. split.
  - unfold Processor.validateCsvData.
    destruct (negb _ || _); [reflexivity|]. cbv zeta. rewrite Hl.
    destruct (length _ <? 2)%nat; [reflexivity|].
    cbn [nth isValid Processor.expectedHeaders flat_map]. rewrite Hi. reflexivity.
  - unfold Processor.processCsvToHierarchy. cbv zeta. rewrite Hl. cbn [hd].
    rewrite Hi. now rewrite orb_true_r.
Qed.

(** X26.  No text that [exportCSV] writes is accepted back: [validateCsvData]
    declares it invalid and [processCsvToHierarchy] throws, because the
    header row of the export does not name the column [idregion]. *)
Theorem exportCSV_is_not_importable (data : ExportService.ExportData) :
  isValid (Processor.validateCsvData (ExportService.exportCSV data)) = false
  /\ Processor.processCsvToHierarchy (ExportService.exportCSV data)
     = Raised (lit "Invalid CSV format: missing required headers").
Proof.
  destruct data as [[|r records]|[|p provinces]]; try (split; reflexivity).
  - cbn [ExportService.exportCSV map].
    destruct (export_first_line ExportService.recordHeader (ExportService.recordRow r)
                (map ExportService.recordRow records)) as (rest & H);
      [reflexivity | discriminate | repeat constructor | simpl; lia |].
    refine (refused_by_first_line _ _ rest _ H _); [|reflexivity].
    intro E. rewrite E in H. discriminate H.
  - cbn [ExportService.exportCSV flat_map].
    unfold ExportService.provinceRows at 1. cbn [app].
    destruct (export_first_line ExportService.hierarchyHeader
                [pv_name p; lit "province"; pv_code p; []; []; []; []]
                (flat_map (ExportService.districtRows (pv_name p)) (pv_districts p)
                   ++ flat_map ExportService.provinceRows provinces)) as (rest & H);
      [reflexivity | discriminate | repeat constructor | simpl; lia |].
    refine (refused_by_first_line _ _ rest _ H _); [|reflexivity].
    intro E. rewrite E in H. discriminate H.
Qed.

(** ** The cached listings of [LocationService] *)

Lemma in_setAdd (set : list str) (x y : str) : In y (setAdd set x) <-> In y set \/ y = x.
Proof.
  unfold setAdd. destruct (hasStr set x) eqn:E.
  - apply hasStr_true in E. split; [now left | intros [H| ->]; assumption].
  - rewrite in_app_iff. simpl. intuition.
Qed.

Lemma NoDup_setAdd (set : list str) (x : str) : NoDup set -> NoDup (setAdd set x).
Proof.
  intro H. unfold setAdd. destruct (hasStr set x) eqn:E; [exact H|].
  apply hasStr_false in E.
  apply NoDup_app; [exact H | repeat constructor; exact (fun K => K) |].
  intros s Hs [<-|[]]. exact (E Hs).
Qed.

Lemma distinct_spec (arr : list str) :
  NoDup (distinct arr) /\ forall x, In x (distinct arr) <-> In x arr.
Proof.
  unfold distinct.
  assert (H : forall acc, NoDup acc ->
                          NoDup (fold_left setAdd arr acc)
                          /\ forall x, In x (fold_left setAdd arr acc) <-> In x acc \/ In x arr).
  { induction arr as [|a arr IH]; intros acc Hacc; simpl.
    - split; [exact Hacc | intuition].
    - destruct (IH (setAdd acc a) (NoDup_setAdd acc a Hacc)) as [H1 H2].
      split; [exact H1|]. intro x. rewrite H2, in_setAdd. intuition. }
  destruct (H [] (NoDup_nil _)) as [H1 H2]. split; [exact H1|].
  intro x. rewrite H2. simpl. intuition.
Qed.

(** A listing is in ascending order, has no name twice, and holds the names
    that occur and are not blank. *)
Lemma distinctNames_spec (names : list str) :
  ascending (LocationService.distinctNames names)
  /\ NoDup (LocationService.distinctNames names)
  /\ forall name, In name (LocationService.distinctNames names)
                  <-> In name names /\ trim name <> [].
Proof.
  unfold LocationService.distinctNames.
  destruct (distinct_spec names) as [H1 H2].
  split; [apply ascending_sortStrings|]. split.
  - apply (Permutation_NoDup (Permutation_sym (sortStrings_perm _))).
    now apply NoDup_filter.
  - intro name. split.
    + intro H. apply (Permutation_in _ (sortStrings_perm _)) in H.
      apply filter_In in H as [H K]. apply H2 in H. split; [exact H|].
      apply Nat.ltb_lt in K. intro E. rewrite E in K. simpl in K. lia.
    + intros [H K]. apply (Permutation_in _ (Permutation_sym (sortStrings_perm _))).
      apply filter_In. split; [now apply H2|].
      apply Nat.ltb_lt. destruct (trim name); [contradiction | simpl; lia].
Qed.

(** What a call through the cache answers, and what it leaves under the
    key. *)
Lemma throughCache_run (cacheKey : str) (value : CacheValue) (w : World) :
  exists w',
    LocationService.throughCache cacheKey value w
    = (Ok (match JsMap.get (cacheOf w) cacheKey with
           | Some v => if truthy (Some v) then v else value
           | None => value
           end), w')
    /\ (truthy (JsMap.get (cacheOf w) cacheKey) = false ->
        JsMap.get (cacheOf w') cacheKey = Some value).
Proof.
  unfold LocationService.throughCache. unfold bind at 1.
  destruct (JsMap.get (cacheOf w) cacheKey) as [v|] eqn:E.
  - rewrite (getFromCache_present cacheKey v w E).
    destruct (truthy (Some v)) eqn:T.
    + eexists. split; [reflexivity | intro H; discriminate H].
    + unfold bind.
      match goal with
      | |- context [LocationService.setToCache cacheKey value ?w1] =>
          destruct (setToCache_stores cacheKey value w1) as (w2 & H1 & H2); rewrite H1
      end.
      eexists. split; [reflexivity | intros _; exact H2].
  - assert (G : LocationService.getFromCache cacheKey w = (Ok None, w)).
    { unfold LocationService.getFromCache, LocationService.this, bind, gets.
      unfold JsMap.has. unfold cacheOf in E. now rewrite E. }
    rewrite G. unfold bind.
    destruct (setToCache_stores cacheKey value w) as (w2 & H1 & H2). rewrite H1.
    eexists. split; [reflexivity | intros _; exact H2].
Qed.

(** X27.  On a cache miss, [getDistricts(provinceName)] answers the districts of
    the records whose region has the normal form of the sanitized name: each
    once, none blank, in ascending order; and the answer is left in the
    cache. *)
Theorem getDistricts_lists_the_districts (w w1 : World) (provinceName sanitized : str) :
  provinceName <> [] ->
  SecurityValidator.sanitize provinceName w = (Ok sanitized, w1) ->
  truthy (JsMap.get (cacheOf w) (lit "districts-" ++ normalize sanitized)) = false ->
  exists names,
    fst (LocationService.getDistricts (Some provinceName) w) = Ok (VStrings names)
    /\ ascending names /\ NoDup names
    /\ (forall name,
           In name names
           <-> (exists record, In record (ls_rawData (locationService w))
                               /\ normalize (idregion record) = normalize sanitized
                               /\ iddistrict record = name)
               /\ trim name <> [])
    /\ JsMap.get (cacheOf (snd (LocationService.getDistricts (Some provinceName) w)))
                 (lit "districts-" ++ normalize sanitized)
       = Some (VStrings names).
Proof.
  intros Hne Hs Hmiss.
  pose proof (sanitize_value _ _ _ _ Hs) as [_ Hls].
  set (names := LocationService.distinctNames
                  (map iddistrict
                       (LocationService.recordsWhere idregion (normalize sanitized)
                          (ls_rawData (locationService w))))).
  assert (Hc : cacheOf w1 = cacheOf w) by (unfold cacheOf; now rewrite Hls).
  destruct (throughCache_run (lit "districts-" ++ normalize sanitized) (VStrings names) w1)
    as (w2 & Hrun & Hstored).
  rewrite Hc in Hrun, Hstored.
  assert (Hcall : LocationService.getDistricts (Some provinceName) w
                  = (Ok (VStrings names), w2)).
  { unfold LocationService.getDistricts, LocationService.this. unfold bind at 1. unfold gets.
    assert (G : given (Some provinceName) = true)
      by (destruct provinceName; [contradiction | reflexivity]).
    rewrite G. cbn [negb orEmpty]. unfold bind at 1. rewrite Hs.
    fold names. rewrite Hrun. f_equal. f_equal.
    destruct (JsMap.get (cacheOf w) _) as [v|]; [|reflexivity].
    now rewrite Hmiss. }
  rewrite Hcall. cbn [fst snd].
  exists names.
  destruct (distinctNames_spec
              (map iddistrict
                   (LocationService.recordsWhere idregion (normalize sanitized)
                      (ls_rawData (locationService w))))) as (A1 & A2 & A3).
  fold names in A1, A2, A3.
  split; [reflexivity | split; [exact A1 | split; [exact A2 | split]]].
  - intro name. rewrite A3. split.
    + intros [H K]. split; [|exact K].
      apply in_map_iff in H as (record & E & H).
      unfold LocationService.recordsWhere in H. apply filter_In in H as [H1 H2].
      apply eqs_iff in H2. now exists record.
    + intros [(record & H1 & H2 & H3) K]. split; [|exact K].
      apply in_map_iff. exists record. split; [exact H3|].
      unfold LocationService.recordsWhere. apply filter_In. split; [exact H1|].
      now apply eqs_iff.
  - now apply Hstored.
Qed.

Lemma getDistricts_lists_the_districts_witness :
  exists names,
    fst (LocationService.getDistricts (Some (lit "Southern")) sampleWorld) = Ok (VStrings names)
    /\ ascending names /\ NoDup names
    /\ (forall name,
           In name names
           <-> (exists record, In record (ls_rawData (locationService sampleWorld))
                               /\ normalize (idregion record) = normalize (lit "Southern")
                               /\ iddistrict record = name)
               /\ trim name <> [])
    /\ JsMap.get (cacheOf (snd (LocationService.getDistricts (Some (lit "Southern"))
                                                             sampleWorld)))
                 (lit "districts-" ++ normalize (lit "Southern"))
       = Some (VStrings names).
Proof.
  apply (getDistricts_lists_the_districts sampleWorld sampleWorld (lit "Southern")
           (lit "Southern")).
  - discriminate.
  - vm_compute. reflexivity.
  - vm_compute. reflexivity.
Defined.

(** ** [getLocationsByQuery] *)

Lemma filterBy_value (query : LocationService.LocationQuery) (property : str)
      (column : LocationRecord -> str) (results r : list LocationRecord) (w w' : World) :
  LocationService.filterBy query property column results w = (Ok r, w') ->
  r = filter (passes query property column) results
  /\ locationService w' = locationService w.
Proof.
  unfold LocationService.filterBy, passes.
  destruct (given (JsMap.get query property)) eqn:G; cbn [negb orb].
  - unfold bind.
    destruct (SecurityValidator.sanitize _ w) as [[s|e] w1] eqn:Hs; [|intro H; discriminate H].
    apply sanitize_value in Hs as [-> Hls].
    unfold ret. intro H. inversion H; subst. split; [reflexivity | exact Hls].
  - unfold ret. intro H. inversion H; subst. split; [|reflexivity].
    symmetry. apply filter_all. apply Forall_forall. auto.
Qed.

Lemma filter_filter {A} (p q : A -> bool) (l : list A) :
  filter q (filter p l) = filter (fun x => p x && q x) l.
Proof.
  induction l as [|x l IH]; [reflexivity|]. simpl.
  destruct (p x); simpl; [destruct (q x); now rewrite IH | exact IH].
Qed.

Lemma queryMiss_value (query : LocationService.LocationQuery) (cacheKey : str)
      (v : CacheValue) (w w' : World) :
  LocationService.queryMiss query cacheKey w = (Ok v, w') ->
  v = VRecords (recordsMatching query (ls_rawData (locationService w))).
Proof.
  unfold LocationService.queryMiss, LocationService.this. unfold bind at 1. unfold gets.
  unfold bind at 1.
  destruct (LocationService.filterBy query (lit "province") idregion _ w)
    as [[r1|e] w1] eqn:H1; [|intro H; discriminate H].
  apply filterBy_value in H1 as [-> _].
  unfold bind at 1.
  destruct (LocationService.filterBy query (lit "district") iddistrict _ w1)
    as [[r2|e] w2] eqn:H2; [|intro H; discriminate H].
  apply filterBy_value in H2 as [-> _].
  unfold bind at 1.
  destruct (LocationService.filterBy query (lit "chiefdom") idchiefdom _ w2)
    as [[r3|e] w3] eqn:H3; [|intro H; discriminate H].
  apply filterBy_value in H3 as [-> _].
  unfold bind.
  destruct (setToCache_stores cacheKey
              (VRecords (filter (passes query (lit "chiefdom") idchiefdom)
                           (filter (passes query (lit "district") iddistrict)
                              (filter (passes query (lit "province") idregion)
                                 (ls_rawData (locationService w)))))) w3) as (w4 & E & _).
  rewrite E. unfold ret. intro H. inversion H; subst.
  unfold recordsMatching. rewrite !filter_filter. f_equal.
  apply filter_ext. intro r. cbv beta. now rewrite andb_assoc.
Qed.

Lemma getFromCache_rawData (key : str) (w : World) :
  ls_rawData (locationService (snd (LocationService.getFromCache key w)))
  = ls_rawData (locationService w).
Proof.
  rewrite getFromCache_run. destruct (JsMap.has _ _); reflexivity.
Qed.

(** X28.  On a cache miss, [getLocationsByQuery] answers, in the order of the
    data, the records that pass the filters of the properties [province],
    [district] and [chiefdom] that the query gives; any other property of
    the query, [type] included, restricts nothing. *)
Theorem getLocationsByQuery_filters (w w' : World) (query : LocationService.LocationQuery)
        (v : CacheValue) :
  truthy (JsMap.get (cacheOf w) (lit "query-" ++ LocationService.jsonObject query)) = false ->
  LocationService.getLocationsByQuery query w = (Ok v, w') ->
  v = VRecords (recordsMatching query (ls_rawData (locationService w))).
Proof.
  intros Hmiss. unfold LocationService.getLocationsByQuery. cbv zeta. unfold bind at 1.
  pose proof (getFromCache_rawData (lit "query-" ++ LocationService.jsonObject query) w) as Hraw.
  destruct (JsMap.get (cacheOf w) _) as [c|] eqn:E.
  - rewrite (getFromCache_present _ c w E) in *. cbn [snd] in Hraw.
    cbv beta iota. rewrite Hmiss. intro H. apply queryMiss_value in H.
    rewrite H. now rewrite Hraw.
  - assert (G : LocationService.getFromCache
                  (lit "query-" ++ LocationService.jsonObject query) w = (Ok None, w)).
    { unfold LocationService.getFromCache, LocationService.this, bind, gets.
      unfold JsMap.has. unfold cacheOf in E. now rewrite E. }
    rewrite G. apply queryMiss_value.
Qed.

Lemma getLocationsByQuery_filters_witness :
  let query := [(lit "province", lit "Southern"); (lit "type", lit "town")] in
  match fst (LocationService.getLocationsByQuery query sampleWorld) with
  | Ok v => v
  | Throw _ => VNull
  end
  = VRecords (recordsMatching query (ls_rawData (locationService sampleWorld))).
Proof.
  intro query.
  apply (getLocationsByQuery_filters sampleWorld
           (snd (LocationService.getLocationsByQuery query sampleWorld)) query).
  - vm_compute. reflexivity.
  - vm_compute. reflexivity.
Defined.

(** ** [buildHierarchy] *)

Lemma set_absent {V} (m : JsMap.t V) (k : str) (v : V) :
  JsMap.has m k = false -> JsMap.set m k v = m ++ [(k, v)].
Proof.
  unfold JsMap.has. induction m as [|[k' v'] m IH]; simpl; [reflexivity|].
  destruct (eqs k' k); [discriminate|]. intro H. now rewrite IH.
Qed.

Lemma set_present {V} (m : JsMap.t V) (k : str) (v v' : V) :
  JsMap.get m k = Some v ->
  exists m1 k1 m2, m = m1 ++ (k1, v) :: m2 /\ JsMap.set m k v' = m1 ++ (k1, v') :: m2.
Proof.
  induction m as [|[k' u] m IH]; simpl; [discriminate|].
  destruct (eqs k' k) eqn:E.
  - intro H. inversion H; subst. exists [], k', m. split; reflexivity.
  - intro H. destruct (IH H) as (m1 & k1 & m2 & E1 & E2).
    exists ((k', u) :: m1), k1, m2. simpl. now rewrite E1 at 1; rewrite E2.
Qed.

Lemma flat_map_values_set {V B} (f : V -> list B) (m : JsMap.t V) (k : str) (v v' : V)
      (extra : list B) :
  JsMap.get m k = Some v -> f v' = f v ++ extra ->
  Permutation (flat_map f (JsMap.values (JsMap.set m k v')))
              (flat_map f (JsMap.values m) ++ extra).
Proof.
  intros Hg Hf. destruct (set_present m k v v' Hg) as (m1 & k1 & m2 & E1 & E2).
  rewrite E2, E1. unfold JsMap.values. rewrite !map_app. cbn [map snd].
  rewrite !flat_map_app. cbn [flat_map]. rewrite Hf.
  rewrite <- !app_assoc. apply Permutation_app_head. apply Permutation_app_head.
  apply Permutation_app_comm.
Qed.

Lemma derefs_keys {V} (m : JsMap.t V) :
  NoDup (JsMap.keys m) -> Processor.derefs m (JsMap.keys m) = JsMap.values m.
Proof.
  unfold Processor.derefs.
  assert (H : forall (pre : JsMap.t V),
             (forall k, In k (JsMap.keys m) -> ~ In k (JsMap.keys pre)) ->
             NoDup (JsMap.keys m) ->
             flat_map (fun k => match JsMap.get (pre ++ m) k with Some v => [v] | None => [] end)
                      (JsMap.keys m) = JsMap.values m).
  { induction m as [|[k v] m IH]; intros pre Hpre Hnd; [reflexivity|].
    cbn [JsMap.keys JsMap.values map fst snd flat_map] in *.
    assert (G : JsMap.get (pre ++ (k, v) :: m) k = Some v).
    { clear IH. induction pre as [|[k' v'] pre IHp]; simpl.
      - now rewrite eqs_refl.
      - destruct (eqs k' k) eqn:E.
        + apply eqs_iff in E. subst. exfalso. apply (Hpre k); simpl; auto.
        + apply IHp. intros x Hx Hin. apply (Hpre x Hx). now right. }
    rewrite G. cbn [app]. f_equal.
    specialize (IH (pre ++ [(k, v)])). rewrite <- app_assoc in IH. apply IH.
    - intros x Hx Hin. unfold JsMap.keys in Hin. rewrite map_app in Hin.
      apply in_app_iff in Hin as [Hin|[<-|[]]].
      + apply (Hpre x); [now right | exact Hin].
      + inversion Hnd; subst. contradiction.
    - now inversion Hnd. }
  intro Hnd. apply (H [] (fun _ _ K => K) Hnd).
Qed.

Lemma derefs_perm {V} (m : JsMap.t V) (keys : list str) :
  NoDup (JsMap.keys m) -> Permutation keys (JsMap.keys m) ->
  Permutation (Processor.derefs m keys) (JsMap.values m).
Proof.
  intros Hnd Hp. rewrite <- (derefs_keys m Hnd).
  unfold Processor.derefs. now apply Permutation_flat_map.
Qed.

Lemma has_false_get {V} (m : JsMap.t V) (k : str) :
  JsMap.has m k = false -> JsMap.get m k = None.
Proof. unfold JsMap.has. now destruct (JsMap.get m k). Qed.

Lemma has_true_get {V} (m : JsMap.t V) (k : str) :
  JsMap.has m k = true -> exists v, JsMap.get m k = Some v.
Proof. unfold JsMap.has. destruct (JsMap.get m k) as [v|]; [now exists v | discriminate]. Qed.

Lemma has_set_same {V} (m : JsMap.t V) (k : str) (v : V) : JsMap.has (JsMap.set m k v) k = true.
Proof. unfold JsMap.has. now rewrite get_set_same. Qed.

Lemma setAdd_keys {V} (m : JsMap.t V) (k : str) (v : V) :
  JsMap.keys (if JsMap.has m k then m else JsMap.set m k v) = setAdd (JsMap.keys m) k.
Proof.
  unfold setAdd.
  destruct (JsMap.has m k) eqn:E.
  - assert (H : hasStr (JsMap.keys m) k = true).
    { apply has_iff_in_keys in E. unfold hasStr. apply existsb_exists.
      exists k. split; [exact E | apply eqs_refl]. }
    now rewrite H.
  - assert (H : hasStr (JsMap.keys m) k = false).
    { destruct (hasStr (JsMap.keys m) k) eqn:K; [|reflexivity].
      apply hasStr_true in K. apply has_iff_in_keys in K. congruence. }
    rewrite H, keys_set, E. reflexivity.
Qed.

Lemma distinct_snoc (l : list str) (x : str) : distinct (l ++ [x]) = setAdd (distinct l) x.
Proof. unfold distinct. now rewrite fold_left_app. Qed.

Lemma create_facts {V B} (f : V -> list B) (m : JsMap.t V) (k : str) (fresh : V) :
  forall m1, m1 = (if JsMap.has m k then m else JsMap.set m k fresh) ->
  f fresh = [] -> NoDup (JsMap.keys m) ->
  NoDup (JsMap.keys m1)
  /\ JsMap.keys m1 = setAdd (JsMap.keys m) k
  /\ JsMap.keys m1 = (if JsMap.has m k then JsMap.keys m else JsMap.keys m ++ [k])
  /\ flat_map f (JsMap.values m1) = flat_map f (JsMap.values m)
  /\ (forall k' v, In (k', v) m1 -> In (k', v) m \/ (k' = k /\ v = fresh))
  /\ exists v, JsMap.get m1 k = Some v.
Proof.
  intros m1 -> Hf Hnd. split; [|split; [|split; [|split; [|split]]]].
  - destruct (JsMap.has m k); [exact Hnd | now apply nodup_set].
  - apply setAdd_keys.
  - destruct (JsMap.has m k) eqn:E; [reflexivity|]. now rewrite keys_set, E.
  - destruct (JsMap.has m k) eqn:E; [reflexivity|].
    rewrite (set_absent m k fresh E). unfold JsMap.values.
    rewrite map_app, flat_map_app. cbn. rewrite Hf. now rewrite app_nil_r.
  - intros k' v H. destruct (JsMap.has m k) eqn:E; [now left|].
    apply in_set in H. tauto.
  - destruct (JsMap.has m k) eqn:E.
    + now apply has_true_get.
    + exists fresh. apply get_set_same.
Qed.

Lemma update_facts {V B} (f : V -> list B) (m : JsMap.t V) (k : str) (v v' : V)
      (extra : list B) :
  JsMap.get m k = Some v -> f v' = f v ++ extra -> NoDup (JsMap.keys m) ->
  NoDup (JsMap.keys (JsMap.set m k v'))
  /\ JsMap.keys (JsMap.set m k v') = JsMap.keys m
  /\ Permutation (flat_map f (JsMap.values (JsMap.set m k v')))
                 (flat_map f (JsMap.values m) ++ extra)
  /\ JsMap.get (JsMap.set m k v') k = Some v'.
Proof.
  intros Hg Hf Hnd. split; [|split; [|split]].
  - now apply nodup_set.
  - rewrite keys_set. unfold JsMap.has. now rewrite Hg.
  - now apply (flat_map_values_set f m k v v' extra).
  - apply get_set_same.
Qed.

(** A parent that gains a child exactly when the child is new to its map. *)
Lemma link_facts {V B} (f : V -> list B) (m : JsMap.t V) (k : str) (v v' : V)
      (isOld : bool) (child : B) (children children1 : list B) :
  JsMap.get m k = Some v -> NoDup (JsMap.keys m) ->
  Permutation (flat_map f (JsMap.values m)) children ->
  children1 = (if isOld then children else children ++ [child]) ->
  forall m2, m2 = (if isOld then m else JsMap.set m k v') ->
  f v' = f v ++ [child] ->
  NoDup (JsMap.keys m2)
  /\ JsMap.keys m2 = JsMap.keys m
  /\ Permutation (flat_map f (JsMap.values m2)) children1
  /\ (forall k' u, In (k', u) m2 -> In (k', u) m \/ (k' = k /\ u = v'))
  /\ exists u, JsMap.get m2 k = Some u.
Proof.
  intros Hg Hnd Hp -> m2 -> Hf.
  destruct (update_facts f m k v v' [child] Hg Hf Hnd) as (A & B1 & C & D).
  destruct isOld.
  - repeat split; auto. now exists v.
  - repeat split; auto.
    + rewrite C. now apply Permutation_app_tail.
    + intros k' u H. apply in_set in H. tauto.
    + now exists v'.
Qed.

Lemma addRecord_inv (b : Processor.Builder) (done : list LocationRecord) (r : LocationRecord) :
  builderInv b done -> builderInv (Processor.addRecord b r) (done ++ [r]).
Proof.
  intros (Np & Nd & Nc & Pd & Pc & Pt & Kp & Nm).
  destruct b as [pm dm cm]. cbn [Processor.provinceMap Processor.districtMap Processor.chiefdomMap] in *.
  unfold Processor.addRecord.
  cbn [Processor.provinceMap Processor.districtMap Processor.chiefdomMap].
  cbv zeta. rewrite !if_negb.
  (* the province *)
  match goal with
  | |- context [if JsMap.has pm ?k then pm else ?s] =>
      remember (if JsMap.has pm k then pm else s) as pm1 eqn:Epm1
  end.
  destruct (create_facts Processor.po_districts pm _ _ pm1 Epm1 eq_refl Np)
    as (Np1 & Kp1 & _ & Fp1 & Ip1 & [p Hp]).
  rewrite Hp. clear Epm1.
  assert (Nm1 : forall k q, In (k, q) pm1 -> Processor.po_name q = k).
  { intros k q H. destruct (Ip1 k q H) as [H1|[-> ->]]; [now apply Nm | reflexivity]. }
  (* the district *)
  match goal with
  | |- context [if JsMap.has dm ?k then dm else ?s] =>
      remember (if JsMap.has dm k then dm else s) as dm1 eqn:Edm1
  end.
  destruct (create_facts Processor.do_chiefdoms dm _ _ dm1 Edm1 eq_refl Nd)
    as (Nd1 & _ & Kd1 & Fd1 & _ & [d Hd]).
  rewrite Hd. clear Edm1.
  match goal with
  | |- context [if JsMap.has dm ?k then pm1 else ?s] =>
      remember (if JsMap.has dm k then pm1 else s) as pm2 eqn:Epm2
  end.
  rewrite <- Fp1 in Pd.
  destruct (link_facts Processor.po_districts pm1 _ p _ _ _ _ _ Hp Np1 Pd Kd1 pm2 Epm2 eq_refl)
    as (Np2 & Kp2 & Pd2 & Ip2 & _).
  clear Epm2.
  (* the chiefdom *)
  match goal with
  | |- context [if JsMap.has cm ?k then cm else ?s] =>
      remember (if JsMap.has cm k then cm else s) as cm1 eqn:Ecm1
  end.
  destruct (create_facts c_towns cm _ _ cm1 Ecm1 eq_refl Nc)
    as (Nc1 & _ & Kc1 & Fc1 & _ & [c Hc]).
  rewrite Hc. clear Ecm1.
  match goal with
  | |- context [if JsMap.has cm ?k then dm1 else ?s] =>
      remember (if JsMap.has cm k then dm1 else s) as dm2 eqn:Edm2
  end.
  rewrite <- Fd1 in Pc.
  destruct (link_facts Processor.do_chiefdoms dm1 _ d _ _ _ _ _ Hd Nd1 Pc Kc1 dm2 Edm2 eq_refl)
    as (Nd2 & Kd2 & Pc2 & _ & _).
  clear Edm2.
  (* the town *)
  match goal with
  | |- context [JsMap.set cm1 ?k ?v] =>
      destruct (update_facts c_towns cm1 k c v _ Hc eq_refl Nc1) as (Nc2 & Kc2 & Pt2 & _)
  end.
  unfold builderInv.
  cbn [Processor.provinceMap Processor.districtMap Processor.chiefdomMap].
  repeat split.
  - exact Np2.
  - exact Nd2.
  - exact Nc2.
  - now rewrite Kd2.
  - now rewrite Kc2.
  - eapply Permutation_trans; [apply Permutation_map, Pt2|].
    rewrite map_app, Fc1. cbn [map]. apply Permutation_app; [exact Pt|].
    destruct r; reflexivity.
  - rewrite Kp2, Kp1, Kp, map_app. symmetry. apply distinct_snoc.
  - intros k q H. destruct (Ip2 k q H) as [H1|[-> ->]]; [now apply Nm1|].
    cbn. apply Nm1. now apply get_in.
Qed.

Lemma flat_map_nested {A B C} (f : A -> list B) (g : B -> list C) (l : list A) :
  flat_map (fun x => flat_map g (f x)) l = flat_map g (flat_map f l).
Proof.
  induction l as [|x l IH]; cbn [flat_map]; [reflexivity|].
  rewrite flat_map_app. now f_equal.
Qed.

Lemma buildHierarchy_inv (records : list LocationRecord) :
  builderInv (fold_left Processor.addRecord records
                (Processor.mkBuilder JsMap.empty JsMap.empty JsMap.empty)) records.
Proof.
  assert (G : forall rs b done, builderInv b done ->
                builderInv (fold_left Processor.addRecord rs b) (done ++ rs)).
  { induction rs as [|r rs IH]; intros b done H; cbn [fold_left].
    - now rewrite app_nil_r.
    - replace (done ++ r :: rs) with ((done ++ [r]) ++ rs) by now rewrite <- app_assoc.
      apply IH. now apply addRecord_inv. }
  apply (G records _ []).
  unfold builderInv; cbn. repeat split; try constructor. intros k p [].
Qed.

(** X29.  The provinces of the hierarchy are the distinct regions of the records,
    in the order of their first record. *)
Theorem buildHierarchy_provinces (records : list LocationRecord) :
  map pv_name (Processor.buildHierarchy records) = distinct (map idregion records).
Proof.
  destruct (buildHierarchy_inv records) as (_ & _ & _ & _ & _ & _ & Kp & Nm).
  unfold Processor.buildHierarchy. cbv zeta. rewrite <- Kp.
  rewrite map_map. cbn [Processor.provinceOf pv_name].
  unfold JsMap.values, JsMap.keys. rewrite map_map.
  apply map_ext_in. intros [k p] H. cbn. now apply Nm.
Qed.

(** X30.  The hierarchy holds one town for every record and no other: read
    back, the towns are the records, up to their order. *)
Theorem buildHierarchy_keeps_the_records (records : list LocationRecord) :
  Permutation (map recordOfTown (townsOf (Processor.buildHierarchy records))) records.
Proof.
  destruct (buildHierarchy_inv records) as (Np & Nd & Nc & Pd & Pc & Pt & _ & _).
  unfold Processor.buildHierarchy. cbv zeta.
  set (b := fold_left _ _ _) in *.
  eapply Permutation_trans; [|exact Pt]. apply Permutation_map.
  unfold townsOf.
  assert (E0 : forall (f : Province -> list Town) ps,
             flat_map f (map (Processor.provinceOf b) ps)
             = flat_map (fun p => f (Processor.provinceOf b p)) ps).
  { intros f ps. induction ps as [|p ps IH]; [reflexivity|]. cbn [map flat_map]. now rewrite IH. }
  rewrite E0. cbn [Processor.provinceOf pv_districts].
  assert (E1 : forall p,
             flat_map (fun d => flat_map c_towns (d_chiefdoms d))
                      (map (Processor.districtOf b)
                           (Processor.derefs (Processor.districtMap b) (Processor.po_districts p)))
             = flat_map (fun d => flat_map c_towns
                                    (Processor.derefs (Processor.chiefdomMap b)
                                                      (Processor.do_chiefdoms d)))
                        (Processor.derefs (Processor.districtMap b) (Processor.po_districts p))).
  { intro p. induction (Processor.derefs _ _) as [|d ds IH]; [reflexivity|].
    cbn [map flat_map]. now rewrite IH. }
  erewrite flat_map_ext by (intro; apply E1).
  set (G := fun d => flat_map c_towns
                       (Processor.derefs (Processor.chiefdomMap b) (Processor.do_chiefdoms d))).
  assert (E2 : flat_map (fun p => flat_map G (Processor.derefs (Processor.districtMap b)
                                                (Processor.po_districts p)))
                        (JsMap.values (Processor.provinceMap b))
               = flat_map G (Processor.derefs (Processor.districtMap b)
                               (flat_map Processor.po_districts
                                         (JsMap.values (Processor.provinceMap b))))).
  { rewrite (flat_map_nested (fun p => Processor.derefs (Processor.districtMap b)
                                                         (Processor.po_districts p)) G).
    f_equal. unfold Processor.derefs. apply flat_map_nested. }
  rewrite E2.
  eapply Permutation_trans.
  { apply Permutation_flat_map. apply (derefs_perm _ _ Nd Pd). }
  assert (E3 : flat_map G (JsMap.values (Processor.districtMap b))
               = flat_map c_towns
                   (Processor.derefs (Processor.chiefdomMap b)
                      (flat_map Processor.do_chiefdoms (JsMap.values (Processor.districtMap b))))).
  { unfold G.
    rewrite (flat_map_nested (fun d => Processor.derefs (Processor.chiefdomMap b)
                                                         (Processor.do_chiefdoms d)) c_towns).
    f_equal. unfold Processor.derefs. apply flat_map_nested. }
  rewrite E3. apply Permutation_flat_map. apply (derefs_perm _ _ Nc Pc).
Qed.
